(** * WeasyPrint box tree: a shallow embedding of [weasy/boxes.py]

    The development follows the module top to bottom: the class hierarchy
    of boxes, [dom_to_box], [process_whitespace], [inline_in_block] and,
    over an explicit object store, [Box.add_child] and [block_in_inline]. *)

From Stdlib Require Import String Ascii NArith List Lia Bool Arith.
From stdpp Require Import base option list.
Import ListNotations.

Set Warnings "-register-all".

Local Open Scope string_scope.
Local Open Scope list_scope.

(** ** Unicode text

    Python text is a sequence of code points; [u'\xA0'] and the zero-width space U+200B do
    not fit a byte, so a character is its code point. *)

Definition uchar := N.
Definition ustring := list uchar.

Definition TAB : uchar := 9%N.
Definition LF : uchar := 10%N.
Definition CR : uchar := 13%N.
Definition SPACE : uchar := 32%N.
Definition NBSP : uchar := 160%N.      (* u'\xA0' *)
Definition ZWSP : uchar := 8203%N.     (* U+200B, the zero-width space *)

(** Code points of an ASCII literal, to write texts readably. *)
Definition utext (s : string) : ustring :=
  map N_of_ascii (list_ascii_of_string s).

(** ** The three regular expressions of [process_whitespace]

    [re.sub(pattern, repl, text)] scans [text] from the left; at each
    position it tries the pattern; on a match it emits the replacement and
    resumes after the match, otherwise it copies one character.  A matcher
    returns the length of the match at the head of its input and the
    replacement text.  None of the three patterns matches the empty
    string, so a match always consumes at least one character. *)

Definition matcher := ustring -> option (nat * ustring).

Fixpoint re_sub_from (m : matcher) (skip : nat) (l : ustring) : ustring :=
  match l with
  | [] => []
  | c :: r =>
      match skip with
      | S k => re_sub_from m k r
      | O =>
          match m l with
          | Some (n, repl) => repl ++ re_sub_from m (pred n) r
          | None => c :: re_sub_from m 0 r
          end
      end
  end.

Definition re_sub (m : matcher) (l : ustring) : ustring := re_sub_from m 0 l.

(** Length of the longest prefix whose characters satisfy [p] (a greedy
    [[...]*]). *)
Fixpoint span_len (p : uchar -> bool) (l : ustring) : nat :=
  match l with
  | c :: r => if p c then S (span_len p r) else 0
  | [] => 0
  end.

(** The class [[\t\r ]]. *)
Definition is_hspace (c : uchar) : bool :=
  (c =? TAB)%N || (c =? CR)%N || (c =? SPACE)%N.

(** ['[\t\r ]*\n[\t\r ]*'] replaced by ['\n'].  The star is greedy and the
    class excludes the newline, so backtracking never finds another match. *)
Definition m_newline : matcher := fun l =>
  let k := span_len is_hspace l in
  match drop k l with
  | c :: r =>
      if (c =? LF)%N then Some (k + 1 + span_len is_hspace r, [LF]) else None
  | [] => None
  end.

(** [' +'] replaced by [' ']. *)
Definition m_spaces : matcher := fun l =>
  match span_len (fun c => (c =? SPACE)%N) l with
  | O => None
  | S k => Some (S k, [SPACE])
  end.

(** [u'\xA0([^\xA0]|$)'] replaced by the match with U+200B inserted after the [\xA0].  The first
    alternative takes any following character other than the non-breaking
    space (a newline included); [$] is left with the end of the text. *)
Definition m_nbsp : matcher := fun l =>
  match l with
  | c :: r =>
      if (c =? NBSP)%N then
        match r with
        | d :: _ => if (d =? NBSP)%N then None else Some (2, [NBSP; ZWSP; d])
        | [] => Some (1, [NBSP; ZWSP])
        end
      else None
  | [] => None
  end.

(** [text.replace(a, b)] for one-character [a] and [b]. *)
Definition replace_char (a b : uchar) (l : ustring) : ustring :=
  map (fun c => if (c =? a)%N then b else c) l.

Definition startswith (c : uchar) (l : ustring) : bool :=
  match l with
  | d :: _ => (d =? c)%N
  | [] => false
  end.

Fixpoint endswith (c : uchar) (l : ustring) : bool :=
  match l with
  | [] => false
  | [d] => (d =? c)%N
  | _ :: r => endswith c r
  end.

(** ** Styled elements

    The DOM element as [boxes.py] reads it: its computed style (the two
    keywords the module looks at), its leading text, its children in
    document order and its tail text.  [element.text] and [element.tail]
    are only tested for truth, which [None] and [''] both fail, so an
    absent text is the empty one. *)

Record Style := mkStyle {
  display : string;
  white_space : string
}.

Inductive Element :=
  mkElement (tag : string) (style : Style) (text : ustring)
            (children : list Element) (tail : ustring).

Definition e_tag (e : Element) := let 'mkElement t _ _ _ _ := e in t.
Definition e_style (e : Element) := let 'mkElement _ s _ _ _ := e in s.
Definition e_text (e : Element) := let 'mkElement _ _ t _ _ := e in t.
Definition e_children (e : Element) := let 'mkElement _ _ _ c _ := e in c.
Definition e_tail (e : Element) := let 'mkElement _ _ _ _ t := e in t.

(** ** The box classes *)

Inductive BoxClass :=
  | BlockBox
  | AnonymousBlockBox
  | LineBox
  | InlineBox
  | TextBox
  | InlineBlockBox
  | BlockLevelReplacedBox
  | InlineLevelReplacedBox.

Definition BoxClass_eqb (a b : BoxClass) : bool :=
  match a, b with
  | BlockBox, BlockBox | AnonymousBlockBox, AnonymousBlockBox
  | LineBox, LineBox | InlineBox, InlineBox | TextBox, TextBox
  | InlineBlockBox, InlineBlockBox
  | BlockLevelReplacedBox, BlockLevelReplacedBox
  | InlineLevelReplacedBox, InlineLevelReplacedBox => true
  | _, _ => false
  end.

(** [isinstance(box, C)] along the class hierarchy of the module. *)
Definition is_BlockLevelBox (c : BoxClass) : bool :=
  match c with
  | BlockBox | AnonymousBlockBox | BlockLevelReplacedBox => true
  | _ => false
  end.

Definition is_BlockContainerBox (c : BoxClass) : bool :=
  match c with
  | BlockBox | AnonymousBlockBox | InlineBlockBox => true
  | _ => false
  end.

Definition is_InlineBox (c : BoxClass) : bool :=
  match c with
  | InlineBox | TextBox => true
  | _ => false
  end.

Definition is_LineBox (c : BoxClass) : bool :=
  match c with LineBox => true | _ => false end.

Definition is_AnonymousBlockBox (c : BoxClass) : bool :=
  match c with AnonymousBlockBox => true | _ => false end.

Definition is_AnonymousBox (c : BoxClass) : bool :=
  match c with
  | AnonymousBlockBox | LineBox | TextBox => true
  | _ => false
  end.

(** Modelled from the spec: [css.PseudoElement] and
    [css.assign_properties], which [AnonymousBox._init_style] calls and
    which are not in this module.  An anonymous box has no cascaded value,
    only inherited and initial ones: [white-space] is inherited from the
    element, [display] takes its initial value. *)
Definition anonymous_style (s : Style) : Style :=
  {| display := "inline"; white_space := white_space s |}.

(** [Box._init_style] and its override in [AnonymousBox]. *)
Definition init_style (c : BoxClass) (e : Element) : Style :=
  if is_AnonymousBox c then anonymous_style (e_style e) else e_style e.

(** ** Box trees

    A [TextBox] has [children = None] and a [text]; every other box has a
    list of children and no [text] attribute. *)

Inductive Box :=
  | Node (cls : BoxClass) (element : Element) (children : list Box)
  | Text (element : Element) (text : ustring).

Definition box_class (b : Box) : BoxClass :=
  match b with Node c _ _ => c | Text _ _ => TextBox end.

Definition box_element (b : Box) : Element :=
  match b with Node _ e _ => e | Text e _ => e end.

Definition box_children (b : Box) : list Box :=
  match b with Node _ _ cs => cs | Text _ _ => [] end.

Definition box_style (b : Box) : Style :=
  init_style (box_class b) (box_element b).

(** ** Results of the partial operations *)

Inductive exn :=
  | AssertionError
  | NotImplementedError (msg : string)
  | UnboundLocalError
  | AttributeError
  | TypeError
  | ValueError
  | DanglingReference.

Inductive result (A : Type) :=
  | Ok (a : A)
  | Raise (e : exn)
  | OutOfFuel.
Arguments Ok {A} a.
Arguments Raise {A} e.
Arguments OutOfFuel {A}.

(** ** [dom_to_box] *)

Definition in2 (s a b : string) : bool := String.eqb s a || String.eqb s b.

Definition truthy (t : ustring) : bool :=
  match t with [] => false | _ => true end.

Definition truthy_list {A} (l : list A) : bool :=
  match l with [] => false | _ => true end.

Fixpoint dom_to_box (element : Element) : result Box :=
  let disp := display (e_style element) in
  if String.eqb disp "none" then Raise AssertionError
  else
    let box_cls :=
      if in2 disp "block" "list-item" then Ok BlockBox
      else if String.eqb disp "inline" then Ok InlineBox
      else if String.eqb disp "inline-block" then Ok InlineBlockBox
      else Raise (NotImplementedError ("Unsupported display: " ++ disp)) in
    match box_cls with
    | Ok c =>
        let first :=
          if truthy (e_text element)
          then [Text element (e_text element)] else [] in
        let loop :=
          fix loop (elems : list Element) (acc : list Box)
            : result (list Box) :=
            match elems with
            | [] => Ok acc
            | child_element :: rest =>
                let built :=
                  if negb (String.eqb (display (e_style child_element)) "none")
                  then match dom_to_box child_element with
                       | Ok b => Ok (acc ++ [b])
                       | Raise e => Raise e
                       | OutOfFuel => OutOfFuel
                       end
                  else Ok acc in
                match built with
                | Ok acc1 =>
                    loop rest
                      (if truthy (e_tail child_element)
                       then acc1 ++ [Text element (e_tail child_element)]
                       else acc1)
                | Raise e => Raise e
                | OutOfFuel => OutOfFuel
                end
            end in
        match loop (e_children element) first with
        | Ok kids => Ok (Node c element kids)
        | Raise e => Raise e
        | OutOfFuel => OutOfFuel
        end
    | Raise e => Raise e
    | OutOfFuel => OutOfFuel
    end.

(** ** [process_whitespace]

    The body of the loop on one text box: the text and the flag
    [following_collapsible_space] go in, the new text and flag come out. *)

Definition normalize_text (handling : string) (following : bool)
    (text : ustring) : ustring * bool :=
  let text := re_sub m_newline text in
  let text :=
    if in2 handling "pre" "pre-wrap" then
      let text := replace_char SPACE NBSP text in
      if String.eqb handling "pre-wrap" then re_sub m_nbsp text else text
    else if in2 handling "normal" "nowrap" then replace_char LF SPACE text
    else text in
  if in2 handling "normal" "nowrap" || String.eqb handling "pre-line" then
    let text := replace_char TAB SPACE text in
    let text := re_sub m_spaces text in
    let text :=
      if following && startswith SPACE text then List.tl text else text in
    (text, endswith SPACE text)
  else (text, false).

(** The loop over [box.descendants()]: the box itself, then the
    descendants of each child in order.  Only a text box with a non-empty
    text is touched; any other box leaves the flag as it is. *)
Fixpoint process_whitespace_from (following : bool) (b : Box) : Box * bool :=
  match b with
  | Text e t =>
      if truthy t then
        let (t', following') :=
          normalize_text (white_space (box_style b)) following t in
        (Text e t', following')
      else (b, following)
  | Node c e kids =>
      let go :=
        fix go (following : bool) (ks : list Box) : list Box * bool :=
          match ks with
          | [] => ([], following)
          | k :: r =>
              let (k', f1) := process_whitespace_from following k in
              let (r', f2) := go f1 r in
              (k' :: r', f2)
          end in
      let (kids', following') := go following kids in
      (Node c e kids', following')
  end.

Definition process_whitespace (b : Box) : Box :=
  fst (process_whitespace_from false b).

(** ** [inline_in_block]

    The tree is changed in place in the source; no box is shared between
    two parents at this stage, so the pass is a function from trees to
    trees.  The loop state is the new [box.children] and the children of
    the line box being filled. *)

Definition wrap_line (e : Element) (line : list Box) : Box :=
  Node AnonymousBlockBox e [Node LineBox e line].

Definition inline_in_block_step (e : Element) (st : list Box * list Box)
    (child_box : Box) : list Box * list Box :=
  let (new_children, line) := st in
  if is_BlockLevelBox (box_class child_box) then
    if truthy_list line
    then (new_children ++ [wrap_line e line] ++ [child_box], [])
    else (new_children ++ [child_box], line)
  else if is_LineBox (box_class child_box) then
    (new_children, line ++ box_children child_box)
  else (new_children, line ++ [child_box]).

Definition inline_in_block_finish (e : Element) (st : list Box * list Box)
    : list Box :=
  let (new_children, line) := st in
  if truthy_list line then
    if truthy_list new_children
    then new_children ++ [wrap_line e line]
    else new_children ++ [Node LineBox e line]
  else new_children.

Fixpoint inline_in_block (b : Box) : Box :=
  match b with
  | Text _ _ => b
  | Node c e kids =>
      let kids := map inline_in_block kids in
      if negb (is_BlockContainerBox c) then Node c e kids
      else
        Node c e
          (inline_in_block_finish e
             (fold_left (inline_in_block_step e) kids ([], [])))
  end.

(** ** The object store

    [Box.add_child] and [block_in_inline] re-parent boxes and splice the
    lists of children while loops are running over them, so here boxes and
    lists are objects in a store: a box holds a reference to its parent
    and a reference to the list object that is its [children]; two
    variables may name the same list.  Nothing is ever freed.
    [DanglingReference] is not a Python exception: it is the result of
    reading a reference the store has no object for, which no store built
    by the functions below contains. *)

Abbreviation ref := nat (only parsing).    (* a box object *)
Abbreviation lref := nat (only parsing).   (* a list object *)

Record BoxObj := mkObj {
  o_cls : BoxClass;
  o_element : Element;
  o_parent : option ref;
  o_children : option lref;     (* [None] on a text box *)
  o_text : option ustring       (* the attribute exists on a text box only *)
}.

Record Heap := mkHeap {
  boxes : list BoxObj;
  lists : list (list ref)
}.

Definition empty_heap : Heap := mkHeap [] [].

Definition M (A : Type) : Type := Heap -> result (A * Heap).

Definition ret {A} (a : A) : M A := fun h => Ok (a, h).

Definition bind {A B} (m : M A) (f : A -> M B) : M B := fun h =>
  match m h with
  | Ok (a, h') => f a h'
  | Raise e => Raise e
  | OutOfFuel => OutOfFuel
  end.

Definition raise {A} (e : exn) : M A := fun _ => Raise e.
Definition out_of_fuel {A} : M A := fun _ => OutOfFuel.

Declare Scope heap_scope.
Delimit Scope heap_scope with heap.
Notation "x <- m ;; k" := (bind m (fun x => k))
  (at level 100, m at next level, right associativity) : heap_scope.
Notation "m ;;; k" := (bind m (fun _ => k))
  (at level 100, right associativity) : heap_scope.
Local Open Scope heap_scope.

Definition get_box (r : ref) : M BoxObj := fun h =>
  match boxes h !! r with
  | Some o => Ok (o, h)
  | None => Raise DanglingReference
  end.

Definition put_box (r : ref) (o : BoxObj) : M unit := fun h =>
  Ok (tt, mkHeap (<[r := o]> (boxes h)) (lists h)).

Definition get_list (lr : lref) : M (list ref) := fun h =>
  match lists h !! lr with
  | Some l => Ok (l, h)
  | None => Raise DanglingReference
  end.

Definition put_list (lr : lref) (l : list ref) : M unit := fun h =>
  Ok (tt, mkHeap (boxes h) (<[lr := l]> (lists h))).

(** A fresh list object. *)
Definition new_list (l : list ref) : M lref := fun h =>
  Ok (length (lists h), mkHeap (boxes h) (lists h ++ [l])).

Definition new_obj (o : BoxObj) : M ref := fun h =>
  Ok (length (boxes h), mkHeap (boxes h ++ [o]) (lists h)).

(** [Box.__init__]: no parent, a fresh empty list of children. *)
Definition new_box (c : BoxClass) (e : Element) : M ref :=
  lr <- new_list [] ;;
  new_obj (mkObj c e None (Some lr) None).

(** [TextBox.__init__]: [children] is [None], the text is stored. *)
Definition new_text_box (e : Element) (t : ustring) : M ref :=
  new_obj (mkObj TextBox e None None (Some t)).

(** [type(parent)(parent.element)]: the constructor of a text box wants a
    second argument. *)
Definition new_like (o : BoxObj) : M ref :=
  match o_cls o with
  | TextBox => raise TypeError
  | c => new_box c (o_element o)
  end.

(** [box.children] used as a list: [None] has no list methods. *)
Definition children_list (r : ref) : M lref :=
  o <- get_box r ;;
  match o_children o with
  | Some lr => ret lr
  | None => raise AttributeError
  end.

(** [list.insert(index, x)] with Python's clamping of the index. *)
Definition py_insert (index : Z) (x : ref) (l : list ref) : list ref :=
  let n := Z.of_nat (length l) in
  let j := if (index <? 0)%Z then Z.max 0 (n + index) else Z.min index n in
  take (Z.to_nat j) l ++ [x] ++ drop (Z.to_nat j) l.

(** [Box.add_child(self, child, index=None)]. *)
Definition add_child (self child : ref) (index : option Z) : M unit :=
  c <- get_box child ;;
  put_box child
    (mkObj (o_cls c) (o_element c) (Some self) (o_children c) (o_text c)) ;;;
  lr <- children_list self ;;
  l <- get_list lr ;;
  match index with
  | None => put_list lr (l ++ [child])
  | Some i => put_list lr (py_insert i child l)
  end.

(** [list.index(x)]: the first position of [x]. *)
Fixpoint list_index (x : ref) (l : list ref) : option nat :=
  match l with
  | [] => None
  | y :: r => if Nat.eqb y x then Some 0 else S <$> list_index x r
  end.

(** [list.remove(x)]: without the first occurrence of [x]. *)
Fixpoint list_remove (x : ref) (l : list ref) : option (list ref) :=
  match l with
  | [] => None
  | y :: r => if Nat.eqb y x then Some r else (cons y) <$> list_remove x r
  end.

(** The property [Box.index]: [None] for a box without parent. *)
Definition index (self : ref) : M (option nat) :=
  o <- get_box self ;;
  match o_parent o with
  | None => ret None
  | Some p =>
      lr <- children_list p ;;
      l <- get_list lr ;;
      match list_index self l with
      | Some i => ret (Some i)
      | None => raise ValueError
      end
  end.

(** [box.index + 1]. *)
Definition index_plus_1 (self : ref) : M nat :=
  i <- index self ;;
  match i with
  | Some i => ret (i + 1)
  | None => raise TypeError
  end.

(** [box.parent.children.remove(box)]. *)
Definition remove_from_parent (box : ref) : M unit :=
  o <- get_box box ;;
  match o_parent o with
  | None => raise AttributeError
  | Some p =>
      lr <- children_list p ;;
      l <- get_list lr ;;
      match list_remove box l with
      | Some l' => put_list lr l'
      | None => raise ValueError
      end
  end.

(** [box.parent.add_child(child, index)], the callee looked up first. *)
Definition parent_add_child (box child : ref) (index : M (option Z))
    : M unit :=
  o <- get_box box ;;
  match o_parent o with
  | None => raise AttributeError
  | Some p => i <- index ;; add_child p child i
  end.

(** ** [block_in_inline]

    The generator [box.ancestors()] follows [parent] links as the loop
    asks for the next value, so each loop below reads the store at every
    step.  Loops that follow links, and the recursion, take fuel. *)

(** "Find all ancestry until a line box."  The second component is the
    local variable [parent_line_box], unbound if the loop ends without
    [break]. *)
Fixpoint find_ancestry (fuel : nat) (cur : ref) (inline_parents : list ref)
    : M (list ref * option ref) :=
  match fuel with
  | O => out_of_fuel
  | S fuel =>
      o <- get_box cur ;;
      match o_parent o with
      | None => ret (inline_parents, None)
      | Some parent =>
          po <- get_box parent ;;
          let inline_parents := inline_parents ++ [parent] in
          if negb (is_InlineBox (o_cls po)) then
            if is_LineBox (o_cls po)
            then ret (inline_parents, Some parent)
            else raise AssertionError
          else find_ancestry fuel parent inline_parents
      end
  end.

(** "Add an anonymous block level box before the block box." *)
Definition previous_anonymous (parent_line_box : ref) : M ref :=
  lo <- get_box parent_line_box ;;
  is_anon <-
    match o_parent lo with
    | None => ret false
    | Some q => qo <- get_box q ;; ret (is_AnonymousBlockBox (o_cls qo))
    end ;;
  match is_anon, o_parent lo with
  | true, Some q => ret q
  | _, _ =>
      previous_anonymous_box <- new_box AnonymousBlockBox (o_element lo) ;;
      parent_add_child parent_line_box previous_anonymous_box
        (i <- index parent_line_box ;; ret (Z.of_nat <$> i)) ;;;
      remove_from_parent parent_line_box ;;;
      add_child previous_anonymous_box parent_line_box None ;;;
      ret previous_anonymous_box
  end.

(** "Recreate anonymous inline boxes clones from the split inline boxes":
    the [while] loop, given the boxes in the order [pop()] returns them. *)
Fixpoint clone_chain (popped : list ref) (clone_box : ref) : M ref :=
  match popped with
  | [] => ret clone_box
  | parent :: rest =>
      po <- get_box parent ;;
      next_clone_box <- new_like po ;;
      add_child clone_box next_clone_box None ;;;
      clone_chain rest next_clone_box
  end.

(** [for child in next_children: clone_box.add_child(child)]. *)
Fixpoint add_children (clone_box : option ref) (next_children : list ref)
    : M unit :=
  match next_children with
  | [] => ret tt
  | child :: rest =>
      match clone_box with
      | None => raise AttributeError
      | Some c => add_child c child None ;;; add_children clone_box rest
      end
  end.

Definition set_children (r : ref) (lr : lref) : M unit :=
  o <- get_box r ;;
  put_box r (mkObj (o_cls o) (o_element o) (o_parent o) (Some lr) (o_text o)).

(** The second loop over [box.ancestors()]; [splitter_box] is the box the
    generator stands on. *)
Fixpoint move_tails (fuel : nat) (parent_line_box splitter_box : ref)
    (clone_box : option ref) : M unit :=
  match fuel with
  | O => out_of_fuel
  | S fuel =>
      o <- get_box splitter_box ;;
      match o_parent o with
      | None => ret tt
      | Some parent =>
          if Nat.eqb parent parent_line_box then ret tt
          else
            i <- index_plus_1 splitter_box ;;
            lr <- children_list parent ;;
            l <- get_list lr ;;
            let next_children := drop i l in
            lr' <- new_list (take i l) ;;
            set_children parent lr' ;;;
            add_children clone_box next_children ;;;
            match clone_box with
            | None => raise AttributeError
            | Some c =>
                co <- get_box c ;;
                move_tails fuel parent_line_box parent (o_parent co)
            end
      end
  end.

(** The body of [block_in_inline] below its early [return], first part:
    the ancestry, the anonymous block before and the one after.  The
    result is [inline_parents], [parent_line_box],
    [previous_anonymous_box] and [next_anonymous_box]. *)
Definition split_setup (fuel : nat) (box : ref)
    : M (list ref * ref * ref * ref) :=
  found <- find_ancestry fuel box [] ;;
  let (inline_parents, bound) := found : list ref * option ref in
  match bound with
  | None => raise UnboundLocalError
  | Some parent_line_box =>
      previous_anonymous_box <- previous_anonymous parent_line_box ;;
      lo <- get_box parent_line_box ;;
      next_anonymous_box <- new_box AnonymousBlockBox (o_element lo) ;;
      parent_add_child previous_anonymous_box next_anonymous_box
        (i <- index_plus_1 previous_anonymous_box ;;
         ret (Some (Z.of_nat i))) ;;;
      ret (inline_parents, parent_line_box, previous_anonymous_box,
           next_anonymous_box)
  end.

(** The whole body below the early [return]. *)
Definition split_inline (fuel : nat) (box : ref) : M unit :=
  setup <- split_setup fuel box ;;
  let '(inline_parents, parent_line_box, previous_anonymous_box,
        next_anonymous_box) := setup : list ref * ref * ref * ref in
  clone_box <- clone_chain (rev inline_parents) next_anonymous_box ;;
  move_tails fuel parent_line_box box (Some clone_box) ;;;
  remove_from_parent box ;;;
  parent_add_child previous_anonymous_box box
    (i <- index_plus_1 previous_anonymous_box ;;
     ret (Some (Z.of_nat i))).

(** The condition under which [block_in_inline] goes on. *)
Definition block_in_inline_applies (box : ref) : M bool :=
  o <- get_box box ;;
  match o_parent o with
  | None => ret false
  | Some q =>
      qo <- get_box q ;;
      ret (is_BlockLevelBox (o_cls o) && is_InlineBox (o_cls qo))
  end.

(** [for child_box in box.children or []] runs over the list object
    itself: the list is read again at every step, at the next position. *)
Fixpoint block_in_inline (fuel : nat) (box : ref) : M unit :=
  match fuel with
  | O => out_of_fuel
  | S fuel =>
      o <- get_box box ;;
      match o_children o with
      | None => ret tt
      | Some lr =>
          (fix loop (steps i : nat) : M unit :=
             match steps with
             | O => out_of_fuel
             | S steps =>
                 l <- get_list lr ;;
                 match l !! i with
                 | None => ret tt
                 | Some child_box =>
                     block_in_inline fuel child_box ;;; loop steps (S i)
                 end
             end) fuel 0
      end ;;;
      applies <- block_in_inline_applies box ;;
      if applies then split_inline fuel box else ret tt
  end.

(** ** Between trees and the store *)

(** The objects of a box tree, built the way [dom_to_box] builds them:
    the box first, then each child added with [add_child]. *)
Fixpoint load (b : Box) : M ref :=
  match b with
  | Text e t => new_text_box e t
  | Node c e kids =>
      r <- new_box c e ;;
      (fix go (ks : list Box) : M unit :=
         match ks with
         | [] => ret tt
         | k :: rest => kr <- load k ;; add_child r kr None ;;; go rest
         end) kids ;;;
      ret r
  end.

(** The tree below a box of the store, read along [children]. *)
Fixpoint extract (fuel : nat) (h : Heap) (r : ref) : option Box :=
  match fuel with
  | O => None
  | S fuel =>
      o ← boxes h !! r;
      match o_children o with
      | None => Some (Text (o_element o) (default [] (o_text o)))
      | Some lr =>
          l ← lists h !! lr;
          kids ← mapM (extract fuel h) l;
          Some (Node (o_cls o) (o_element o) kids)
      end
  end.

(** A tree without elements' details, to read results. *)
Inductive Shape :=
  | S_ (c : BoxClass) (kids : list Shape)
  | T_ (t : ustring).

Fixpoint shape (b : Box) : Shape :=
  match b with
  | Node c _ kids => S_ c (map shape kids)
  | Text _ t => T_ t
  end.

Definition run_block_in_inline (fuel : nat) (b : Box) : result Box :=
  match (r <- load b ;; block_in_inline fuel r ;;; ret r) empty_heap with
  | Ok (r, h) =>
      match extract fuel h r with
      | Some b' => Ok b'
      | None => OutOfFuel
      end
  | Raise e => Raise e
  | OutOfFuel => OutOfFuel
  end.

(** ** The pipeline *)

(** [dom_to_box], [process_whitespace], [inline_in_block] and
    [block_in_inline] in this order, on the root element. *)
Definition pipeline (fuel : nat) (e : Element) : result Box :=
  match dom_to_box e with
  | Ok b => run_block_in_inline fuel (inline_in_block (process_whitespace b))
  | Raise x => Raise x
  | OutOfFuel => OutOfFuel
  end.

(** ** Vocabulary of the statements *)

(** The display values [dom_to_box] is specified to know. *)
Definition recognized_display (d : string) : bool :=
  existsb (String.eqb d)
    ["none"; "block"; "list-item"; "inline"; "inline-block"].

Definition text_box_if (e : Element) (t : ustring) : list Box :=
  if truthy t then [Text e t] else [].

(** What one child element adds to the children of its parent's box: its
    own box unless its display is [none], then the text box of its tail,
    whatever its display. *)
Definition contribution (element child_element : Element)
    : result (list Box) :=
  if String.eqb (display (e_style child_element)) "none"
  then Ok (text_box_if element (e_tail child_element))
  else
    match dom_to_box child_element with
    | Ok b => Ok (b :: text_box_if element (e_tail child_element))
    | Raise x => Raise x
    | OutOfFuel => OutOfFuel
    end.

(** The same with a child of display [none] adding nothing at all. *)
Definition contribution_skipping_tail (element child_element : Element)
    : result (list Box) :=
  if String.eqb (display (e_style child_element)) "none"
  then Ok []
  else contribution element child_element.

Definition style_of (d w : string) : Style :=
  {| display := d; white_space := w |}.

(** [<p>Some <em>emphasised</em> text.</p>] with the default styles. *)
Definition em_element : Element :=
  mkElement "em" (style_of "inline" "normal") (utext "emphasised") []
    (utext " text.").

Definition p_element : Element :=
  mkElement "p" (style_of "block" "normal") (utext "Some ") [em_element] [].

Definition p_inline_content : list Box :=
  [Text p_element (utext "Some ");
   Node InlineBox em_element [Text em_element (utext "emphasised")];
   Text p_element (utext " text.")].

(** [<p>a <span style="display: none"></span> b</p>]. *)
Definition hidden_span : Element :=
  mkElement "span" (style_of "none" "normal") [] [] (utext " b").

Definition p_hidden : Element :=
  mkElement "p" (style_of "block" "normal") (utext "a ") [hidden_span] [].

(** [<td>] with [display: table-cell]. *)
Definition td_element : Element :=
  mkElement "td" (style_of "table-cell" "normal") (utext "x") [] [].

(** The loop of [dom_to_box] over the child elements, as a function of
    the children collected so far. *)
Definition dom_children_loop (element : Element) :=
  fix loop (elems : list Element) (acc : list Box) : result (list Box) :=
    match elems with
    | [] => Ok acc
    | child_element :: rest =>
        let built :=
          if negb (String.eqb (display (e_style child_element)) "none")
          then match dom_to_box child_element with
               | Ok b => Ok (acc ++ [b])
               | Raise e => Raise e
               | OutOfFuel => OutOfFuel
               end
          else Ok acc in
        match built with
        | Ok acc1 =>
            loop rest
              (if truthy (e_tail child_element)
               then acc1 ++ [Text element (e_tail child_element)]
               else acc1)
        | Raise e => Raise e
        | OutOfFuel => OutOfFuel
        end
    end.

(** The tree the simple paragraph would give if its line box were wrapped
    in an anonymous block box. *)
Definition p_wrapped_tree : Box :=
  Node BlockBox p_element
    [Node AnonymousBlockBox p_element [Node LineBox p_element p_inline_content]].

(** A zero-width space after every maximal run of non-breaking spaces,
    the run at the end of the text included. *)
Fixpoint mark_runs (l : ustring) : ustring :=
  match l with
  | [] => []
  | c :: r =>
      if (c =? NBSP)%N && negb (startswith NBSP r)
      then c :: ZWSP :: mark_runs r
      else c :: mark_runs r
  end.

(** The same, except after a run that ends the text. *)
Fixpoint mark_runs_except_last (l : ustring) : ustring :=
  match l with
  | [] => []
  | c :: r =>
      if (c =? NBSP)%N && negb (startswith NBSP r) && truthy r
      then c :: ZWSP :: mark_runs_except_last r
      else c :: mark_runs_except_last r
  end.

(** ** Reading the store *)

(** The list object that is [box.children]. *)
Definition children_ref (h : Heap) (r : ref) : option lref :=
  o ← boxes h !! r; o_children o.

(** [box.children] as a list of boxes. *)
Definition children_of (h : Heap) (r : ref) : option (list ref) :=
  lr ← children_ref h r; lists h !! lr.

(** [box.parent]. *)
Definition parent_of (h : Heap) (r : ref) : option ref :=
  o ← boxes h !! r; o_parent o.

Definition class_of (h : Heap) (r : ref) : option BoxClass :=
  o_cls <$> boxes h !! r.

Definition element_of (h : Heap) (r : ref) : option Element :=
  o_element <$> boxes h !! r.

(** No list object is the [children] of two boxes. *)
Definition no_shared_lists (h : Heap) : Prop :=
  forall q q' lr,
    children_ref h q = Some lr -> children_ref h q' = Some lr -> q = q'.

(** A store with three boxes: box 2 is a child of box 0 and box 1 has no
    children. *)
Definition two_parents_heap : Heap :=
  mkHeap
    [mkObj BlockBox p_element None (Some 0) None;
     mkObj InlineBox em_element None (Some 1) None;
     mkObj InlineBox em_element (Some 0) (Some 2) None]
    [[2]; []; []].

(** [l] is the chain of ancestors of [cur], nearest first, as far as it
    goes. *)
Fixpoint parent_chain (h : Heap) (cur : ref) (l : list ref) : Prop :=
  match l with
  | [] => True
  | q :: rest => parent_of h cur = Some q /\ parent_chain h q rest
  end.

(** [clones] are fresh copies of [originals], each the only child of the
    one before, the first a child of [parent], the last without
    children; each has the class and the element of its original. *)
Fixpoint is_clone_chain (h : Heap) (parent : ref) (originals : list BoxObj)
    (clones : list ref) : Prop :=
  match originals, clones with
  | [], [] => True
  | o :: os, c :: cs =>
      class_of h c = Some (o_cls o) /\
      element_of h c = Some (o_element o) /\
      parent_of h c = Some parent /\
      children_of h c = Some (take 1 cs) /\
      is_clone_chain h c os cs
  | _, _ => False
  end.

(** [BlockBox[LineBox[InlineBox[TextBox('a'), BlockBox[]]]]], the least
    tree on which [block_in_inline] has something to do. *)
Definition div_element : Element :=
  mkElement "div" (style_of "block" "normal") [] [] [].

Definition span_element : Element :=
  mkElement "span" (style_of "inline" "normal") (utext "a") [div_element] [].

Definition block_in_span : Box :=
  Node BlockBox p_element
    [Node LineBox p_element
       [Node InlineBox span_element
          [Text span_element (utext "a"); Node BlockBox div_element []]]].

(** The store of [block_in_span]: box 0 the outer block, 1 the line box,
    2 the inline box, 3 the text, 4 the inner block. *)
Definition block_in_span_heap : Heap :=
  match load block_in_span empty_heap with
  | Ok (_, h) => h
  | _ => empty_heap
  end.

(** No reference of the store dangles. *)
Definition heap_closed (h : Heap) : Prop :=
  (forall r o q, boxes h !! r = Some o -> o_parent o = Some q ->
                 q < length (boxes h)) /\
  (forall r o lr, boxes h !! r = Some o -> o_children o = Some lr ->
                  lr < length (lists h)).

(** [h'] has the boxes of [h], with their class, element and list of
    children; parents and the contents of lists may differ. *)
Definition extends (h h' : Heap) : Prop :=
  length (boxes h) <= length (boxes h') /\
  length (lists h) <= length (lists h') /\
  forall r o, boxes h !! r = Some o ->
    exists o', boxes h' !! r = Some o' /\ o_cls o' = o_cls o /\
               o_element o' = o_element o /\ o_children o' = o_children o.

(** A computation that only reads the store. *)
Definition read_only {A} (m : M A) : Prop :=
  forall h a h', m h = Ok (a, h') -> h' = h.

(** [heap_closed], decided. *)
Definition heap_closedb (h : Heap) : bool :=
  forallb
    (fun o =>
       match o_parent o with
       | Some q => (q <? length (boxes h))%nat
       | None => true
       end &&
       match o_children o with
       | Some lr => (lr <? length (lists h))%nat
       | None => true
       end)
    (boxes h).

(** What [block_in_inline] has rebuilt below [next_anonymous_box] when its
    [while] loop ends, before any child is moved: the classes of the boxes
    below the anonymous block. *)
Definition rebuilt_after_block (fuel : nat) (box : ref) (h : Heap)
    : option Shape :=
  match
    (setup <- split_setup fuel box ;;
     let '(inline_parents, _, _, next_anonymous_box) :=
       setup : list ref * ref * ref * ref in
     clone_chain (rev inline_parents) next_anonymous_box ;;;
     ret next_anonymous_box) h
  with
  | Ok (next_anonymous_box, h') => shape <$> extract fuel h' next_anonymous_box
  | _ => None
  end.

(** The [InlineBox] ancestors of a box up to the first ancestor that is
    not one. *)
Fixpoint inline_ancestors (fuel : nat) (h : Heap) (box : ref) : list ref :=
  match fuel with
  | O => []
  | S fuel =>
      match parent_of h box with
      | Some q =>
          match class_of h q with
          | Some c =>
              if is_InlineBox c then q :: inline_ancestors fuel h q else []
          | None => []
          end
      | None => []
      end
  end.

(** The store after the first part of [block_in_inline] on the inner
    block (box 4) of [block_in_span_heap]: box 5 is the anonymous block
    before, box 6 the one after. *)
Definition block_in_span_setup_heap : Heap :=
  match split_setup 5 4 block_in_span_heap with
  | Ok (_, h) => h
  | _ => empty_heap
  end.

Definition result_box {A} (r : result A) : option A :=
  match r with Ok a => Some a | _ => None end.

(** ** Vocabulary of the further properties *)

(** The elements [dom_to_box] can build: a supported display, and every
    child either of display [none] (skipped) or buildable. *)
Fixpoint buildable (e : Element) : bool :=
  match e with
  | mkElement _ s _ cs _ =>
      (in2 (display s) "block" "list-item"
       || String.eqb (display s) "inline"
       || String.eqb (display s) "inline-block")
      && forallb
           (fun ch =>
              String.eqb (display (e_style ch)) "none" || buildable ch)
           cs
  end.

(** The three ways [dom_to_box] ends: the assertion on a root of display
    [none], a box, or the error of the first unsupported display met. *)
Definition dom_to_box_outcome (e : Element) : Prop :=
  if String.eqb (display (e_style e)) "none"
  then dom_to_box e = Raise AssertionError
  else if buildable e
  then exists b, dom_to_box e = Ok b
  else exists d,
         dom_to_box e =
           Raise (NotImplementedError ("Unsupported display: " ++ d)) /\
         recognized_display d = false.

(** The first character of [l] satisfies [p]. *)
Definition head_is (p : uchar -> bool) (l : ustring) : bool :=
  match l with
  | c :: _ => p c
  | [] => false
  end.

Definition is_char (c : uchar) : uchar -> bool := fun d => (d =? c)%N.

(** No newline has a tab, carriage return or space next to it. *)
Fixpoint nl_stable (l : ustring) : bool :=
  match l with
  | [] => true
  | a :: r =>
      negb (is_hspace a && head_is (is_char LF) r)
      && negb (is_char LF a && head_is is_hspace r)
      && nl_stable r
  end.

(** No two spaces follow each other. *)
Fixpoint single_spaces (l : ustring) : bool :=
  match l with
  | [] => true
  | a :: r =>
      negb (is_char SPACE a && head_is (is_char SPACE) r) && single_spaces r
  end.

(** The character [c] does not occur. *)
Definition no_char (c : uchar) (l : ustring) : bool :=
  forallb (fun d => negb (d =? c)%N) l.

(** The modes under which [process_whitespace] collapses spaces. *)
Definition collapsing (handling : string) : bool :=
  in2 handling "normal" "nowrap" || String.eqb handling "pre-line".

(** The loop of [process_whitespace] over the children of a box. *)
Definition process_children :=
  fix go (following : bool) (ks : list Box) : list Box * bool :=
    match ks with
    | [] => ([], following)
    | k :: r =>
        let (k', f1) := process_whitespace_from following k in
        let (r', f2) := go f1 r in
        (k' :: r', f2)
    end.

(** The text boxes below a box in the order of [descendants()], each with
    its white-space mode and its text. *)
Fixpoint text_runs (b : Box) : list (string * ustring) :=
  match b with
  | Text _ t => [(white_space (box_style b), t)]
  | Node _ _ kids => concat (map text_runs kids)
  end.

(** A text box a second run of [process_whitespace] treats as the first
    did: not [pre-wrap], and with some text. *)
Definition rerun_safe (r : string * ustring) : Prop :=
  fst r <> "pre-wrap" /\ snd r <> [].

(** A box tree with every text emptied: what is left is the boxes, their
    classes, elements and order. *)
Fixpoint erase_text (b : Box) : Box :=
  match b with
  | Text e _ => Text e []
  | Node c e kids => Node c e (map erase_text kids)
  end.

Definition is_block_level (b : Box) : bool := is_BlockLevelBox (box_class b).

(** The boxes of a tree without the anonymous wrappers ([LineBox] and
    [AnonymousBlockBox]): the children of a wrapper take its place. *)
Fixpoint unwrap (b : Box) : list Box :=
  match b with
  | Text _ _ => [b]
  | Node c e kids =>
      let ks := flat_map unwrap kids in
      if is_LineBox c || is_AnonymousBlockBox c then ks else [Node c e ks]
  end.

(** The children of a block container are all block-level, or are one
    line box. *)
Definition container_children_ok (kids : list Box) : bool :=
  forallb is_block_level kids
  || match kids with
     | [k] => is_LineBox (box_class k)
     | _ => false
     end.

(** Every block container has such children and no line box has a
    block-level child. *)
Fixpoint well_nested (b : Box) : bool :=
  match b with
  | Text _ _ => true
  | Node c _ kids =>
      (if is_BlockContainerBox c then container_children_ok kids else true)
      && (if is_LineBox c then forallb (fun k => negb (is_block_level k)) kids
          else true)
      && forallb well_nested kids
  end.

(** No line box has a block-level child. *)
Fixpoint lines_ok (b : Box) : bool :=
  match b with
  | Text _ _ => true
  | Node c _ kids =>
      (if is_LineBox c then forallb (fun k => negb (is_block_level k)) kids
       else true)
      && forallb lines_ok kids
  end.

(** What holds of the state of the loop of [inline_in_block]: the new
    children are block-level, the boxes of the line box are not, and all
    are well nested. *)
Definition step_inv (st : list Box * list Box) : bool :=
  forallb is_block_level (fst st) && forallb well_nested (fst st)
  && forallb (fun k => negb (is_block_level k)) (snd st)
  && forallb well_nested (snd st).

(** A tree as [dom_to_box] builds them: block, inline and inline-block
    boxes only, and text boxes with some text. *)
Fixpoint element_boxes_only (b : Box) : bool :=
  match b with
  | Text _ t => truthy t
  | Node c _ kids =>
      match c with
      | BlockBox | InlineBox | InlineBlockBox => forallb element_boxes_only kids
      | _ => false
      end
  end.

(** [box.descendants()]: the box, then the descendants of each child. *)
Fixpoint descendants (b : Box) : list Box :=
  match b with
  | Text _ _ => [b]
  | Node _ _ kids => b :: flat_map descendants kids
  end.

(** The mode and text of a box that has a [text] attribute. *)
Definition text_run (b : Box) : list (string * ustring) :=
  match b with
  | Text _ t => [(white_space (box_style b), t)]
  | Node _ _ _ => []
  end.

(** [process_whitespace] on the sequence of text boxes alone: the flag
    goes from one box to the next; a box without text is passed over. *)
Fixpoint scan_runs (following : bool) (rs : list (string * ustring))
    : list (string * ustring) * bool :=
  match rs with
  | [] => ([], following)
  | (handling, t) :: rest =>
      if truthy t then
        let (t', f1) := normalize_text handling following t in
        let (rest', f2) := scan_runs f1 rest in
        ((handling, t') :: rest', f2)
      else
        let (rest', f2) := scan_runs following rest in
        ((handling, t) :: rest', f2)
  end.

(** Where [list.insert(index, x)] puts [x] in a list of length [n]. *)
Definition insert_position (index : option Z) (n : nat) : nat :=
  match index with
  | None => n
  | Some i =>
      Z.to_nat (if (i <? 0)%Z then Z.max 0 (Z.of_nat n + i)
                else Z.min i (Z.of_nat n))
  end.

(** [for child_box in box.children or []: visit(child_box)], the list
    read again at every step. *)
Definition for_each_live (visit : ref -> M unit) (lr : lref) :=
  fix loop (steps i : nat) : M unit :=
    match steps with
    | O => out_of_fuel
    | S steps =>
        l <- get_list lr ;;
        match l !! i with
        | None => ret tt
        | Some child_box => visit child_box ;;; loop steps (S i)
        end
    end.

(** No box of the store is a block-level box whose parent is an inline
    box: [block_in_inline] has nothing to split. *)
Definition nothing_to_split (h : Heap) : Prop :=
  forall r o q qo,
    boxes h !! r = Some o -> o_parent o = Some q -> boxes h !! q = Some qo ->
    is_BlockLevelBox (o_cls o) && is_InlineBox (o_cls qo) = false.

(** [nothing_to_split], decided. *)
Definition nothing_to_splitb (h : Heap) : bool :=
  forallb
    (fun o =>
       match o_parent o with
       | Some q =>
           match boxes h !! q with
           | Some qo =>
               negb (is_BlockLevelBox (o_cls o) && is_InlineBox (o_cls qo))
           | None => true
           end
       | None => true
       end)
    (boxes h).

(** The store is left as it is, unless fuel runs out or a reference
    dangles. *)
Definition idle {A} (h : Heap) (a : A) (res : result (A * Heap)) : Prop :=
  res = Ok (a, h) \/ res = OutOfFuel \/ res = Raise DanglingReference.

(** The store of the simple paragraph after [inline_in_block]. *)
Definition paragraph_heap : Heap :=
  match
    load (Node BlockBox p_element [Node LineBox p_element p_inline_content])
      empty_heap
  with
  | Ok (_, h) => h
  | _ => empty_heap
  end.

(** The texts of an element in document order, each with the white-space
    mode of the element it is the text of, or the tail of a child of: the
    element's text, then for each child its own texts (none for a child of
    display [none]) and its tail. *)
Fixpoint document_runs (e : Element) : list (string * ustring) :=
  match e with
  | mkElement _ s t cs _ =>
      (if truthy t then [(white_space s, t)] else [])
      ++ flat_map
           (fun ch =>
              (if String.eqb (display (e_style ch)) "none" then []
               else document_runs ch)
              ++ (if truthy (e_tail ch) then [(white_space s, e_tail ch)]
                  else []))
           cs
  end.

(** Inline-level and not a line box: what [inline_in_block] puts into the
    line box. *)
Definition goes_in_line (b : Box) : bool :=
  negb (is_block_level b) && negb (is_LineBox (box_class b)).

(** ** Well-formed stores *)

(** No dangling reference and no list that is the [children] of two
    boxes. *)
Definition sane (h : Heap) : Prop := heap_closed h /\ no_shared_lists h.

(** A box listed among the children of another has it as parent. *)
Definition children_know_parent (h : Heap) : Prop :=
  forall q l x, children_of h q = Some l -> In x l -> parent_of h x = Some q.

(** No box is listed twice among the children of a box. *)
Definition children_once (h : Heap) : Prop :=
  forall q l, children_of h q = Some l -> NoDup l.

(** The boxes form a forest: the lists of children and the parent links
    agree. *)
Definition forest (h : Heap) : Prop :=
  sane h /\ children_know_parent h /\ children_once h.

(** The box [x] is among the children of no box. *)
Definition orphan (h : Heap) (x : ref) : Prop :=
  forall q l, children_of h q = Some l -> ~ In x l.

(** [h'] has the same boxes as [h], with their classes and elements. *)
Definition same_boxes (h h' : Heap) : Prop :=
  length (boxes h') = length (boxes h) /\
  (forall x, class_of h' x = class_of h x) /\
  (forall x, element_of h' x = element_of h x).

(** The list [add_child] leaves. *)
Definition inserted (index : option Z) (child : ref) (l : list ref)
    : list ref :=
  match index with
  | None => l ++ [child]
  | Some i => py_insert i child l
  end.

(** The box [x] of the store is block-level. *)
Definition block_level_at (h : Heap) (x : ref) : Prop :=
  exists c, class_of h x = Some c /\ is_BlockLevelBox c = true.

(** A list of children with block-level boxes only, or with one line
    box. *)
Definition ok_children (h : Heap) (l : list ref) : Prop :=
  Forall (block_level_at h) l \/
  exists x, l = [x] /\ class_of h x = Some LineBox.

(** Every block container of the store has such children. *)
Definition unmixed (h : Heap) : Prop :=
  forall q c l,
    class_of h q = Some c -> is_BlockContainerBox c = true ->
    children_of h q = Some l -> ok_children h l.

(** The boxes of [h] are boxes of [h'], of the same class. *)
Definition grows (h h' : Heap) : Prop :=
  forall x c, class_of h x = Some c -> class_of h' x = Some c.

Definition good (h : Heap) : Prop := forest h /\ unmixed h.

(** The box [x] is no block container. *)
Definition not_container_at (h : Heap) (x : ref) : Prop :=
  exists c, class_of h x = Some c /\ is_BlockContainerBox c = false.

(** From [clone], [n] boxes up the chain of parents are no block
    containers, and each has a parent that is not among the first [n0]
    boxes of the store. *)
Fixpoint clones_for (h : Heap) (n0 n : nat) (clone : option ref) : Prop :=
  match n with
  | O => True
  | S n =>
      exists c c',
        clone = Some c /\ not_container_at h c /\
        parent_of h c = Some c' /\ n0 <= c' /\
        clones_for h n0 n (Some c')
  end.

(** The loop of [load] over the children of the box [r]. *)
Definition load_children (load : Box -> M ref) (r : ref) :=
  fix go (ks : list Box) : M unit :=
    match ks with
    | [] => ret tt
    | k :: rest => kr <- load k ;; add_child r kr None ;;; go rest
    end.

(** In the tree, the children of every block container are all
    block-level or are one line box. *)
Fixpoint containers_ok (b : Box) : bool :=
  match b with
  | Text _ _ => true
  | Node c _ kids =>
      (if is_BlockContainerBox c then container_children_ok kids else true)
      && forallb containers_ok kids
  end.

(** Only text boxes are without a list of children. *)
Definition leafy (h : Heap) : Prop :=
  forall r o, boxes h !! r = Some o -> o_children o = None ->
              o_cls o = TextBox.

(** A computation that keeps [leafy]. *)
Definition keeps_leafy {A} (m : M A) : Prop :=
  forall h a h', m h = Ok (a, h') -> leafy h -> leafy h'.

(** What [load b] does to the store [h]: the new box [r] is the root of
    the loaded tree, without parent, and the boxes of [h] keep their
    parent and their children. *)
Definition loaded (b : Box) (h : Heap) (r : ref) (h' : Heap) : Prop :=
  good h' /\ grows h h' /\ r = length (boxes h) /\
  length (boxes h) < length (boxes h') /\
  class_of h' r = Some (box_class b) /\ parent_of h' r = None /\
  forall x, x < length (boxes h) ->
    parent_of h' x = parent_of h x /\ children_of h' x = children_of h x.

(** [<p><span>a<div></div></span></p>]: a block inside an inline inside a
    block. *)
Definition p_span_div : Element :=
  mkElement "p" (style_of "block" "normal") [] [span_element] [].

(** [h'] still has every box of [h], with its class, its element and its
    text; the boxes it has more are no text boxes and have no text. *)
Definition links_only (h h' : Heap) : Prop :=
  (forall r o, boxes h !! r = Some o ->
     exists o', boxes h' !! r = Some o' /\ o_cls o' = o_cls o /\
                o_element o' = o_element o /\ o_text o' = o_text o) /\
  (forall r o', length (boxes h) <= r -> boxes h' !! r = Some o' ->
     o_cls o' <> TextBox /\ o_text o' = None).

(** A computation that changes no more than that. *)
Definition changes_links_only {A} (m : M A) : Prop :=
  forall h a h', m h = Ok (a, h') -> links_only h h'.

(** * Properties *)

(** ** [dom_to_box] *)

Lemma recognized_display_false (d : string) :
  recognized_display d = false ->
  String.eqb d "none" = false /\ in2 d "block" "list-item" = false /\
  String.eqb d "inline" = false /\ String.eqb d "inline-block" = false.
Proof.
  unfold recognized_display, in2. simpl.
  repeat (destruct (String.eqb d _); simpl; try discriminate).
  auto.
Qed.

(** C7: an element whose display is none of [none], [block], [list-item],
    [inline], [inline-block] makes [dom_to_box] raise
    [NotImplementedError('Unsupported display: ' + display)]; no box is
    returned and no default class is chosen. *)
Theorem dom_to_box_unsupported_display (e : Element) :
  recognized_display (display (e_style e)) = false ->
  dom_to_box e =
    Raise (NotImplementedError ("Unsupported display: " ++ display (e_style e))).
Proof.
  intros H. apply recognized_display_false in H.
  destruct H as (Hn & Hb & Hi & Hib).
  destruct e as [tg s t cs tl]. simpl in *.
  rewrite Hn, Hb, Hi, Hib. reflexivity.
Qed.

Lemma dom_to_box_unsupported_display_witness :
  recognized_display (display (e_style td_element)) = false /\
  dom_to_box td_element =
    Raise (NotImplementedError "Unsupported display: table-cell").
Proof.
  split; [reflexivity |].
  apply (dom_to_box_unsupported_display td_element). reflexivity.
Defined.

Lemma dom_to_box_unfold (element : Element) (box : Box) :
  dom_to_box element = Ok box ->
  exists c kids,
    box = Node c element kids /\
    dom_children_loop element (e_children element)
      (text_box_if element (e_text element)) = Ok kids.
Proof.
  destruct element as [tg s t cs tl]. simpl.
  destruct (String.eqb (display s) "none"); [discriminate |].
  destruct (in2 (display s) "block" "list-item").
  - match goal with |- context [match ?l with Ok _ => _ | Raise _ => _ | OutOfFuel => _ end] =>
      destruct l eqn:E end; try discriminate.
    intros [= <-]. eauto.
  - destruct (String.eqb (display s) "inline").
    + match goal with |- context [match ?l with Ok _ => _ | Raise _ => _ | OutOfFuel => _ end] =>
        destruct l eqn:E end; try discriminate.
      intros [= <-]. eauto.
    + destruct (String.eqb (display s) "inline-block"); [| discriminate].
      match goal with |- context [match ?l with Ok _ => _ | Raise _ => _ | OutOfFuel => _ end] =>
        destruct l eqn:E end; try discriminate.
      intros [= <-]. eauto.
Qed.

Lemma dom_children_loop_parts (element : Element) (elems : list Element) :
  forall acc kids,
    dom_children_loop element elems acc = Ok kids ->
    exists parts,
      Forall2 (fun ch part => contribution element ch = Ok part) elems parts /\
      kids = acc ++ concat parts.
Proof.
  induction elems as [| ch rest IH]; intros acc kids H; simpl in H.
  - injection H as <-. exists []. split; [constructor |].
    simpl. now rewrite app_nil_r.
  - unfold contribution at 1.
    destruct (String.eqb (display (e_style ch)) "none") eqn:Hd; simpl in H.
    + apply IH in H as (parts & HF & ->).
      exists (text_box_if element (e_tail ch) :: parts). split.
      * constructor; [| exact HF]. unfold contribution. now rewrite Hd.
      * simpl. unfold text_box_if. destruct (truthy (e_tail ch));
          now rewrite <- ?app_assoc.
    + destruct (dom_to_box ch) as [b | |] eqn:Hb; try discriminate.
      apply IH in H as (parts & HF & ->).
      exists ((b :: text_box_if element (e_tail ch)) :: parts). split.
      * constructor; [| exact HF]. unfold contribution. now rewrite Hd, Hb.
      * simpl. unfold text_box_if. destruct (truthy (e_tail ch));
          simpl; now rewrite <- ?app_assoc.
Qed.

Lemma dom_to_box_children_parts (element : Element) (box : Box) :
  dom_to_box element = Ok box ->
  exists parts,
    Forall2 (fun ch part => contribution element ch = Ok part)
      (e_children element) parts /\
    box_children box = text_box_if element (e_text element) ++ concat parts.
Proof.
  intros H. apply dom_to_box_unfold in H as (c & kids & -> & Hl).
  apply dom_children_loop_parts in Hl as (parts & HF & ->).
  exists parts. split; [exact HF | reflexivity].
Qed.

(** C6 (amended): the children of the box [dom_to_box] builds are the text
    box of the element's text followed by the contributions of the child
    elements in document order: the child's box unless its display is
    [none], then, for every child, the text box of its tail text. *)
Theorem dom_to_box_children (element : Element) (box : Box) :
  dom_to_box element = Ok box ->
  exists parts,
    Forall2 (fun ch part => contribution element ch = Ok part)
      (e_children element) parts /\
    box_children box = text_box_if element (e_text element) ++ concat parts.
Proof. exact (dom_to_box_children_parts element box). Qed.

Lemma dom_to_box_children_witness :
  dom_to_box p_hidden =
    Ok (Node BlockBox p_hidden
          [Text p_hidden (utext "a "); Text p_hidden (utext " b")]) /\
  exists parts,
    Forall2 (fun ch part => contribution p_hidden ch = Ok part)
      (e_children p_hidden) parts /\
    box_children
      (Node BlockBox p_hidden
         [Text p_hidden (utext "a "); Text p_hidden (utext " b")]) =
    text_box_if p_hidden (e_text p_hidden) ++ concat parts.
Proof.
  split; [reflexivity |].
  apply (dom_to_box_children p_hidden). reflexivity.
Defined.

(** C6 as stated fails: the child [span] of [p_hidden] has display [none]
    and a tail; it adds no box but it does add the text box of its tail,
    so the children are not those obtained when such a child adds
    nothing. *)
Lemma dom_to_box_hidden_child_keeps_tail :
  display (e_style hidden_span) = "none" /\
  dom_to_box p_hidden =
    Ok (Node BlockBox p_hidden
          [Text p_hidden (utext "a "); Text p_hidden (utext " b")]) /\
  contribution_skipping_tail p_hidden hidden_span = Ok [] /\
  ~ (forall element box,
       dom_to_box element = Ok box ->
       exists parts,
         Forall2 (fun ch part =>
                    contribution_skipping_tail element ch = Ok part)
           (e_children element) parts /\
         box_children box =
           text_box_if element (e_text element) ++ concat parts).
Proof.
  repeat split; try reflexivity.
  intros H. destruct (H p_hidden _ eq_refl) as (parts & HF & Hc).
  inversion HF as [| ? ? ? ? H1 H2]; subst.
  inversion H2; subst.
  compute in H1. injection H1 as <-. discriminate Hc.
Qed.

Lemma contribution_boxes (element ch : Element) (part : list Box) :
  contribution element ch = Ok part ->
  (truthy (e_tail ch) = true -> In (Text element (e_tail ch)) part) /\
  (forall e' t, In (Text e' t) part -> e' = element).
Proof.
  unfold contribution, text_box_if.
  destruct (String.eqb (display (e_style ch)) "none").
  - intros [= <-]. split.
    + intros ->. now left.
    + intros e' t. destruct (truthy (e_tail ch)); simpl; [| tauto].
      intros [[= <- <-] | []]. reflexivity.
  - destruct (dom_to_box ch) as [b | |] eqn:Hb; try discriminate.
    intros [= <-]. apply dom_to_box_unfold in Hb as (c & kids & -> & _).
    split.
    + intros ->. right. now left.
    + intros e' t [H | H]; [discriminate |].
      destruct (truthy (e_tail ch)); simpl in H; [| tauto].
      destruct H as [[= <- <-] | []]. reflexivity.
Qed.

(** C10 (amended): in the box [dom_to_box] builds for an element, the
    text box of a child's tail text is
    [TextBox(element, child_element.tail)]: it references the element
    being built, as every text box directly among the children does; the
    white-space mode [process_whitespace] uses for it is the element's,
    whatever the child's style.  Its style is not the element's style
    itself but the style of an anonymous box of the element: the
    inherited values, [white-space] among them, are the element's, and
    [display] has its initial value [inline]. *)
Theorem tail_text_box_references_parent (element : Element) (box : Box) :
  dom_to_box element = Ok box ->
  (forall child,
      In child (e_children element) -> truthy (e_tail child) = true ->
      In (Text element (e_tail child)) (box_children box)) /\
  (forall e' t, In (Text e' t) (box_children box) -> e' = element) /\
  (forall t following,
      truthy t = true ->
      process_whitespace_from following (Text element t) =
      (Text element
         (fst (normalize_text (white_space (e_style element)) following t)),
       snd (normalize_text (white_space (e_style element)) following t))) /\
  (forall t,
      box_style (Text element t) = anonymous_style (e_style element) /\
      white_space (box_style (Text element t)) =
        white_space (e_style element) /\
      display (box_style (Text element t)) = "inline").
Proof.
  intros H. apply dom_to_box_children_parts in H as (parts & HF & ->).
  split; [| split; [| split]].
  - intros child Hin Ht. apply in_or_app. right.
    induction HF as [| ch part chs parts' Hc HF IH]; [destruct Hin |].
    simpl. apply in_or_app. destruct Hin as [-> | Hin].
    + left. now apply (contribution_boxes _ _ _ Hc).
    + right. now apply IH.
  - intros e' t Hin. apply in_app_or in Hin as [Hin | Hin].
    + unfold text_box_if in Hin.
      destruct (truthy (e_text element)); simpl in Hin; [| tauto].
      destruct Hin as [[= <- <-] | []]. reflexivity.
    + induction HF as [| ch part chs parts' Hc HF IH]; [destruct Hin |].
      simpl in Hin. apply in_app_or in Hin as [Hin | Hin].
      * now apply (contribution_boxes _ _ _ Hc) in Hin.
      * now apply IH.
  - intros t following Ht. simpl. rewrite Ht.
    unfold box_style, init_style. simpl.
    now destruct (normalize_text _ _ _).
  - intros t. repeat split.
Qed.

Lemma tail_text_box_references_parent_witness :
  In (Text p_element (utext " text.")) p_inline_content /\
  process_whitespace_from true (Text p_element (utext " text.")) =
    (Text p_element (utext "text."), false) /\
  box_style (Text p_element (utext " text.")) =
    style_of "inline" "normal".
Proof.
  destruct (tail_text_box_references_parent p_element
              (Node BlockBox p_element p_inline_content) eq_refl)
    as (H1 & _ & H3 & H4).
  split; [| split].
  - apply (H1 em_element); [now left | reflexivity].
  - rewrite (H3 (utext " text.") true eq_refl). reflexivity.
  - rewrite (proj1 (H4 (utext " text."))). reflexivity.
Defined.

(** C10 as stated, at [<p>Some <em>emphasised</em> text.</p>]: the text
    box of the tail [" text."] references [p], and its white-space mode
    is that of [p], but its style is not the style of [p]: [display] is
    [inline] on the text box and [block] on [p]. *)
Lemma tail_text_box_style_not_parents :
  dom_to_box p_element = Ok (Node BlockBox p_element p_inline_content) /\
  In (Text p_element (utext " text.")) p_inline_content /\
  display (box_style (Text p_element (utext " text."))) = "inline" /\
  display (e_style p_element) = "block" /\
  box_style (Text p_element (utext " text.")) <> e_style p_element.
Proof.
  split; [reflexivity |]. split; [right; right; now left |].
  split; [reflexivity |]. split; [reflexivity |].
  intros H. apply (f_equal display) in H. discriminate H.
Qed.

(** ** The simple paragraph *)

Lemma paragraph_pipeline_eval :
  pipeline 8 p_element =
    Ok (Node BlockBox p_element [Node LineBox p_element p_inline_content]).
Proof. vm_compute. reflexivity. Qed.

(** C2 (amended): for [<p>Some <em>emphasised</em> text.</p>] with [p] a
    block and [em] inline, the pipeline yields a [BlockBox] whose only
    child is a [LineBox] (not wrapped in an [AnonymousBlockBox], as the
    block has only inline-level children) with the three children
    [TextBox('Some ')], [InlineBox[TextBox('emphasised')]] and
    [TextBox(' text.')]. *)
Theorem paragraph_pipeline :
  pipeline 8 p_element =
    Ok (Node BlockBox p_element [Node LineBox p_element p_inline_content]).
Proof. exact paragraph_pipeline_eval. Qed.

(** C2 as stated fails: the tree is not the one with an
    [AnonymousBlockBox] between the block box and the line box; the
    block box's only child is the line box itself. *)
Lemma paragraph_line_box_not_wrapped :
  pipeline 8 p_element <> Ok p_wrapped_tree /\
  (forall b, pipeline 8 p_element = Ok b ->
             map box_class (box_children b) = [LineBox]).
Proof.
  rewrite paragraph_pipeline_eval. split.
  - discriminate.
  - intros b [= <-]. reflexivity.
Qed.

(** ** [process_whitespace] *)



(** Skipping the characters of a match is resuming after it. *)
Lemma re_sub_from_drop (m : matcher) (k : nat) (l : ustring) :
  re_sub_from m k l = re_sub m (drop k l).
Proof.
  revert k. induction l as [| c r IH]; intros [| k]; try reflexivity.
  simpl. apply IH.
Qed.

(** The equation of [re.sub]: at a match, the replacement and the rest
    after the match; otherwise one character and the rest. *)
Lemma re_sub_cons (m : matcher) (c : uchar) (r : ustring) :
  re_sub m (c :: r) =
    match m (c :: r) with
    | Some (n, repl) => repl ++ re_sub m (drop (pred n) r)
    | None => c :: re_sub m r
    end.
Proof.
  unfold re_sub at 1. simpl.
  destruct (m (c :: r)) as [[n repl] |]; [| reflexivity].
  now rewrite re_sub_from_drop.
Qed.

Lemma mark_runs_cons (c : uchar) (r : ustring) :
  mark_runs (c :: r) =
    if (c =? NBSP)%N && negb (startswith NBSP r)
    then c :: ZWSP :: mark_runs r
    else c :: mark_runs r.
Proof. reflexivity. Qed.

Lemma m_nbsp_cons (c : uchar) (r : ustring) :
  m_nbsp (c :: r) =
    if (c =? NBSP)%N then
      match r with
      | d :: _ => if (d =? NBSP)%N then None else Some (2, [NBSP; ZWSP; d])
      | [] => Some (1, [NBSP; ZWSP])
      end
    else None.
Proof. reflexivity. Qed.

Lemma re_sub_nbsp_mark_runs_le (n : nat) :
  forall l, length l <= n -> re_sub m_nbsp l = mark_runs l.
Proof.
  induction n as [| n IH]; intros l Hl.
  - destruct l; [reflexivity | simpl in Hl; lia].
  - destruct l as [| c r]; [reflexivity |].
    rewrite re_sub_cons, mark_runs_cons, m_nbsp_cons.
    destruct (c =? NBSP)%N eqn:Hc.
    + apply N.eqb_eq in Hc. subst c.
      destruct r as [| d r']; [reflexivity |].
      unfold startswith. destruct (d =? NBSP)%N eqn:Hd; cbn [andb negb].
      * f_equal. apply IH. simpl in *. lia.
      * rewrite (mark_runs_cons d), Hd. cbn [andb app pred drop].
        do 3 f_equal. apply IH. simpl in *. lia.
    + cbn [andb]. f_equal. apply IH. simpl in *. lia.
Qed.

Lemma re_sub_nbsp_mark_runs (l : ustring) : re_sub m_nbsp l = mark_runs l.
Proof. now apply (re_sub_nbsp_mark_runs_le (length l)). Qed.

Lemma mark_runs_head (l : ustring) : mark_runs l !! 0 = l !! 0.
Proof.
  destruct l as [| c r]; [reflexivity |]. rewrite mark_runs_cons.
  now destruct ((c =? NBSP)%N && negb (startswith NBSP r)).
Qed.

Lemma mark_runs_followed (l : ustring) (i : nat) :
  mark_runs l !! i = Some NBSP ->
  mark_runs l !! S i = Some NBSP \/ mark_runs l !! S i = Some ZWSP.
Proof.
  revert i. induction l as [| c r IH]; intros i; [discriminate |].
  rewrite mark_runs_cons.
  destruct ((c =? NBSP)%N && negb (startswith NBSP r)) eqn:Ht.
  - destruct i as [| [| i]]; cbn [lookup list_lookup].
    + now right.
    + discriminate.
    + apply IH.
  - destruct i as [| i]; cbn [lookup list_lookup].
    + intros [= ->]. left. rewrite mark_runs_head.
      destruct r as [| d r']; [discriminate |].
      simpl in Ht. destruct (d =? NBSP)%N eqn:Hd; [| discriminate].
      apply N.eqb_eq in Hd. now subst d.
    + apply IH.
Qed.

(** C5 (amended): under [pre-wrap], once every space is a non-breaking
    space, a zero-width space is inserted immediately after every maximal
    run of non-breaking spaces, also after a run that ends the text: in
    the result every non-breaking space is followed by another one or by
    the marker, never by the end of the text. *)
Theorem pre_wrap_break_markers (text : ustring) (following : bool) :
  normalize_text "pre-wrap" following text =
    (mark_runs (replace_char SPACE NBSP (re_sub m_newline text)), false) /\
  (forall i,
      fst (normalize_text "pre-wrap" following text) !! i = Some NBSP ->
      fst (normalize_text "pre-wrap" following text) !! S i = Some NBSP \/
      fst (normalize_text "pre-wrap" following text) !! S i = Some ZWSP).
Proof.
  assert (E : normalize_text "pre-wrap" following text =
    (mark_runs (replace_char SPACE NBSP (re_sub m_newline text)), false)).
  { unfold normalize_text. simpl. now rewrite re_sub_nbsp_mark_runs. }
  split; [exact E |].
  rewrite E. simpl. intros i. apply mark_runs_followed.
Qed.

(** C5 as stated fails: in ["a "] the run of non-breaking spaces ends the
    text and the marker is inserted after it all the same. *)
Lemma pre_wrap_marker_at_end_of_text :
  normalize_text "pre-wrap" false (utext "a ") =
    ([97%N; NBSP; ZWSP], false) /\
  mark_runs_except_last
    (replace_char SPACE NBSP (re_sub m_newline (utext "a "))) =
    [97%N; NBSP] /\
  fst (normalize_text "pre-wrap" false (utext "a ")) <>
  mark_runs_except_last
    (replace_char SPACE NBSP (re_sub m_newline (utext "a "))).
Proof. repeat split; try reflexivity. discriminate. Qed.

(** ** [Box.add_child] *)

Ltac inv_bind H :=
  repeat match type of H with
  | bind _ _ _ = Ok _ => unfold bind at 1 in H
  | match ?m ?h with Ok _ => _ | Raise _ => _ | OutOfFuel => _ end = Ok _ =>
      let E := fresh "E" in
      destruct (m h) as [[? ?] | |] eqn:E; [| discriminate H | discriminate H]
  end.

Lemma get_box_ok r h o h' :
  get_box r h = Ok (o, h') -> h' = h /\ boxes h !! r = Some o.
Proof.
  unfold get_box. destruct (boxes h !! r); [| discriminate].
  now intros [= -> ->].
Qed.

Lemma get_list_ok lr h l h' :
  get_list lr h = Ok (l, h') -> h' = h /\ lists h !! lr = Some l.
Proof.
  unfold get_list. destruct (lists h !! lr); [| discriminate].
  now intros [= -> ->].
Qed.

Lemma children_list_ok r h lr h' :
  children_list r h = Ok (lr, h') -> h' = h /\ children_ref h r = Some lr.
Proof.
  unfold children_list, bind, children_ref. intros H.
  destruct (get_box r h) as [[o h1] | |] eqn:E; try discriminate.
  apply get_box_ok in E as [-> E]. rewrite E. simpl.
  destruct (o_children o); [| discriminate].
  now injection H as -> ->.
Qed.

(** What [add_child] does to the store. *)
Lemma add_child_ok self child index h u h' :
  add_child self child index h = Ok (u, h') ->
  exists c lr l,
    boxes h !! child = Some c /\
    children_ref h self = Some lr /\
    lists h !! lr = Some l /\
    h' = mkHeap
           (<[child := mkObj (o_cls c) (o_element c) (Some self)
                         (o_children c) (o_text c)]> (boxes h))
           (<[lr := match index with
                    | None => l ++ [child]
                    | Some i => py_insert i child l
                    end]> (lists h)).
Proof.
  unfold add_child, bind. intros H.
  destruct (get_box child h) as [[c h1] | |] eqn:E1; try discriminate.
  apply get_box_ok in E1 as [-> E1]. unfold put_box at 1 in H.
  match type of H with context [children_list self ?hh] =>
    destruct (children_list self hh) as [[lr h2] | |] eqn:E2 end;
    try discriminate.
  apply children_list_ok in E2 as [-> E2].
  match type of H with context [get_list lr ?hh] =>
    destruct (get_list lr hh) as [[l h3] | |] eqn:E3 end;
    try discriminate.
  apply get_list_ok in E3 as [-> E3]. simpl in E3.
  exists c, lr, l. split; [exact E1 |]. split; [| split; [exact E3 |]].
  - unfold children_ref in *. simpl in E2.
    destruct (decide (self = child)) as [-> | Hne].
    + rewrite list_lookup_insert_eq in E2 by (now apply lookup_lt_Some in E1).
      rewrite E1. exact E2.
    + now rewrite list_lookup_insert_ne in E2 by auto.
  - destruct index; unfold put_list in H; now injection H as _ <-.
Qed.

Lemma children_ref_insert_parent h r c p q :
  boxes h !! r = Some c ->
  children_ref
    (mkHeap (<[r := mkObj (o_cls c) (o_element c) p (o_children c) (o_text c)]>
               (boxes h)) (lists h)) q = children_ref h q.
Proof.
  intros Hc. unfold children_ref. cbn [boxes].
  destruct (decide (r = q)) as [E | Hne].
  - subst q. pose proof (lookup_lt_Some _ _ _ Hc) as Hlt.
    rewrite list_lookup_insert_eq by exact Hlt.
    rewrite Hc. reflexivity.
  - now rewrite list_lookup_insert_ne.
Qed.

(** C9: [add_child(parent, child, index)] makes [parent] the parent of
    [child] and inserts [child] into the list that is [parent.children]
    (at [index], or at the end); it re-binds no box's [children], changes
    no other list object and no other box's parent.  So, in a store where
    no list is shared, the children of every other box are unchanged, and
    a child that was in another box's children is afterwards in both
    lists. *)
Theorem add_child_frame (h h' : Heap) (self child : ref) (index : option Z) :
  add_child self child index h = Ok (tt, h') ->
  parent_of h' child = Some self /\
  (forall q, q <> child -> parent_of h' q = parent_of h q) /\
  (forall q, children_ref h' q = children_ref h q) /\
  (exists l,
      children_of h self = Some l /\
      children_of h' self =
        Some (match index with
              | None => l ++ [child]
              | Some i => py_insert i child l
              end)) /\
  (forall lr, children_ref h self <> Some lr ->
              lists h' !! lr = lists h !! lr) /\
  (no_shared_lists h ->
   forall q, q <> self -> children_of h' q = children_of h q) /\
  (no_shared_lists h ->
   forall q l, q <> self -> children_of h q = Some l -> In child l ->
     (exists l', children_of h' q = Some l' /\ In child l') /\
     (exists l', children_of h' self = Some l' /\ In child l')).
Proof.
  intros H. apply add_child_ok in H as (c & lr & l & Hc & Hlr & Hl & ->).
  assert (Hcr : forall q,
    children_ref
      (mkHeap
         (<[child := mkObj (o_cls c) (o_element c) (Some self)
                       (o_children c) (o_text c)]> (boxes h))
         (<[lr := match index with
                  | None => l ++ [child]
                  | Some i => py_insert i child l
                  end]> (lists h))) q = children_ref h q).
  { intros q. apply (children_ref_insert_parent h child c (Some self) q Hc). }
  assert (Hself : children_of
      (mkHeap
         (<[child := mkObj (o_cls c) (o_element c) (Some self)
                       (o_children c) (o_text c)]> (boxes h))
         (<[lr := match index with
                  | None => l ++ [child]
                  | Some i => py_insert i child l
                  end]> (lists h))) self =
      Some (match index with
            | None => l ++ [child]
            | Some i => py_insert i child l
            end)).
  { unfold children_of. rewrite Hcr, Hlr. simpl.
    apply list_lookup_insert_eq. now apply lookup_lt_Some in Hl. }
  assert (Hother : no_shared_lists h -> forall q, q <> self ->
    children_of
      (mkHeap
         (<[child := mkObj (o_cls c) (o_element c) (Some self)
                       (o_children c) (o_text c)]> (boxes h))
         (<[lr := match index with
                  | None => l ++ [child]
                  | Some i => py_insert i child l
                  end]> (lists h))) q = children_of h q).
  { intros Hns q Hq. unfold children_of. rewrite Hcr.
    destruct (children_ref h q) as [lq |] eqn:Eq; [| reflexivity]. simpl.
    apply list_lookup_insert_ne. intros <-. apply Hq. now apply (Hns q self lr). }
  split; [| split; [| split; [| split; [| split; [| split]]]]].
  - unfold parent_of. cbn [boxes].
    rewrite list_lookup_insert_eq by (now apply lookup_lt_Some in Hc).
    reflexivity.
  - intros q Hq. unfold parent_of. cbn [boxes].
    now rewrite list_lookup_insert_ne by auto.
  - exact Hcr.
  - exists l. split; [| exact Hself].
    unfold children_of. now rewrite Hlr.
  - intros lr' Hne. cbn [lists]. apply list_lookup_insert_ne. congruence.
  - exact Hother.
  - intros Hns q lq Hq Hlq Hin. split.
    + exists lq. now rewrite Hother.
    + eexists. split; [exact Hself |].
      destruct index as [i |].
      * unfold py_insert. apply in_or_app. right. now left.
      * apply in_or_app. right. now left.
Qed.

Lemma add_child_frame_witness :
  add_child 1 2 None two_parents_heap =
    Ok (tt,
        mkHeap
          [mkObj BlockBox p_element None (Some 0) None;
           mkObj InlineBox em_element None (Some 1) None;
           mkObj InlineBox em_element (Some 1) (Some 2) None]
          [[2]; [2]; []]) /\
  children_of two_parents_heap 0 = Some [2] /\
  exists h',
    add_child 1 2 None two_parents_heap = Ok (tt, h') /\
    parent_of h' 2 = Some 1 /\
    children_of h' 0 = children_of two_parents_heap 0.
Proof.
  split; [reflexivity |]. split; [reflexivity |].
  eexists. split; [reflexivity |].
  match goal with |- parent_of ?hh _ = _ /\ _ =>
    destruct (add_child_frame two_parents_heap hh 1 2 None eq_refl)
      as (H1 & _ & _ & _ & _ & H6 & _)
  end.
  split; [exact H1 |].
  apply H6; [| discriminate].
  intros q q' lr. unfold children_ref, two_parents_heap. simpl.
  destruct q as [| [| [| q0]]]; destruct q' as [| [| [| q1]]]; simpl;
    intros [= <-]; try discriminate; reflexivity.
Defined.

(** ** [block_in_inline]: the clones of the split boxes *)

Lemma find_ancestry_spec (fuel : nat) :
  forall h cur acc ips plb h',
    find_ancestry fuel cur acc h = Ok ((ips, Some plb), h') ->
    h' = h /\
    exists inl,
      ips = acc ++ inl ++ [plb] /\
      parent_chain h cur (inl ++ [plb]) /\
      Forall (fun r => exists c, class_of h r = Some c /\ is_InlineBox c = true)
        inl /\
      class_of h plb = Some LineBox.
Proof.
  induction fuel as [| fuel IH]; intros h cur acc ips plb h' H;
    [discriminate |].
  simpl in H. unfold bind in H.
  destruct (get_box cur h) as [[o h1] | |] eqn:E1; try discriminate.
  apply get_box_ok in E1 as [-> E1].
  destruct (o_parent o) as [q |] eqn:Eq; [| discriminate].
  destruct (get_box q h) as [[qo h1] | |] eqn:E2; try discriminate.
  apply get_box_ok in E2 as [-> E2].
  assert (Hpar : parent_of h cur = Some q).
  { unfold parent_of. rewrite E1. exact Eq. }
  destruct (is_InlineBox (o_cls qo)) eqn:Hi; simpl in H.
  - apply IH in H as (-> & inl & -> & Hch & HF & Hl).
    split; [reflexivity |]. exists (q :: inl). repeat split.
    + now rewrite <- app_assoc.
    + exact Hpar.
    + exact Hch.
    + constructor; [| exact HF]. exists (o_cls qo). split; [| exact Hi].
      unfold class_of. now rewrite E2.
    + exact Hl.
  - destruct (is_LineBox (o_cls qo)) eqn:Hl; [| discriminate].
    injection H as <- <- <-. split; [reflexivity |].
    exists []. repeat split.
    + exact Hpar.
    + constructor.
    + unfold class_of. rewrite E2. simpl.
      destruct (o_cls qo); try discriminate. reflexivity.
Qed.

Lemma new_box_eq (c : BoxClass) (e : Element) (h : Heap) :
  new_box c e h =
    Ok (length (boxes h),
        mkHeap (boxes h ++ [mkObj c e None (Some (length (lists h))) None])
               (lists h ++ [[]])).
Proof. reflexivity. Qed.

Lemma new_like_eq (o : BoxObj) (h : Heap) :
  o_cls o <> TextBox ->
  new_like o h = new_box (o_cls o) (o_element o) h.
Proof. unfold new_like. destruct (o_cls o); congruence. Qed.

Lemma add_child_append (self child : ref) (h : Heap) c lr l :
  boxes h !! child = Some c ->
  children_ref h self = Some lr ->
  lists h !! lr = Some l ->
  add_child self child None h =
    Ok (tt,
        mkHeap
          (<[child := mkObj (o_cls c) (o_element c) (Some self)
                        (o_children c) (o_text c)]> (boxes h))
          (<[lr := l ++ [child]]> (lists h))).
Proof.
  intros Hc Hs Hl. unfold add_child, bind, get_box. rewrite Hc.
  unfold put_box at 1. unfold children_list, bind, get_box. cbn [boxes].
  pose proof (children_ref_insert_parent h child c (Some self) self Hc) as E.
  unfold children_ref in E, Hs. cbn [boxes] in E. rewrite Hs in E.
  destruct (<[child:=_]> (boxes h) !! self) as [so |]; [| discriminate E].
  simpl in E. rewrite E. unfold ret, get_list. cbn [lists]. rewrite Hl.
  reflexivity.
Qed.

Lemma last_cons_default {A} (a : A) (l : list A) (d d' : A) :
  List.last (a :: l) d = List.last (a :: l) d'.
Proof.
  revert a. induction l as [| b l IH]; intros a; [reflexivity |].
  change (List.last (b :: l) d = List.last (b :: l) d'). apply IH.
Qed.

Lemma clone_chain_spec (popped : list ref) :
  forall objs h cb lr l0,
    Forall2 (fun r o => boxes h !! r = Some o /\ o_cls o <> TextBox)
      popped objs ->
    children_ref h cb = Some lr ->
    lists h !! lr = Some l0 ->
    exists last h',
      clone_chain popped cb h = Ok (last, h') /\
      last = List.last (seq (length (boxes h)) (length popped)) cb /\
      is_clone_chain h' cb objs (seq (length (boxes h)) (length popped)) /\
      lists h' !! lr =
        Some (l0 ++ take 1 (seq (length (boxes h)) (length popped))) /\
      (forall r o, boxes h !! r = Some o -> boxes h' !! r = Some o) /\
      (forall lr' l, lr' <> lr -> lists h !! lr' = Some l ->
                     lists h' !! lr' = Some l).
Proof.
  induction popped as [| q rest IH]; intros objs h cb lr l0 HF Hcb Hl0.
  - inversion HF; subst. exists cb, h. simpl.
    rewrite app_nil_r. repeat split; auto.
  - inversion HF as [| ? o ? os [Hq Hcls] HF']; subst.
    set (n := length (boxes h)). set (lrn := length (lists h)).
    set (new := mkObj (o_cls o) (o_element o) None (Some lrn) None).
    set (h1 := mkHeap (boxes h ++ [new]) (lists h ++ [[]])).
    set (new' := mkObj (o_cls o) (o_element o) (Some cb) (Some lrn) None).
    set (h2 := mkHeap (<[n := new']> (boxes h ++ [new]))
                      (<[lr := l0 ++ [n]]> (lists h ++ [[]]))).
    assert (Hlr : lr < lrn) by (now apply lookup_lt_Some in Hl0).
    assert (Hold : forall r x, boxes h !! r = Some x ->
                               boxes h2 !! r = Some x).
    { intros r x Hr. pose proof (lookup_lt_Some _ _ _ Hr) as Hlt.
      unfold h2. cbn [boxes]. fold n in Hlt.
      rewrite list_lookup_insert_ne by lia.
      now rewrite lookup_app_l. }
    assert (Hn2 : boxes h2 !! n = Some new').
    { unfold h2. cbn [boxes]. apply list_lookup_insert_eq.
      rewrite length_app. simpl. unfold n. lia. }
    assert (Hstep : bind (new_like o)
              (fun next_clone_box =>
                 bind (add_child cb next_clone_box None)
                   (fun _ => clone_chain rest next_clone_box)) h =
            clone_chain rest n h2).
    { unfold bind at 1. rewrite new_like_eq by exact Hcls.
      rewrite new_box_eq. fold n lrn new h1. unfold bind.
      rewrite (add_child_append cb n h1 new lr l0).
      - reflexivity.
      - unfold h1. cbn [boxes]. unfold n. now rewrite list_lookup_middle.
      - unfold children_ref in *. unfold h1. cbn [boxes].
        destruct (boxes h !! cb) as [co |] eqn:Eco; [| discriminate].
        now rewrite (lookup_app_l_Some _ _ _ _ Eco).
      - unfold h1. cbn [lists]. now apply lookup_app_l_Some. }
    destruct (IH os h2 n lrn []) as (last & h' & Hrun & Hlast & Hchain & Hln & Hb & Hls).
    + clear - HF' Hold. induction HF' as [| r x rs xs [Hr Hx] HF' IH'];
        constructor; auto.
    + unfold children_ref. rewrite Hn2. reflexivity.
    + unfold h2. cbn [lists]. rewrite list_lookup_insert_ne by lia.
      unfold lrn. now rewrite list_lookup_middle.
    + assert (Hlen2 : length (boxes h2) = S n).
      { unfold h2. cbn [boxes]. rewrite length_insert, length_app.
        simpl. unfold n. lia. }
      rewrite Hlen2 in *. exists last, h'. simpl.
      split; [| split; [| split; [| split; [| split]]]].
      * unfold bind at 1. unfold get_box. rewrite Hq.
        fold (bind (A:=ref) (B:=ref)). rewrite <- Hrun. exact Hstep.
      * rewrite Hlast. fold n.
        destruct (seq (S n) (length rest)); [reflexivity |].
        apply last_cons_default.
      * fold n. pose proof (Hb n new' Hn2) as Hn'.
        unfold class_of, element_of, parent_of, children_of, children_ref.
        rewrite Hn'. unfold new'. simpl.
        rewrite Hln. repeat split; auto.
      * fold n. cbn [take]. apply Hls; [lia |].
        unfold h2. cbn [lists]. apply list_lookup_insert_eq.
        rewrite length_app. simpl. lia.
      * intros r x Hr. apply Hb. now apply Hold.
      * intros lr' l Hne Hl. apply Hls.
        -- apply lookup_lt_Some in Hl. fold lrn in Hl. lia.
        -- unfold h2. cbn [lists]. rewrite list_lookup_insert_ne by auto.
           now apply lookup_app_l_Some.
Qed.

(** *** Frame properties of the store operations *)

Lemma bind_ok {A B} (m : M A) (f : A -> M B) h b h' :
  bind m f h = Ok (b, h') ->
  exists a h1, m h = Ok (a, h1) /\ f a h1 = Ok (b, h').
Proof.
  unfold bind. destruct (m h) as [[a h1] | |]; try discriminate. eauto.
Qed.

Lemma read_only_bind {A B} (m : M A) (f : A -> M B) :
  read_only m -> (forall a, read_only (f a)) -> read_only (bind m f).
Proof.
  intros Hm Hf h b h' H. apply bind_ok in H as (a & h1 & H1 & H2).
  apply Hm in H1 as ->. now apply Hf in H2.
Qed.

Lemma read_only_ret {A} (a : A) : read_only (ret a).
Proof. intros h x h' [= _ <-]. reflexivity. Qed.

Lemma read_only_raise {A} (e : exn) : read_only (raise (A:=A) e).
Proof. intros h x h'. discriminate. Qed.

Lemma read_only_get_box r : read_only (get_box r).
Proof. intros h o h' H. now apply get_box_ok in H. Qed.

Lemma read_only_get_list lr : read_only (get_list lr).
Proof. intros h o h' H. now apply get_list_ok in H. Qed.

Lemma read_only_children_list r : read_only (children_list r).
Proof. intros h o h' H. now apply children_list_ok in H. Qed.

Lemma read_only_index r : read_only (index r).
Proof.
  unfold index. apply read_only_bind; [apply read_only_get_box |].
  intros o. destruct (o_parent o); [| apply read_only_ret].
  apply read_only_bind; [apply read_only_children_list |]. intros lr.
  apply read_only_bind; [apply read_only_get_list |]. intros l.
  destruct (list_index r l); [apply read_only_ret | apply read_only_raise].
Qed.

Lemma read_only_index_plus_1 r : read_only (index_plus_1 r).
Proof.
  unfold index_plus_1. apply read_only_bind; [apply read_only_index |].
  intros [i |]; [apply read_only_ret | apply read_only_raise].
Qed.

Lemma read_only_index_arg r :
  read_only (bind (index r) (fun i => ret (Z.of_nat <$> i))).
Proof.
  apply read_only_bind; [apply read_only_index |].
  intros i. apply read_only_ret.
Qed.

Lemma read_only_index_plus_1_arg r :
  read_only (bind (index_plus_1 r) (fun i => ret (Some (Z.of_nat i)))).
Proof.
  apply read_only_bind; [apply read_only_index_plus_1 |].
  intros i. apply read_only_ret.
Qed.

Lemma extends_refl h : extends h h.
Proof. repeat split; auto. intros r o Hr. exists o. auto. Qed.

Lemma extends_trans h1 h2 h3 : extends h1 h2 -> extends h2 h3 -> extends h1 h3.
Proof.
  intros (Ha & Hb & Hc) (Ha' & Hb' & Hc'). repeat split; try lia.
  intros r o Hr. apply Hc in Hr as (o' & Hr' & E1 & E2 & E3).
  apply Hc' in Hr' as (o'' & Hr'' & E1' & E2' & E3').
  exists o''. repeat split; congruence.
Qed.

Lemma new_box_closed c e h :
  heap_closed h ->
  heap_closed
    (mkHeap (boxes h ++ [mkObj c e None (Some (length (lists h))) None])
            (lists h ++ [[]])) /\
  extends h
    (mkHeap (boxes h ++ [mkObj c e None (Some (length (lists h))) None])
            (lists h ++ [[]])).
Proof.
  intros [Hp Hc]. split; [split |].
  - intros r o q Hr Hq. cbn [boxes] in *. rewrite length_app. simpl.
    apply lookup_app_Some in Hr as [Hr | [_ Hr]].
    + specialize (Hp r o q Hr Hq). lia.
    + apply list_lookup_singleton_Some in Hr as [_ <-]. discriminate.
  - intros r o lr Hr Hlr. cbn [boxes lists] in *. rewrite length_app. simpl.
    apply lookup_app_Some in Hr as [Hr | [_ Hr]].
    + specialize (Hc r o lr Hr Hlr). lia.
    + apply list_lookup_singleton_Some in Hr as [_ <-].
      injection Hlr as <-. lia.
  - repeat split; cbn [boxes lists]; rewrite ?length_app; try lia.
    intros r o Hr. exists o. split; [now apply lookup_app_l_Some | auto].
Qed.

Lemma put_list_closed h lr l :
  heap_closed h ->
  heap_closed (mkHeap (boxes h) (<[lr := l]> (lists h))) /\
  extends h (mkHeap (boxes h) (<[lr := l]> (lists h))).
Proof.
  intros [Hp Hc]. split; [split |].
  - exact Hp.
  - intros r o lr' Hr Hlr. cbn [boxes lists] in *. rewrite length_insert.
    eauto.
  - repeat split; cbn [boxes lists]; rewrite ?length_insert; try lia.
    intros r o Hr. exists o. auto.
Qed.

Lemma add_child_closed self child index h u h' :
  heap_closed h ->
  add_child self child index h = Ok (u, h') ->
  heap_closed h' /\ extends h h' /\
  length (boxes h') = length (boxes h) /\
  length (lists h') = length (lists h) /\
  exists lr, children_ref h self = Some lr /\
    forall lr', lr' <> lr -> lists h' !! lr' = lists h !! lr'.
Proof.
  intros [Hp Hc] H.
  apply add_child_ok in H as (c & lr & l & Hch & Hlr & Hl & ->).
  assert (Hself : self < length (boxes h)).
  { unfold children_ref in Hlr.
    destruct (boxes h !! self) eqn:E; [| discriminate].
    now apply lookup_lt_Some in E. }
  split; [split |]; [| | split; [| split; [| split]]].
  - intros r o q Hr Hq. cbn [boxes] in *. rewrite length_insert.
    destruct (decide (r = child)) as [-> | Hne].
    + rewrite list_lookup_insert_eq in Hr by (now apply lookup_lt_Some in Hch).
      injection Hr as <-. simpl in Hq. injection Hq as <-. exact Hself.
    + rewrite list_lookup_insert_ne in Hr by auto. eauto.
  - intros r o lr' Hr Hlr'. cbn [boxes lists] in *. rewrite length_insert.
    destruct (decide (r = child)) as [-> | Hne].
    + rewrite list_lookup_insert_eq in Hr by (now apply lookup_lt_Some in Hch).
      injection Hr as <-. simpl in Hlr'. eauto.
    + rewrite list_lookup_insert_ne in Hr by auto. eauto.
  - repeat split; cbn [boxes lists]; rewrite ?length_insert; try lia.
    intros r o Hr. destruct (decide (r = child)) as [-> | Hne].
    + rewrite list_lookup_insert_eq by (now apply lookup_lt_Some in Hch).
      eexists. split; [reflexivity |]. rewrite Hch in Hr.
      injection Hr as <-. auto.
    + rewrite list_lookup_insert_ne by auto. exists o. auto.
  - cbn [boxes]. apply length_insert.
  - cbn [lists]. apply length_insert.
  - exists lr. split; [exact Hlr |]. intros lr' Hne. cbn [lists].
    now apply list_lookup_insert_ne.
Qed.

Lemma remove_from_parent_closed box h u h' :
  heap_closed h ->
  remove_from_parent box h = Ok (u, h') ->
  heap_closed h' /\ extends h h' /\
  length (boxes h') = length (boxes h) /\
  length (lists h') = length (lists h).
Proof.
  intros Hcl H. unfold remove_from_parent in H.
  apply bind_ok in H as (o & h1 & H1 & H).
  apply get_box_ok in H1 as [-> H1].
  destruct (o_parent o) as [q |]; [| discriminate].
  apply bind_ok in H as (lr & h1 & H2 & H).
  apply children_list_ok in H2 as [-> H2].
  apply bind_ok in H as (l & h1 & H3 & H).
  apply get_list_ok in H3 as [-> H3].
  destruct (list_remove box l) as [l' |]; [| discriminate].
  unfold put_list in H. injection H as _ <-.
  destruct (put_list_closed h lr l' Hcl) as [Ha Hb].
  repeat split; try apply Ha; try apply Hb; cbn [boxes lists];
    rewrite ?length_insert; reflexivity.
Qed.

Lemma parent_add_child_closed box child (idx : M (option Z)) h u h' :
  read_only idx ->
  heap_closed h ->
  parent_add_child box child idx h = Ok (u, h') ->
  heap_closed h' /\ extends h h' /\
  length (boxes h') = length (boxes h) /\
  length (lists h') = length (lists h) /\
  exists q lr, parent_of h box = Some q /\ children_ref h q = Some lr /\
    forall lr', lr' <> lr -> lists h' !! lr' = lists h !! lr'.
Proof.
  intros Hro Hcl H. unfold parent_add_child in H.
  apply bind_ok in H as (o & h1 & H1 & H).
  apply get_box_ok in H1 as [-> H1].
  destruct (o_parent o) as [q |] eqn:Eq; [| discriminate].
  apply bind_ok in H as (i & h1 & H2 & H).
  apply Hro in H2 as ->.
  destruct u. apply (add_child_closed _ _ _ _ _ _ Hcl) in H
    as (Ha & Hb & Hc & Hd & lr & Hlr & Hfr).
  split; [exact Ha |]. split; [exact Hb |]. split; [exact Hc |].
  split; [exact Hd |]. exists q, lr. split; [| split; [exact Hlr | exact Hfr]].
  unfold parent_of. rewrite H1. exact Eq.
Qed.

Lemma previous_anonymous_closed plb h prev h' :
  heap_closed h ->
  previous_anonymous plb h = Ok (prev, h') ->
  heap_closed h' /\ extends h h' /\ prev < length (boxes h').
Proof.
  intros Hcl H. unfold previous_anonymous in H.
  apply bind_ok in H as (lo & h1 & H1 & H).
  apply get_box_ok in H1 as [-> H1].
  apply bind_ok in H as (is_anon & h1 & H2 & H).
  assert (h1 = h) as ->.
  { destruct (o_parent lo) as [q |].
    - apply bind_ok in H2 as (qo & h2 & H2 & H3).
      apply get_box_ok in H2 as [-> _]. now injection H3 as _ <-.
    - now injection H2 as _ <-. }
  clear H2.
  assert (Hnew :
    bind (new_box AnonymousBlockBox (o_element lo))
      (fun previous_anonymous_box =>
         bind (parent_add_child plb previous_anonymous_box
                 (bind (index plb) (fun i => ret (Z.of_nat <$> i))))
           (fun _ =>
              bind (remove_from_parent plb)
                (fun _ =>
                   bind (add_child previous_anonymous_box plb None)
                     (fun _ => ret previous_anonymous_box)))) h =
      Ok (prev, h') ->
    heap_closed h' /\ extends h h' /\ prev < length (boxes h')).
  { clear H. intros H.
    apply bind_ok in H as (pa & ha & Ha & H).
    rewrite new_box_eq in Ha. injection Ha as <- <-.
    destruct (new_box_closed AnonymousBlockBox (o_element lo) h Hcl)
      as [Hcl1 Hex1].
    apply bind_ok in H as (u1 & hb & Hb & H).
    apply (parent_add_child_closed _ _ _ _ _ _ (read_only_index_arg plb) Hcl1)
      in Hb as (Hcl2 & Hex2 & Hlen2 & _).
    apply bind_ok in H as (u2 & hc & Hc & H).
    apply (remove_from_parent_closed _ _ _ _ Hcl2) in Hc
      as (Hcl3 & Hex3 & Hlen3 & _).
    apply bind_ok in H as (u3 & hd & Hd & H).
    apply (add_child_closed _ _ _ _ _ _ Hcl3) in Hd
      as (Hcl4 & Hex4 & Hlen4 & _).
    injection H as <- <-.
    split; [exact Hcl4 |]. split.
    - eapply extends_trans; [exact Hex1 |].
      eapply extends_trans; [exact Hex2 |].
      eapply extends_trans; [exact Hex3 | exact Hex4].
    - rewrite Hlen4, Hlen3, Hlen2. cbn [boxes]. rewrite length_app.
      simpl. lia. }
  destruct is_anon; [| exact (Hnew H)].
  destruct (o_parent lo) as [q |] eqn:Eq; [| exact (Hnew H)].
  injection H as <- <-. split; [exact Hcl |]. split; [apply extends_refl |].
  destruct Hcl as [Hp _]. exact (Hp plb lo q H1 Eq).
Qed.

Lemma split_setup_spec fuel box h ips plb prev next h1 :
  heap_closed h ->
  split_setup fuel box h = Ok ((ips, plb, prev, next), h1) ->
  find_ancestry fuel box [] h = Ok ((ips, Some plb), h) /\
  extends h h1 /\
  exists lrn,
    children_ref h1 next = Some lrn /\ lists h1 !! lrn = Some [] /\
    class_of h1 next = Some AnonymousBlockBox.
Proof.
  intros Hcl H. unfold split_setup in H.
  apply bind_ok in H as ([ips' bound] & h0 & Hf & H).
  destruct bound as [plb' |]; [| discriminate].
  pose proof (find_ancestry_spec _ _ _ _ _ _ _ Hf) as [-> _].
  apply bind_ok in H as (prev' & ha & Ha & H).
  apply (previous_anonymous_closed _ _ _ _ Hcl) in Ha as (Hcla & Hexa & Hprev).
  apply bind_ok in H as (lo & ha' & Hlo & H).
  apply get_box_ok in Hlo as [-> Hlo].
  apply bind_ok in H as (nx & hb & Hb & H).
  rewrite new_box_eq in Hb. injection Hb as <- <-.
  destruct (new_box_closed AnonymousBlockBox (o_element lo) ha Hcla)
    as [Hclb Hexb].
  apply bind_ok in H as (u & hc & Hc & H).
  injection H as <- <- <- <- <-.
  split; [exact Hf |].
  apply (parent_add_child_closed _ _ _ _ _ _
           (read_only_index_plus_1_arg prev') Hclb) in Hc
    as (Hclc & Hexc & Hlenc & _ & q & lr & Hq & Hlr & Hfr).
  split.
  - eapply extends_trans; [exact Hexa |].
    eapply extends_trans; [exact Hexb | exact Hexc].
  - set (new := mkObj AnonymousBlockBox (o_element lo) None
                  (Some (length (lists ha))) None) in *.
    set (hb := mkHeap (boxes ha ++ [new]) (lists ha ++ [[]])) in *.
    assert (Hnew : boxes hb !! length (boxes ha) = Some new).
    { unfold hb. cbn [boxes]. now rewrite list_lookup_middle. }
    destruct Hexc as (_ & _ & Hexc).
    destruct (Hexc _ _ Hnew) as (o' & Ho' & Ec & _ & Ech).
    exists (length (lists ha)). split; [| split].
    + unfold children_ref. rewrite Ho'. simpl. rewrite Ech. reflexivity.
    + rewrite Hfr.
      * unfold hb. cbn [lists]. now rewrite list_lookup_middle.
      * (* the list of the parent of [prev] is an old one *)
        intros E. subst lr.
        assert (Hq' : q < length (boxes ha)).
        { unfold parent_of in Hq.
          destruct (boxes hb !! prev') as [po |] eqn:Epo; [| discriminate].
          simpl in Hq. unfold hb in Epo. cbn [boxes] in Epo.
          rewrite lookup_app_l in Epo by exact Hprev.
          destruct Hcla as [Hp _]. exact (Hp _ _ _ Epo Hq). }
        unfold children_ref in Hlr.
        destruct (boxes hb !! q) as [qo |] eqn:Eqo; [| discriminate].
        simpl in Hlr. unfold hb in Eqo. cbn [boxes] in Eqo.
        rewrite lookup_app_l in Eqo by exact Hq'.
        destruct Hcla as [_ Hc']. specialize (Hc' _ _ _ Eqo Hlr). lia.
    + unfold class_of. rewrite Ho'. simpl. now rewrite Ec.
Qed.

Lemma heap_closedb_sound (h : Heap) : heap_closedb h = true -> heap_closed h.
Proof.
  unfold heap_closedb. rewrite forallb_forall. intros H. split.
  - intros r o q Hr Hq. apply list_elem_of_lookup_2, list_elem_of_In in Hr.
    apply H in Hr. rewrite Hq in Hr. apply andb_prop in Hr as [Hr _].
    now apply Nat.ltb_lt in Hr.
  - intros r o lr Hr Hlr. apply list_elem_of_lookup_2, list_elem_of_In in Hr.
    apply H in Hr. rewrite Hlr in Hr. apply andb_prop in Hr as [_ Hr].
    now apply Nat.ltb_lt in Hr.
Qed.

Lemma extends_objects (h h1 : Heap) (l : list ref) :
  extends h h1 ->
  Forall (fun r => exists c, class_of h r = Some c /\ c <> TextBox) l ->
  exists objs,
    Forall2 (fun r o => boxes h1 !! r = Some o /\ o_cls o <> TextBox) l objs /\
    Forall2 (fun r o => class_of h r = Some (o_cls o) /\
                        element_of h r = Some (o_element o)) l objs.
Proof.
  intros (_ & _ & Hex) HF. induction HF as [| r rs (c & Hc & Hne) HF IH].
  - exists []. split; constructor.
  - destruct IH as (objs & H1 & H2).
    unfold class_of in Hc. destruct (boxes h !! r) as [o |] eqn:Er;
      [| discriminate].
    injection Hc as <-.
    destruct (Hex r o Er) as (o' & Ho' & Ec & Ee & _).
    exists (o' :: objs). split; constructor; auto.
    + split; [exact Ho' | congruence].
    + unfold class_of, element_of. rewrite Er. simpl. split; congruence.
Qed.

(** C4 (amended): when [block_in_inline] goes on for a box of a store
    without dangling references, the boxes it has collected are the
    [InlineBox] ancestors of the box, nearest first, followed by the
    enclosing [LineBox]; the [while] loop then builds in the empty
    [next_anonymous_box] exactly one clone per collected box, the line box
    included: a clone of the line box, in it a clone of the outermost
    inline box, and so on down to a clone of the nearest one, each of the
    class and element of its original, each the only child of the one
    before, the last without children. *)
Theorem split_inline_clones (fuel : nat) (h h1 : Heap) (box : ref)
    (inline_parents : list ref)
    (parent_line_box previous_anonymous_box next_anonymous_box : ref) :
  heap_closed h ->
  split_setup fuel box h =
    Ok ((inline_parents, parent_line_box, previous_anonymous_box,
         next_anonymous_box), h1) ->
  Forall (fun r => class_of h r <> Some TextBox) inline_parents ->
  exists inl objs last h2,
    inline_parents = inl ++ [parent_line_box] /\
    parent_chain h box inline_parents /\
    Forall (fun r => class_of h r = Some InlineBox) inl /\
    class_of h parent_line_box = Some LineBox /\
    Forall2 (fun r o => class_of h r = Some (o_cls o) /\
                        element_of h r = Some (o_element o))
      (parent_line_box :: rev inl) objs /\
    clone_chain (rev inline_parents) next_anonymous_box h1 = Ok (last, h2) /\
    is_clone_chain h2 next_anonymous_box objs
      (seq (length (boxes h1)) (S (length inl))) /\
    children_of h2 next_anonymous_box = Some [length (boxes h1)] /\
    last = length (boxes h1) + length inl.
Proof.
  intros Hcl Hs Hnt.
  apply (split_setup_spec _ _ _ _ _ _ _ _ Hcl) in Hs
    as (Hf & Hex & lrn & Hlrn & Hempty & _).
  apply find_ancestry_spec in Hf as (_ & inl & E & Hch & Hin & Hline).
  simpl in E. subst inline_parents.
  assert (Hin' : Forall (fun r => class_of h r = Some InlineBox) inl).
  { apply Forall_app in Hnt as [Hnt _].
    rewrite Forall_forall in *. intros r Hr.
    destruct (Hin r Hr) as (c & Hc & Hi). specialize (Hnt r Hr).
    rewrite Hc in *. destruct c; try discriminate; congruence. }
  assert (HF : Forall (fun r => exists c, class_of h r = Some c /\ c <> TextBox)
                 (rev (inl ++ [parent_line_box]))).
  { rewrite rev_app_distr. simpl. constructor.
    - exists LineBox. split; [exact Hline | discriminate].
    - apply Forall_forall. intros r Hr. apply list_elem_of_In, in_rev in Hr.
      exists InlineBox. split; [| discriminate].
      rewrite Forall_forall in Hin'. apply Hin'. now apply list_elem_of_In. }
  destruct (extends_objects h h1 _ Hex HF) as (objs & Ho1 & Ho2).
  destruct (clone_chain_spec _ _ _ _ _ _ Ho1 Hlrn Hempty)
    as (last & h2 & Hrun & Hlast & Hchain & Hl & Hb & _).
  rewrite length_rev, length_app in *. simpl in *.
  replace (length inl + 1) with (S (length inl)) in * by lia.
  exists inl, objs, last, h2.
  split; [reflexivity |]. split; [exact Hch |]. split; [exact Hin' |].
  split; [exact Hline |]. split.
  { rewrite rev_app_distr in Ho2. exact Ho2. }
  split; [exact Hrun |]. split; [exact Hchain |]. split.
  - unfold children_of, children_ref in *.
    destruct (boxes h1 !! next_anonymous_box) as [no |] eqn:En;
      [| discriminate].
    rewrite (Hb _ _ En). simpl in *. rewrite Hlrn. simpl. exact Hl.
  - rewrite Hlast. clear. generalize (length (boxes h1)) as n.
    generalize next_anonymous_box as d.
    induction (length inl) as [| k IH]; intros d n; [simpl; lia |].
    change (seq n (S (S k))) with (n :: seq (S n) (S k)).
    rewrite (last_cons_default _ _ d n).
    change (List.last (n :: seq (S n) (S k)) n)
      with (List.last (seq (S n) (S k)) n).
    rewrite IH. lia.
Qed.

Lemma split_inline_clones_witness :
  exists last h2,
    clone_chain [1; 2] 6 block_in_span_setup_heap = Ok (last, h2) /\
    is_clone_chain h2 6
      [mkObj LineBox p_element (Some 5) (Some 1) None;
       mkObj InlineBox span_element (Some 1) (Some 4) None] [7; 8] /\
    children_of h2 6 = Some [7] /\ last = 8.
Proof.
  assert (Hnt : Forall (fun r => class_of block_in_span_heap r <> Some TextBox)
                  [2; 1]).
  { repeat constructor; discriminate. }
  destruct (split_inline_clones 5 block_in_span_heap block_in_span_setup_heap
              4 [2; 1] 1 5 6
              (heap_closedb_sound block_in_span_heap eq_refl) eq_refl Hnt)
    as (inl & objs & last & h2 & _ & _ & _ & _ & _ & Hrun & _ & Hkids & Hlast).
  exists last, h2. split; [exact Hrun |].
  vm_compute in Hrun. injection Hrun as <- <-.
  repeat split; reflexivity.
Defined.

(** C4 as stated fails: the inner block of
    [BlockBox[LineBox[InlineBox[TextBox('a'), BlockBox[]]]]] has one
    [InlineBox] ancestor, and what is rebuilt in the anonymous block after
    it has two cloned levels, a [LineBox] holding an [InlineBox]: the line
    box is collected and cloned as well. *)
Lemma split_inline_clones_line_box_too :
  block_in_inline_applies 4 block_in_span_heap =
    Ok (true, block_in_span_heap) /\
  inline_ancestors 5 block_in_span_heap 4 = [2] /\
  rebuilt_after_block 5 4 block_in_span_heap =
    Some (S_ AnonymousBlockBox [S_ LineBox [S_ InlineBox []]]) /\
  rebuilt_after_block 5 4 block_in_span_heap <>
    Some (S_ AnonymousBlockBox [S_ InlineBox []]) /\
  (shape <$> result_box (run_block_in_inline 8 block_in_span)) =
    Some (S_ BlockBox
            [S_ AnonymousBlockBox
               [S_ LineBox [S_ InlineBox [T_ (utext "a")]]];
             S_ BlockBox [];
             S_ AnonymousBlockBox [S_ LineBox [S_ InlineBox []]]]).
Proof.
  split; [vm_compute; reflexivity |].
  split; [vm_compute; reflexivity |].
  split; [vm_compute; reflexivity |].
  split; [vm_compute; discriminate |].
  vm_compute; reflexivity.
Qed.

(** * Further properties *)

(** Induction on elements, with the hypothesis on every child. *)
Lemma Element_ind2 (P : Element -> Prop) :
  (forall tg s t cs tl, Forall P cs -> P (mkElement tg s t cs tl)) ->
  forall e, P e.
Proof.
  intros H. fix IH 1. intros [tg s t cs tl]. apply H.
  induction cs as [| c cs IHcs]; constructor; [apply IH | exact IHcs].
Qed.

(** Induction on box trees, with the hypothesis on every child. *)
Lemma Box_ind2 (P : Box -> Prop) :
  (forall c e kids, Forall P kids -> P (Node c e kids)) ->
  (forall e t, P (Text e t)) ->
  forall b, P b.
Proof.
  intros HN HT. fix IH 1. intros [c e kids | e t]; [| apply HT].
  apply HN. induction kids as [| k kids IHk]; constructor;
    [apply IH | exact IHk].
Qed.

(** ** When [dom_to_box] returns *)

Lemma unsupported_not_recognized (d : string) :
  String.eqb d "none" = false ->
  in2 d "block" "list-item" = false ->
  String.eqb d "inline" = false ->
  String.eqb d "inline-block" = false ->
  recognized_display d = false.
Proof.
  unfold recognized_display, in2. simpl. intros -> H -> ->.
  apply orb_false_elim in H as [-> ->]. reflexivity.
Qed.

Lemma dom_children_loop_outcome (element : Element) (cs : list Element) :
  Forall dom_to_box_outcome cs ->
  forall acc,
    if forallb
         (fun ch => String.eqb (display (e_style ch)) "none" || buildable ch)
         cs
    then exists kids, dom_children_loop element cs acc = Ok kids
    else exists d,
           dom_children_loop element cs acc =
             Raise (NotImplementedError ("Unsupported display: " ++ d)) /\
           recognized_display d = false.
Proof.
  induction 1 as [| ch cs Hch HF IH]; intros acc; simpl.
  - eauto.
  - unfold dom_to_box_outcome in Hch.
    destruct (String.eqb (display (e_style ch)) "none"); simpl.
    + apply IH.
    + destruct (buildable ch); simpl.
      * destruct Hch as [b ->]. apply IH.
      * destruct Hch as (d & -> & Hd). eauto.
Qed.

(** X1: [dom_to_box] raises [AssertionError] exactly on a root of display
    [none]; otherwise it returns a box exactly when the element is
    buildable (its display is supported and so is that of every
    descendant reached without entering a [display: none] child), and
    else raises [NotImplementedError] for an unsupported display. *)
Theorem dom_to_box_outcomes (e : Element) : dom_to_box_outcome e.
Proof.
  induction e as [tg s t cs tl IH] using Element_ind2.
  unfold dom_to_box_outcome. simpl.
  destruct (String.eqb (display s) "none") eqn:Hn; [reflexivity |].
  pose proof (dom_children_loop_outcome (mkElement tg s t cs tl) cs IH
                (text_box_if (mkElement tg s t cs tl) t)) as Hl.
  unfold text_box_if in Hl. simpl in Hl.
  destruct (in2 (display s) "block" "list-item") eqn:Hb; simpl.
  - destruct (forallb _ cs).
    + destruct Hl as [kids Hl]. unfold dom_children_loop in Hl.
      rewrite Hl. eauto.
    + destruct Hl as (d & Hl & Hd). unfold dom_children_loop in Hl.
      rewrite Hl. eauto.
  - destruct (String.eqb (display s) "inline") eqn:Hi; simpl.
    + destruct (forallb _ cs).
      * destruct Hl as [kids Hl]. unfold dom_children_loop in Hl.
        rewrite Hl. eauto.
      * destruct Hl as (d & Hl & Hd). unfold dom_children_loop in Hl.
        rewrite Hl. eauto.
    + destruct (String.eqb (display s) "inline-block") eqn:Hib; simpl.
      * destruct (forallb _ cs).
        -- destruct Hl as [kids Hl]. unfold dom_children_loop in Hl.
           rewrite Hl. eauto.
        -- destruct Hl as (d & Hl & Hd). unfold dom_children_loop in Hl.
           rewrite Hl. eauto.
      * exists (display s). split; [reflexivity |].
        now apply unsupported_not_recognized.
Qed.

(** ** The regular expressions of [process_whitespace] *)

Lemma span_len_rest (p : uchar -> bool) (l : ustring) :
  head_is p (drop (span_len p l) l) = false.
Proof.
  induction l as [| c r IH]; [reflexivity |]. simpl.
  destruct (p c) eqn:Hc; simpl; [exact IH | exact Hc].
Qed.

Lemma span_len_head_false (p : uchar -> bool) (l : ustring) :
  head_is p l = false -> span_len p l = 0.
Proof. destruct l as [| c r]; [reflexivity |]. simpl. now intros ->. Qed.

Lemma m_newline_cons (c : uchar) (r : ustring) :
  m_newline (c :: r) =
    if is_hspace c then
      match m_newline r with
      | Some (n, repl) => Some (S n, repl)
      | None => None
      end
    else if (c =? LF)%N then Some (1 + span_len is_hspace r, [LF])
    else None.
Proof.
  unfold m_newline. simpl. destruct (is_hspace c) eqn:Hc; simpl.
  - destruct (drop (span_len is_hspace r) r) as [| d r']; [reflexivity |].
    destruct (d =? LF)%N; reflexivity.
  - reflexivity.
Qed.

Lemma m_newline_Some (l : ustring) n repl :
  m_newline l = Some (n, repl) ->
  repl = [LF] /\ 1 <= n /\ head_is is_hspace (drop n l) = false.
Proof.
  revert n. induction l as [| c r IH]; intros n; [discriminate |].
  rewrite m_newline_cons. destruct (is_hspace c).
  - destruct (m_newline r) as [[m rp] |] eqn:E; [| discriminate].
    intros [= <- <-]. destruct (IH m eq_refl) as (-> & Hm & Hd).
    repeat split; [lia | exact Hd].
  - destruct (c =? LF)%N; [| discriminate].
    intros [= <- <-]. repeat split; [lia |].
    simpl. apply span_len_rest.
Qed.

(** Where the pattern does not match, the text does not begin with a
    newline. *)
Lemma m_newline_None_head (l : ustring) :
  m_newline l = None -> head_is (is_char LF) l = false.
Proof.
  destruct l as [| c r]; [reflexivity |]. rewrite m_newline_cons.
  unfold is_char. simpl. destruct (is_hspace c) eqn:Hc.
  - intros _. unfold is_hspace in Hc.
    destruct (c =? LF)%N eqn:E; [| reflexivity].
    apply N.eqb_eq in E. subst c. discriminate.
  - destruct (c =? LF)%N; [discriminate | reflexivity].
Qed.

Lemma is_hspace_not_LF (c : uchar) : is_hspace c = true -> is_char LF c = false.
Proof.
  unfold is_hspace, is_char. intros H.
  destruct (c =? LF)%N eqn:E; [| reflexivity].
  apply N.eqb_eq in E. subst c. discriminate.
Qed.

(** The first character of the result of the newline substitution. *)
Lemma re_sub_newline_head (l : ustring) :
  (head_is (is_char LF) (re_sub m_newline l) =
     match m_newline l with Some _ => true | None => false end) /\
  (head_is is_hspace l = false ->
   head_is is_hspace (re_sub m_newline l) = false).
Proof.
  destruct l as [| c r]; [split; reflexivity |].
  rewrite re_sub_cons.
  destruct (m_newline (c :: r)) as [[n repl] |] eqn:E.
  - apply m_newline_Some in E as (-> & _ & _). split; reflexivity.
  - split; [| intros H; exact H].
    apply m_newline_None_head in E. exact E.
Qed.

Lemma nl_stable_cons (a : uchar) (r : ustring) :
  nl_stable (a :: r) =
    negb (is_hspace a && head_is (is_char LF) r)
    && negb (is_char LF a && head_is is_hspace r)
    && nl_stable r.
Proof. reflexivity. Qed.

Lemma single_spaces_cons (a : uchar) (r : ustring) :
  single_spaces (a :: r) =
    negb (is_char SPACE a && head_is (is_char SPACE) r) && single_spaces r.
Proof. reflexivity. Qed.

Lemma re_sub_newline_stable_le (n : nat) :
  forall l, length l <= n -> nl_stable (re_sub m_newline l) = true.
Proof.
  induction n as [| n IH]; intros l Hl.
  - destruct l; [reflexivity | simpl in Hl; lia].
  - destruct l as [| c r]; [reflexivity |].
    rewrite re_sub_cons.
    destruct (m_newline (c :: r)) as [[k repl] |] eqn:E.
    + destruct (m_newline_Some _ _ _ E) as (-> & Hk & Hd).
      destruct k as [| k]; [lia |]. simpl in Hd. simpl pred.
      change ([LF] ++ re_sub m_newline (drop k r))
        with (LF :: re_sub m_newline (drop k r)).
      rewrite nl_stable_cons. rewrite IH.
      * destruct (re_sub_newline_head (drop k r)) as [_ H2].
        rewrite (H2 Hd). reflexivity.
      * rewrite length_drop. simpl in Hl. lia.
    + rewrite nl_stable_cons. rewrite IH by (simpl in Hl; lia).
      rewrite m_newline_cons in E.
      destruct (re_sub_newline_head r) as [H1 _]. rewrite H1.
      destruct (is_hspace c) eqn:Hc.
      * destruct (m_newline r) as [[m rp] |]; [discriminate |].
        rewrite (is_hspace_not_LF c Hc). reflexivity.
      * destruct (c =? LF)%N eqn:Hlf; [discriminate |].
        unfold is_char. rewrite Hlf. reflexivity.
Qed.

Lemma nl_stable_hspace_run (c : uchar) (r : ustring) :
  is_hspace c = true -> nl_stable (c :: r) = true -> m_newline (c :: r) = None.
Proof.
  revert c. induction r as [| d r IH]; intros c Hc Hs.
  - rewrite m_newline_cons, Hc. reflexivity.
  - rewrite m_newline_cons, Hc.
    rewrite nl_stable_cons in Hs. apply andb_prop in Hs as [Hs Hr].
    apply andb_prop in Hs as [Hs _]. rewrite Hc in Hs. simpl in Hs.
    destruct (is_hspace d) eqn:Hd.
    + now rewrite (IH d Hd Hr).
    + rewrite m_newline_cons, Hd. unfold is_char in Hs.
      destruct (d =? LF)%N; [discriminate | reflexivity].
Qed.

(** The newline substitution leaves a stable text as it is. *)
Lemma re_sub_newline_id (l : ustring) :
  nl_stable l = true -> re_sub m_newline l = l.
Proof.
  induction l as [| c r IH]; intros Hs; [reflexivity |].
  rewrite re_sub_cons.
  pose proof Hs as Hs'. rewrite nl_stable_cons in Hs'.
  apply andb_prop in Hs' as [Hs' Hr]. apply andb_prop in Hs' as [_ H2].
  destruct (is_hspace c) eqn:Hc.
  - rewrite (nl_stable_hspace_run c r Hc Hs). now rewrite IH.
  - rewrite m_newline_cons, Hc. unfold is_char in H2.
    destruct (c =? LF)%N eqn:Hlf.
    + simpl in H2. apply negb_true_iff in H2.
      rewrite (span_len_head_false _ _ H2).
      cbn [Nat.add Nat.pred Init.Nat.pred Init.Nat.add drop app].
      apply N.eqb_eq in Hlf. subst c. rewrite drop_0. now rewrite IH.
    + now rewrite IH.
Qed.

Lemma re_sub_spaces_cons (c : uchar) (r : ustring) :
  re_sub m_spaces (c :: r) =
    if (c =? SPACE)%N
    then SPACE :: re_sub m_spaces (drop (span_len (is_char SPACE) r) r)
    else c :: re_sub m_spaces r.
Proof.
  rewrite re_sub_cons. unfold m_spaces. simpl.
  destruct (c =? SPACE)%N; reflexivity.
Qed.

Lemma re_sub_spaces_head (p : uchar -> bool) (l : ustring) :
  head_is p (re_sub m_spaces l) = head_is p l.
Proof.
  destruct l as [| c r]; [reflexivity |]. rewrite re_sub_spaces_cons.
  destruct (c =? SPACE)%N eqn:E; [| reflexivity].
  apply N.eqb_eq in E. now subst c.
Qed.

Lemma re_sub_spaces_single_le (n : nat) :
  forall l, length l <= n -> single_spaces (re_sub m_spaces l) = true.
Proof.
  induction n as [| n IH]; intros l Hl.
  - destruct l; [reflexivity | simpl in Hl; lia].
  - destruct l as [| c r]; [reflexivity |]. rewrite re_sub_spaces_cons.
    simpl in Hl. destruct (c =? SPACE)%N eqn:E.
    + rewrite single_spaces_cons, re_sub_spaces_head, span_len_rest.
      rewrite IH by (rewrite length_drop; lia).
      now rewrite andb_false_r.
    + rewrite single_spaces_cons. unfold is_char at 1. rewrite E.
      apply IH. lia.
Qed.

Lemma re_sub_spaces_id (l : ustring) :
  single_spaces l = true -> re_sub m_spaces l = l.
Proof.
  induction l as [| c r IH]; intros Hs; [reflexivity |].
  rewrite single_spaces_cons in Hs. apply andb_prop in Hs as [H1 Hr].
  rewrite re_sub_spaces_cons. unfold is_char at 1 in H1.
  destruct (c =? SPACE)%N eqn:E.
  - simpl in H1. apply negb_true_iff in H1.
    rewrite (span_len_head_false _ _ H1), drop_0, (IH Hr).
    apply N.eqb_eq in E. now subst c.
  - now rewrite (IH Hr).
Qed.

Lemma forallb_drop {A} (p : A -> bool) (k : nat) (l : list A) :
  forallb p l = true -> forallb p (drop k l) = true.
Proof.
  revert k. induction l as [| a l IH]; intros [| k] H; auto.
  simpl in *. apply andb_prop in H as [_ H]. now apply IH.
Qed.

Lemma re_sub_spaces_forallb_le (p : uchar -> bool) (n : nat) :
  forall l, length l <= n -> forallb p l = true ->
            forallb p (re_sub m_spaces l) = true.
Proof.
  induction n as [| n IH]; intros l Hl Hp.
  - destruct l; [reflexivity | simpl in Hl; lia].
  - destruct l as [| c r]; [reflexivity |]. rewrite re_sub_spaces_cons.
    simpl in Hl, Hp. apply andb_prop in Hp as [Hc Hr].
    destruct (c =? SPACE)%N eqn:E.
    + apply N.eqb_eq in E. subst c. simpl. rewrite Hc. simpl.
      apply IH; [rewrite length_drop; lia | now apply forallb_drop].
    + simpl. rewrite Hc. simpl. apply IH; [lia | exact Hr].
Qed.

Lemma nl_stable_space_run (r : ustring) :
  nl_stable (SPACE :: r) = true ->
  nl_stable (drop (span_len (is_char SPACE) r) r) = true /\
  head_is (is_char LF) (drop (span_len (is_char SPACE) r) r) = false.
Proof.
  induction r as [| d r IH]; intros Hs; [split; reflexivity |].
  rewrite nl_stable_cons in Hs. apply andb_prop in Hs as [Hs Hr].
  apply andb_prop in Hs as [H1 _]. simpl in H1. apply negb_true_iff in H1.
  change (span_len (is_char SPACE) (d :: r))
    with (if (d =? SPACE)%N then S (span_len (is_char SPACE) r) else 0).
  destruct (d =? SPACE)%N eqn:E.
  - apply N.eqb_eq in E. subst d. cbn [drop]. now apply IH.
  - rewrite drop_0. split; [exact Hr | exact H1].
Qed.

Lemma re_sub_spaces_nl_stable_le (n : nat) :
  forall l, length l <= n -> nl_stable l = true ->
            nl_stable (re_sub m_spaces l) = true.
Proof.
  induction n as [| n IH]; intros l Hl Hs.
  - destruct l; [reflexivity | simpl in Hl; lia].
  - destruct l as [| c r]; [reflexivity |]. rewrite re_sub_spaces_cons.
    simpl in Hl. destruct (c =? SPACE)%N eqn:E.
    + apply N.eqb_eq in E. subst c.
      destruct (nl_stable_space_run r Hs) as [Hr Hh].
      rewrite nl_stable_cons, !re_sub_spaces_head, Hh.
      rewrite IH by (rewrite ?length_drop; auto; lia). reflexivity.
    + rewrite nl_stable_cons in *. rewrite !re_sub_spaces_head.
      apply andb_prop in Hs as [Hs Hr]. rewrite Hs. simpl.
      apply IH; [lia | exact Hr].
Qed.

(** *** [text.replace] *)

Lemma replace_char_head (p : uchar -> bool) (a b : uchar) (l : ustring) :
  head_is p (replace_char a b l) =
  head_is (fun c => p (if (c =? a)%N then b else c)) l.
Proof. destruct l; reflexivity. Qed.

Lemma replace_char_id (a b : uchar) (l : ustring) :
  no_char a l = true -> replace_char a b l = l.
Proof.
  induction l as [| c r IH]; [reflexivity |]. simpl.
  intros H. apply andb_prop in H as [Hc Hr]. apply negb_true_iff in Hc.
  rewrite Hc. now rewrite (IH Hr).
Qed.

Lemma replace_char_no_char (a b : uchar) (l : ustring) :
  (b =? a)%N = false -> no_char a (replace_char a b l) = true.
Proof.
  intros Hb. induction l as [| c r IH]; [reflexivity |]. simpl.
  rewrite IH. destruct (c =? a)%N eqn:E; [now rewrite Hb | now rewrite E].
Qed.

Lemma replace_char_keeps_no_char (a b x : uchar) (l : ustring) :
  (b =? x)%N = false -> no_char x l = true ->
  no_char x (replace_char a b l) = true.
Proof.
  intros Hb. induction l as [| c r IH]; [reflexivity |]. simpl.
  intros H. apply andb_prop in H as [Hc Hr]. rewrite (IH Hr).
  destruct (c =? a)%N; [now rewrite Hb | now rewrite Hc].
Qed.

Lemma head_is_weaken (p q : uchar -> bool) (l : ustring) :
  (forall c, q c = true -> p c = true) ->
  head_is p l = false -> head_is q l = false.
Proof.
  intros H. destruct l as [| c r]; [reflexivity |]. simpl. intros Hp.
  destruct (q c) eqn:E; [| reflexivity]. apply H in E. congruence.
Qed.

(** Replacing a character by one that is neither a newline nor in
    [[\t\r ]] unless the replaced one is, keeps a text stable. *)
Lemma replace_char_nl_stable (a b : uchar) (l : ustring) :
  (a =? LF)%N = false -> (b =? LF)%N = false ->
  (is_hspace b = true -> is_hspace a = true) ->
  nl_stable l = true -> nl_stable (replace_char a b l) = true.
Proof.
  intros Ha Hb Hh.
  assert (HLF : forall c, is_char LF (if (c =? a)%N then b else c) =
                          is_char LF c).
  { intros c. unfold is_char. destruct (c =? a)%N eqn:E; [| reflexivity].
    apply N.eqb_eq in E. subst c. now rewrite Ha, Hb. }
  assert (HHS : forall c, is_hspace (if (c =? a)%N then b else c) = true ->
                          is_hspace c = true).
  { intros c. destruct (c =? a)%N eqn:E; [| auto].
    apply N.eqb_eq in E. subst c. exact Hh. }
  induction l as [| c r IH]; [reflexivity |].
  change (replace_char a b (c :: r))
    with ((if (c =? a)%N then b else c) :: replace_char a b r).
  rewrite !nl_stable_cons, !replace_char_head. intros Hs.
  apply andb_prop in Hs as [Hs Hr]. apply andb_prop in Hs as [H1 H2].
  rewrite (IH Hr), andb_true_r. apply andb_true_intro. split.
  - apply negb_true_iff. apply negb_true_iff in H1.
    apply andb_false_iff. apply andb_false_iff in H1 as [H1 | H1].
    + left. destruct (is_hspace (if (c =? a)%N then b else c)) eqn:E;
        [| reflexivity].
      apply HHS in E. congruence.
    + right. destruct r as [| d r']; [reflexivity |]. simpl in *.
      now rewrite HLF.
  - apply negb_true_iff. apply negb_true_iff in H2.
    apply andb_false_iff. apply andb_false_iff in H2 as [H2 | H2].
    + left. now rewrite HLF.
    + right. destruct r as [| d r']; [reflexivity |]. simpl in *.
      destruct (is_hspace (if (d =? a)%N then b else d)) eqn:E;
        [| reflexivity].
      apply HHS in E. congruence.
Qed.

Lemma no_LF_nl_stable (l : ustring) : no_char LF l = true -> nl_stable l = true.
Proof.
  induction l as [| c r IH]; [reflexivity |]. simpl. intros H.
  apply andb_prop in H as [Hc Hr]. rewrite (IH Hr), andb_true_r.
  apply negb_true_iff in Hc. unfold is_char at 2. rewrite Hc. simpl.
  rewrite andb_true_r. apply negb_true_iff.
  destruct (is_hspace c); [| reflexivity]. simpl.
  destruct r as [| d r']; [reflexivity |]. simpl in *.
  apply andb_prop in Hr as [Hd _]. now apply negb_true_iff in Hd.
Qed.

(** *** One text box *)

Lemma in2_cases (h a b : string) : in2 h a b = true -> h = a \/ h = b.
Proof.
  unfold in2. intros H. apply orb_prop in H as [H | H];
    apply String.eqb_eq in H; auto.
Qed.

Lemma startswith_head_is (c : uchar) (l : ustring) :
  startswith c l = head_is (is_char c) l.
Proof. destruct l; reflexivity. Qed.

Lemma tl_no_char (c : uchar) (l : ustring) :
  no_char c l = true -> no_char c (List.tl l) = true.
Proof.
  destruct l as [| d r]; [auto |]. simpl. intros H.
  now apply andb_prop in H as [_ H].
Qed.

Lemma tl_single_spaces (l : ustring) :
  single_spaces l = true -> single_spaces (List.tl l) = true.
Proof.
  destruct l as [| d r]; [auto |]. rewrite single_spaces_cons. intros H.
  now apply andb_prop in H as [_ H].
Qed.

Lemma tl_nl_stable (l : ustring) :
  nl_stable l = true -> nl_stable (List.tl l) = true.
Proof.
  destruct l as [| d r]; [auto |]. rewrite nl_stable_cons. intros H.
  now apply andb_prop in H as [_ H].
Qed.

(** Stripping the leading space a second time changes nothing. *)
Lemma strip_leading_space_once (f : bool) (c : ustring) :
  single_spaces c = true ->
  (if f && startswith SPACE
             (if f && startswith SPACE c then List.tl c else c)
   then List.tl (if f && startswith SPACE c then List.tl c else c)
   else if f && startswith SPACE c then List.tl c else c) =
  (if f && startswith SPACE c then List.tl c else c).
Proof.
  intros Hs. destruct f; [| reflexivity]. simpl.
  destruct (startswith SPACE c) eqn:E; [| now rewrite E].
  destruct c as [| d r]; [discriminate |]. simpl.
  rewrite single_spaces_cons in Hs. apply andb_prop in Hs as [H1 _].
  simpl in E. unfold is_char at 1 in H1. rewrite E in H1. simpl in H1.
  apply negb_true_iff in H1. rewrite startswith_head_is. now rewrite H1.
Qed.

Lemma normalize_text_normal_aux (handling : string) (following : bool)
    (text : ustring) :
  in2 handling "normal" "nowrap" = true ->
  no_char LF (fst (normalize_text handling following text)) = true /\
  no_char TAB (fst (normalize_text handling following text)) = true /\
  single_spaces (fst (normalize_text handling following text)) = true /\
  snd (normalize_text handling following text) =
    endswith SPACE (fst (normalize_text handling following text)).
Proof.
  intros H. unfold normalize_text.
  assert (Hp : in2 handling "pre" "pre-wrap" = false).
  { destruct (in2_cases _ _ _ H) as [-> | ->]; reflexivity. }
  rewrite Hp, H. simpl.
  set (c := re_sub m_spaces
              (replace_char TAB SPACE
                 (replace_char LF SPACE (re_sub m_newline text)))).
  assert (H1 : no_char LF c = true).
  { apply (re_sub_spaces_forallb_le _ _ _ (Nat.le_refl _)).
    apply replace_char_keeps_no_char; [reflexivity |].
    now apply replace_char_no_char. }
  assert (H2 : no_char TAB c = true).
  { apply (re_sub_spaces_forallb_le _ _ _ (Nat.le_refl _)).
    now apply replace_char_no_char. }
  assert (H3 : single_spaces c = true).
  { apply (re_sub_spaces_single_le _ _ (Nat.le_refl _)). }
  destruct (following && startswith SPACE c); simpl;
    auto using tl_no_char, tl_single_spaces.
Qed.

(** X2: under [normal] and [nowrap] the text that comes out has no
    newline, no tab and no two spaces in a row, and the flag is whether
    it ends with a space. *)
Theorem normalize_text_normal (handling : string) (following : bool)
    (text : ustring) :
  in2 handling "normal" "nowrap" = true ->
  no_char LF (fst (normalize_text handling following text)) = true /\
  no_char TAB (fst (normalize_text handling following text)) = true /\
  single_spaces (fst (normalize_text handling following text)) = true /\
  snd (normalize_text handling following text) =
    endswith SPACE (fst (normalize_text handling following text)).
Proof. exact (normalize_text_normal_aux handling following text). Qed.

Lemma normalize_text_normal_witness :
  in2 "nowrap" "normal" "nowrap" = true /\
  no_char LF
    (fst (normalize_text "nowrap" true
            [SPACE; SPACE; 97; TAB; 98; LF; SPACE; 99; SPACE; SPACE]%N))
  = true.
Proof.
  split; [reflexivity |].
  apply (normalize_text_normal "nowrap" true
           [SPACE; SPACE; 97; TAB; 98; LF; SPACE; 99; SPACE; SPACE]%N).
  reflexivity.
Defined.

Lemma normalize_text_again (handling : string) (following : bool)
    (text : ustring) :
  String.eqb handling "pre-wrap" = false ->
  normalize_text handling following
    (fst (normalize_text handling following text)) =
  normalize_text handling following text.
Proof.
  intros Hpw.
  destruct (in2 handling "normal" "nowrap") eqn:Hn.
  - destruct (normalize_text_normal_aux handling following text Hn)
      as (H1 & H2 & H3 & H4).
    revert H1 H2 H3 H4. unfold normalize_text.
    assert (Hp : in2 handling "pre" "pre-wrap" = false).
    { destruct (in2_cases _ _ _ Hn) as [-> | ->]; reflexivity. }
    rewrite Hp, Hn. simpl.
    set (c := re_sub m_spaces
                (replace_char TAB SPACE
                   (replace_char LF SPACE (re_sub m_newline text)))).
    assert (Hc : single_spaces c = true)
      by apply (re_sub_spaces_single_le _ _ (Nat.le_refl _)).
    set (out := if following && startswith SPACE c then List.tl c else c).
    assert (Hstrip : (if following && startswith SPACE out
                      then List.tl out else out) = out)
      by (unfold out; apply strip_leading_space_once; exact Hc).
    intros H1 H2 H3 _.
    rewrite (re_sub_newline_id out (no_LF_nl_stable out H1)).
    rewrite (replace_char_id LF SPACE out H1).
    rewrite (replace_char_id TAB SPACE out H2).
    rewrite (re_sub_spaces_id out H3). now rewrite Hstrip.
  - destruct (String.eqb handling "pre-line") eqn:Hl.
    + apply String.eqb_eq in Hl. subst handling. unfold normalize_text.
      simpl.
      set (c := re_sub m_spaces
                  (replace_char TAB SPACE (re_sub m_newline text))).
      assert (Hc : single_spaces c = true)
        by apply (re_sub_spaces_single_le _ _ (Nat.le_refl _)).
      assert (Ht : no_char TAB c = true).
      { apply (re_sub_spaces_forallb_le _ _ _ (Nat.le_refl _)).
        now apply replace_char_no_char. }
      assert (Hs : nl_stable c = true).
      { apply (re_sub_spaces_nl_stable_le _ _ (Nat.le_refl _)).
        apply replace_char_nl_stable; auto.
        apply (re_sub_newline_stable_le _ _ (Nat.le_refl _)). }
      set (out := if following && startswith SPACE c then List.tl c else c).
      assert (Hstrip : (if following && startswith SPACE out
                        then List.tl out else out) = out)
        by (unfold out; apply strip_leading_space_once; exact Hc).
      assert (Ho : single_spaces out = true /\ no_char TAB out = true /\
                   nl_stable out = true).
      { unfold out. destruct (following && startswith SPACE c);
          auto using tl_no_char, tl_single_spaces, tl_nl_stable. }
      destruct Ho as (Ho1 & Ho2 & Ho3).
      rewrite (re_sub_newline_id out Ho3).
      rewrite (replace_char_id TAB SPACE out Ho2).
      rewrite (re_sub_spaces_id out Ho1). now rewrite Hstrip.
    + unfold normalize_text. rewrite Hn, Hl, Hpw. simpl.
      destruct (in2 handling "pre" "pre-wrap") eqn:Hp; simpl.
      * assert (Hs : nl_stable
                       (replace_char SPACE NBSP (re_sub m_newline text)) = true).
        { apply replace_char_nl_stable;
            [reflexivity | reflexivity | discriminate |].
          apply (re_sub_newline_stable_le _ _ (Nat.le_refl _)). }
        rewrite (re_sub_newline_id _ Hs).
        rewrite (replace_char_id SPACE NBSP
                   (replace_char SPACE NBSP (re_sub m_newline text)));
          [reflexivity |].
        now apply replace_char_no_char.
      * now rewrite (re_sub_newline_id _
                       (re_sub_newline_stable_le _ _ (Nat.le_refl _))).
Qed.

(** *** The whole tree *)

Lemma process_whitespace_from_node (c : BoxClass) (e : Element)
    (kids : list Box) (following : bool) :
  process_whitespace_from following (Node c e kids) =
    (Node c e (fst (process_children following kids)),
     snd (process_children following kids)).
Proof.
  simpl. fold process_children.
  now destruct (process_children following kids).
Qed.

Lemma process_children_cons (k : Box) (r : list Box) (following : bool) :
  process_children following (k :: r) =
    (fst (process_whitespace_from following k)
       :: fst (process_children
                 (snd (process_whitespace_from following k)) r),
     snd (process_children (snd (process_whitespace_from following k)) r)).
Proof.
  simpl. destruct (process_whitespace_from following k) as [k' f1].
  fold process_children. simpl.
  now destruct (process_children f1 r).
Qed.

Lemma process_children_again (kids : list Box) :
  Forall (fun k => forall f,
            Forall rerun_safe (text_runs (fst (process_whitespace_from f k))) ->
            process_whitespace_from f (fst (process_whitespace_from f k)) =
            process_whitespace_from f k) kids ->
  forall f,
    Forall rerun_safe
      (concat (map text_runs (fst (process_children f kids)))) ->
    process_children f (fst (process_children f kids)) =
    process_children f kids.
Proof.
  induction 1 as [| k r Hk HF IH]; intros f Hs; [reflexivity |].
  rewrite process_children_cons in *. cbn [fst snd map concat] in *.
  apply Forall_app in Hs as [Hs1 Hs2].
  rewrite process_children_cons. rewrite (Hk f Hs1).
  now rewrite (IH _ Hs2).
Qed.

Lemma process_whitespace_from_again (b : Box) :
  forall f,
    Forall rerun_safe (text_runs (fst (process_whitespace_from f b))) ->
    process_whitespace_from f (fst (process_whitespace_from f b)) =
    process_whitespace_from f b.
Proof.
  induction b as [c e kids IH | e t] using Box_ind2; intros f Hs.
  - rewrite process_whitespace_from_node in *. cbn [fst snd] in *.
    rewrite process_whitespace_from_node.
    cbn [text_runs] in Hs. now rewrite (process_children_again kids IH f Hs).
  - simpl in *. destruct (truthy t) eqn:Ht.
    + pose proof (normalize_text_again
                    (white_space (box_style (Text e t))) f t) as Ha.
      unfold box_style, init_style in *. simpl in *.
      destruct (normalize_text (white_space (e_style e)) f t) as [t1 f1] eqn:E.
      simpl in *. inversion Hs as [| ? ? [Hpw Hne] _]; subst. simpl in *.
      destruct t1 as [| x t1]; [congruence |]. simpl.
      rewrite Ha; [reflexivity |].
      destruct (String.eqb (white_space (e_style e)) "pre-wrap") eqn:Epw;
        [| reflexivity].
      apply String.eqb_eq in Epw. congruence.
    + simpl. now rewrite Ht.
Qed.

(** X3: when, in the tree [process_whitespace] leaves, no text box is
    empty and none has the mode [pre-wrap], running [process_whitespace]
    again changes nothing. *)
Theorem process_whitespace_twice (b : Box) :
  Forall rerun_safe (text_runs (process_whitespace b)) ->
  process_whitespace (process_whitespace b) = process_whitespace b.
Proof.
  unfold process_whitespace. intros H.
  now rewrite (process_whitespace_from_again b false H).
Qed.

Lemma process_whitespace_twice_witness :
  process_whitespace
    (process_whitespace
       (Node BlockBox p_hidden
          [Text p_hidden (utext "a "); Text p_hidden (utext " b")])) =
  Node BlockBox p_hidden
    [Text p_hidden (utext "a "); Text p_hidden (utext "b")].
Proof.
  rewrite (process_whitespace_twice
             (Node BlockBox p_hidden
                [Text p_hidden (utext "a "); Text p_hidden (utext " b")])).
  - reflexivity.
  - repeat constructor; simpl; discriminate.
Defined.

Lemma mark_runs_no_char (c : uchar) (l : ustring) :
  (ZWSP =? c)%N = false -> no_char c l = true ->
  no_char c (mark_runs l) = true.
Proof.
  intros Hz. induction l as [| d r IH]; [reflexivity |].
  rewrite mark_runs_cons. intros H.
  change (no_char c (d :: r))
    with (negb (d =? c)%N && no_char c r) in H.
  apply andb_prop in H as [Hd Hr]. specialize (IH Hr).
  destruct ((d =? NBSP)%N && negb (startswith NBSP r)).
  - change (negb (d =? c)%N && (negb (ZWSP =? c)%N && no_char c (mark_runs r))
            = true).
    now rewrite Hd, Hz, IH.
  - change (negb (d =? c)%N && no_char c (mark_runs r) = true).
    now rewrite Hd, IH.
Qed.

(** X4: under [pre] and [pre-wrap] the text that comes out contains no
    plain space (U+0020), and the flag [following_collapsible_space]
    comes out false. *)
Theorem normalize_text_pre (handling : string) (following : bool)
    (text : ustring) :
  in2 handling "pre" "pre-wrap" = true ->
  no_char SPACE (fst (normalize_text handling following text)) = true /\
  snd (normalize_text handling following text) = false.
Proof.
  intros H. unfold normalize_text. rewrite H.
  assert (Hc : in2 handling "normal" "nowrap" || String.eqb handling "pre-line"
               = false).
  { destruct (in2_cases _ _ _ H) as [-> | ->]; reflexivity. }
  rewrite Hc. simpl. split; [| reflexivity].
  destruct (String.eqb handling "pre-wrap").
  - rewrite re_sub_nbsp_mark_runs. apply mark_runs_no_char; [reflexivity |].
    now apply replace_char_no_char.
  - now apply replace_char_no_char.
Qed.

Lemma normalize_text_pre_witness :
  in2 "pre" "pre" "pre-wrap" = true /\
  normalize_text "pre" true (utext " a  b ") =
    ([NBSP; 97; NBSP; NBSP; 98; NBSP]%N, false).
Proof.
  split; [reflexivity |].
  pose proof (normalize_text_pre "pre" true (utext " a  b ") eq_refl)
    as [_ H].
  destruct (normalize_text "pre" true (utext " a  b ")) as [t f] eqn:E.
  simpl in H. subst f. vm_compute in E. now injection E as <-.
Defined.

Lemma process_children_erase (kids : list Box) :
  Forall (fun k => forall f,
            erase_text (fst (process_whitespace_from f k)) = erase_text k)
    kids ->
  forall f,
    map erase_text (fst (process_children f kids)) = map erase_text kids.
Proof.
  induction 1 as [| k r Hk HF IH]; intros f; [reflexivity |].
  rewrite process_children_cons. cbn [fst map]. now rewrite Hk, IH.
Qed.

Lemma process_whitespace_keeps_boxes_aux (b : Box) :
  erase_text (process_whitespace b) = erase_text b /\
  (forall following,
      erase_text (fst (process_whitespace_from following b)) = erase_text b).
Proof.
  assert (H : forall f,
             erase_text (fst (process_whitespace_from f b)) = erase_text b).
  { induction b as [c e kids IH | e t] using Box_ind2; intros f.
    - rewrite process_whitespace_from_node. cbn [fst erase_text].
      now rewrite (process_children_erase kids IH f).
    - simpl. destruct (truthy t); [| reflexivity].
      now destruct (normalize_text _ _ _). }
  split; [apply H | exact H].
Qed.

(** X5: [process_whitespace] changes texts only: the boxes, their classes,
    their elements and their order stay as they are, whatever the flag it
    starts with. *)
Theorem process_whitespace_keeps_boxes (b : Box) :
  erase_text (process_whitespace b) = erase_text b /\
  (forall following,
      erase_text (fst (process_whitespace_from following b)) = erase_text b).
Proof. exact (process_whitespace_keeps_boxes_aux b). Qed.

(** ** [inline_in_block] *)

Lemma inline_in_block_node (c : BoxClass) (e : Element) (kids : list Box) :
  inline_in_block (Node c e kids) =
    if negb (is_BlockContainerBox c)
    then Node c e (map inline_in_block kids)
    else Node c e
           (inline_in_block_finish e
              (fold_left (inline_in_block_step e) (map inline_in_block kids)
                 ([], []))).
Proof. reflexivity. Qed.

Lemma inline_in_block_class (b : Box) :
  box_class (inline_in_block b) = box_class b.
Proof.
  destruct b as [c e kids | e t]; [| reflexivity].
  rewrite inline_in_block_node. now destruct (negb (is_BlockContainerBox c)).
Qed.

Lemma unwrap_wrap_line (e : Element) (line : list Box) :
  unwrap (wrap_line e line) = flat_map unwrap line.
Proof. unfold wrap_line. simpl. now rewrite app_nil_r. Qed.

Lemma unwrap_line_box (b : Box) :
  is_LineBox (box_class b) = true ->
  unwrap b = flat_map unwrap (box_children b).
Proof.
  destruct b as [c e kids | e t]; [| discriminate]. simpl. now intros ->.
Qed.

Lemma flat_map_one {A B} (f : A -> list B) (x : A) : flat_map f [x] = f x.
Proof. simpl. apply app_nil_r. Qed.

Lemma inline_in_block_step_unwrap (e : Element) (st : list Box * list Box)
    (child : Box) :
  flat_map unwrap (fst (inline_in_block_step e st child))
    ++ flat_map unwrap (snd (inline_in_block_step e st child)) =
  (flat_map unwrap (fst st) ++ flat_map unwrap (snd st)) ++ unwrap child.
Proof.
  destruct st as [new line]. unfold inline_in_block_step. cbn [fst snd].
  destruct (is_BlockLevelBox (box_class child)).
  - destruct line as [| l0 line]; cbn [truthy_list fst snd].
    + rewrite flat_map_app, flat_map_one. cbn [flat_map].
      now rewrite !app_nil_r.
    + rewrite !flat_map_app, !flat_map_one, unwrap_wrap_line.
      cbn [flat_map]. now rewrite app_nil_r, <- !app_assoc.
  - destruct (is_LineBox (box_class child)) eqn:El; cbn [fst snd].
    + rewrite flat_map_app, (unwrap_line_box child El).
      now rewrite <- !app_assoc.
    + rewrite flat_map_app, flat_map_one. now rewrite <- !app_assoc.
Qed.

Lemma inline_in_block_fold_unwrap (e : Element) (kids : list Box) :
  forall st,
    flat_map unwrap (fst (fold_left (inline_in_block_step e) kids st))
      ++ flat_map unwrap (snd (fold_left (inline_in_block_step e) kids st)) =
    (flat_map unwrap (fst st) ++ flat_map unwrap (snd st))
      ++ flat_map unwrap kids.
Proof.
  induction kids as [| k r IH]; intros st; simpl.
  - now rewrite app_nil_r.
  - rewrite IH, inline_in_block_step_unwrap. now rewrite <- !app_assoc.
Qed.

Lemma inline_in_block_finish_unwrap (e : Element) (st : list Box * list Box) :
  flat_map unwrap (inline_in_block_finish e st) =
  flat_map unwrap (fst st) ++ flat_map unwrap (snd st).
Proof.
  destruct st as [new line]. unfold inline_in_block_finish. cbn [fst snd].
  destruct line as [| l0 line]; cbn [truthy_list flat_map];
    [now rewrite app_nil_r |].
  destruct (truthy_list new); rewrite flat_map_app, flat_map_one.
  - now rewrite unwrap_wrap_line.
  - cbn [unwrap is_LineBox orb]. reflexivity.
Qed.

(** X6: apart from the anonymous wrappers it adds or merges,
    [inline_in_block] keeps every box, with its class, element and text,
    in the same order and the same nesting. *)
Theorem inline_in_block_keeps_content (b : Box) :
  unwrap (inline_in_block b) = unwrap b.
Proof.
  induction b as [c e kids IH | e t] using Box_ind2; [| reflexivity].
  assert (Hk : flat_map unwrap (map inline_in_block kids) =
               flat_map unwrap kids).
  { induction IH as [| k r Hk HF IHr]; [reflexivity |]. simpl.
    now rewrite Hk, IHr. }
  rewrite inline_in_block_node.
  destruct (is_BlockContainerBox c) eqn:Ec; simpl.
  - rewrite inline_in_block_finish_unwrap, inline_in_block_fold_unwrap.
    simpl. now rewrite Hk.
  - now rewrite Hk.
Qed.

Lemma well_nested_wrap_line (e : Element) (line : list Box) :
  forallb (fun k => negb (is_block_level k)) line = true ->
  forallb well_nested line = true ->
  well_nested (wrap_line e line) = true /\
  well_nested (Node LineBox e line) = true.
Proof.
  intros H1 H2.
  assert (Hl : well_nested (Node LineBox e line) = true).
  { change (true && forallb (fun k => negb (is_block_level k)) line
            && forallb well_nested line = true).
    now rewrite H1, H2. }
  split; [| exact Hl]. unfold wrap_line.
  change (true && true && (well_nested (Node LineBox e line) && true) = true).
  now rewrite Hl.
Qed.

Lemma step_inv_intro (new line : list Box) :
  forallb is_block_level new = true -> forallb well_nested new = true ->
  forallb (fun k => negb (is_block_level k)) line = true ->
  forallb well_nested line = true ->
  step_inv (new, line) = true.
Proof. unfold step_inv. simpl. now intros -> -> -> ->. Qed.

Lemma step_inv_elim (new line : list Box) :
  step_inv (new, line) = true ->
  forallb is_block_level new = true /\ forallb well_nested new = true /\
  forallb (fun k => negb (is_block_level k)) line = true /\
  forallb well_nested line = true.
Proof.
  unfold step_inv. simpl. intros H.
  apply andb_prop in H as [H H4]. apply andb_prop in H as [H H3].
  apply andb_prop in H as [H1 H2]. auto.
Qed.

Lemma inline_in_block_step_inv (e : Element) (st : list Box * list Box)
    (child : Box) :
  step_inv st = true -> well_nested child = true ->
  step_inv (inline_in_block_step e st child) = true.
Proof.
  destruct st as [new line]. intros Hst Hc.
  apply step_inv_elim in Hst as (H1 & H2 & H3 & H4).
  unfold inline_in_block_step.
  destruct (is_BlockLevelBox (box_class child)) eqn:Eb.
  - assert (Hb : is_block_level child = true) by exact Eb.
    destruct line as [| l0 line]; cbn [truthy_list].
    + apply step_inv_intro; auto; rewrite forallb_app; cbn [forallb].
      * now rewrite H1, Hb.
      * now rewrite H2, Hc.
    + destruct (well_nested_wrap_line e (l0 :: line) H3 H4) as [Hw _].
      apply step_inv_intro; auto; rewrite !forallb_app; cbn [forallb].
      * rewrite H1, Hb. reflexivity.
      * now rewrite H2, Hw, Hc.
  - assert (Hb : is_block_level child = false) by exact Eb.
    destruct (is_LineBox (box_class child)) eqn:El.
    + destruct child as [c e' ks | e' t]; [| discriminate].
      cbn [box_class] in El. cbn [well_nested] in Hc. rewrite El in Hc.
      apply andb_prop in Hc as [Hc Hk]. apply andb_prop in Hc as [_ Hn].
      apply step_inv_intro; auto; rewrite forallb_app; cbn [box_children].
      * now rewrite H3, Hn.
      * now rewrite H4, Hk.
    + apply step_inv_intro; auto; rewrite forallb_app; cbn [forallb].
      * now rewrite H3, Hb.
      * now rewrite H4, Hc.
Qed.

Lemma inline_in_block_fold_inv (e : Element) (kids : list Box) :
  forallb well_nested kids = true ->
  forall st, step_inv st = true ->
             step_inv (fold_left (inline_in_block_step e) kids st) = true.
Proof.
  induction kids as [| k r IH]; intros Hk st Hst; [exact Hst |].
  simpl in *. apply andb_prop in Hk as [Hk Hr].
  apply IH; [exact Hr |]. now apply inline_in_block_step_inv.
Qed.

Lemma inline_in_block_finish_ok (e : Element) (st : list Box * list Box) :
  step_inv st = true ->
  container_children_ok (inline_in_block_finish e st) = true /\
  forallb well_nested (inline_in_block_finish e st) = true.
Proof.
  destruct st as [new line]. intros Hst.
  apply step_inv_elim in Hst as (H1 & H2 & H3 & H4).
  unfold inline_in_block_finish, container_children_ok.
  destruct line as [| l0 line]; cbn [truthy_list].
  - now rewrite H1, H2.
  - destruct (well_nested_wrap_line e (l0 :: line) H3 H4) as [Hw Hl].
    destruct new as [| n0 new]; cbn [truthy_list].
    + cbn [app forallb]. rewrite Hl. split; [| reflexivity].
      cbn [box_class is_LineBox]. now rewrite orb_true_r.
    + rewrite !forallb_app, H1, H2. cbn [forallb]. rewrite Hw.
      split; reflexivity.
Qed.

Lemma inline_in_block_well_nested_aux (b : Box) :
  lines_ok b = true -> well_nested (inline_in_block b) = true.
Proof.
  induction b as [c e kids IH | e t] using Box_ind2; [| reflexivity].
  intros Hl. cbn [lines_ok] in Hl. apply andb_prop in Hl as [Hline Hkids].
  assert (Hk : forallb well_nested (map inline_in_block kids) = true).
  { clear Hline. induction IH as [| k r Hk HF IHr]; [reflexivity |].
    simpl in *. apply andb_prop in Hkids as [H1 H2].
    now rewrite (Hk H1), (IHr H2). }
  rewrite inline_in_block_node.
  destruct (is_BlockContainerBox c) eqn:Ec; cbn [negb well_nested].
  - rewrite Ec.
    destruct (inline_in_block_finish_ok e
                (fold_left (inline_in_block_step e)
                   (map inline_in_block kids) ([], [])))
      as [H1 H2].
    { apply inline_in_block_fold_inv; [exact Hk | reflexivity]. }
    rewrite H1, H2. destruct c; try discriminate; reflexivity.
  - rewrite Ec, Hk, andb_true_r. simpl.
    destruct (is_LineBox c); [| reflexivity].
    rewrite <- Hline. clear. induction kids as [| k r IHr]; [reflexivity |].
    cbn [map forallb]. rewrite IHr. f_equal. unfold is_block_level.
    now rewrite inline_in_block_class.
Qed.

(** X7: on a tree in which no line box has a block-level child (so on
    every tree [dom_to_box] builds, which has no line box at all),
    [inline_in_block] leaves every block container with children that are
    all block-level or are one line box, and leaves no line box with a
    block-level child. *)
Theorem inline_in_block_well_nested (b : Box) :
  lines_ok b = true -> well_nested (inline_in_block b) = true.
Proof. exact (inline_in_block_well_nested_aux b). Qed.

Lemma inline_in_block_well_nested_witness :
  well_nested
    (inline_in_block
       (Node BlockBox p_element
          [Text p_element (utext "a"); Node BlockBox div_element [];
           Text p_element (utext "b")])) = true.
Proof.
  apply (inline_in_block_well_nested
           (Node BlockBox p_element
              [Text p_element (utext "a"); Node BlockBox div_element [];
               Text p_element (utext "b")])).
  reflexivity.
Defined.

Lemma inline_in_block_line_children (c : BoxClass) (e : Element)
    (ks : list Box) :
  is_LineBox c = true ->
  inline_in_block (Node c e ks) = Node c e ks ->
  map inline_in_block ks = ks.
Proof.
  intros Hc. rewrite inline_in_block_node.
  destruct c; try discriminate. simpl. now intros [= ->].
Qed.

Lemma inline_in_block_fold_blocks (e : Element) (l : list Box) :
  forallb is_block_level l = true ->
  forall acc,
    fold_left (inline_in_block_step e) l (acc, []) = (acc ++ l, []).
Proof.
  induction l as [| k r IH]; intros H acc; simpl.
  - now rewrite app_nil_r.
  - simpl in H. apply andb_prop in H as [Hk Hr].
    unfold is_block_level in Hk. rewrite Hk. simpl.
    rewrite (IH Hr). now rewrite <- app_assoc.
Qed.

Lemma inline_in_block_wrap_line (e : Element) (line : list Box) :
  map inline_in_block line = line -> truthy_list line = true ->
  inline_in_block (wrap_line e line) = wrap_line e line.
Proof.
  intros Hm Hne. unfold wrap_line. rewrite inline_in_block_node.
  cbn [is_BlockContainerBox negb map]. rewrite inline_in_block_node.
  cbn [is_BlockContainerBox negb]. rewrite Hm.
  cbn [fold_left inline_in_block_step box_class is_BlockLevelBox is_LineBox
       box_children app inline_in_block_finish truthy_list].
  now rewrite Hne.
Qed.

Lemma inline_in_block_step_fixed (e : Element) (new line : list Box)
    (child : Box) :
  map inline_in_block new = new -> forallb is_block_level new = true ->
  map inline_in_block line = line ->
  inline_in_block child = child ->
  map inline_in_block (fst (inline_in_block_step e (new, line) child)) =
    fst (inline_in_block_step e (new, line) child) /\
  forallb is_block_level (fst (inline_in_block_step e (new, line) child)) =
    true /\
  map inline_in_block (snd (inline_in_block_step e (new, line) child)) =
    snd (inline_in_block_step e (new, line) child).
Proof.
  intros Hn Hb Hl Hc. unfold inline_in_block_step.
  destruct (is_BlockLevelBox (box_class child)) eqn:Eb.
  - assert (Hcb : is_block_level child = true) by exact Eb.
    destruct (truthy_list line) eqn:Et; cbn [fst snd].
    + rewrite !map_app, !forallb_app, Hn, Hb. cbn [map forallb].
      rewrite Hc, Hcb, (inline_in_block_wrap_line e line Hl Et).
      repeat split; auto.
    + rewrite map_app, forallb_app, Hn, Hb. cbn [map forallb].
      rewrite Hc, Hcb. repeat split; auto.
  - destruct (is_LineBox (box_class child)) eqn:El; cbn [fst snd].
    + destruct child as [c e' ks | e' t]; [| discriminate].
      cbn [box_class box_children] in *.
      rewrite map_app, Hl, (inline_in_block_line_children c e' ks El Hc).
      repeat split; auto.
    + rewrite map_app, Hl. cbn [map]. rewrite Hc. repeat split; auto.
Qed.

Lemma inline_in_block_fold_fixed (e : Element) (kids : list Box) :
  map inline_in_block kids = kids ->
  forall new line,
    map inline_in_block new = new -> forallb is_block_level new = true ->
    map inline_in_block line = line ->
    map inline_in_block
      (fst (fold_left (inline_in_block_step e) kids (new, line))) =
      fst (fold_left (inline_in_block_step e) kids (new, line)) /\
    forallb is_block_level
      (fst (fold_left (inline_in_block_step e) kids (new, line))) = true /\
    map inline_in_block
      (snd (fold_left (inline_in_block_step e) kids (new, line))) =
      snd (fold_left (inline_in_block_step e) kids (new, line)).
Proof.
  induction kids as [| k r IH]; intros Hk new line Hn Hb Hl.
  - simpl. auto.
  - cbn [map] in Hk. injection Hk as Hk Hr. cbn [fold_left].
    destruct (inline_in_block_step_fixed e new line k Hn Hb Hl Hk)
      as (H1 & H2 & H3).
    destruct (inline_in_block_step e (new, line) k) as [new' line'].
    now apply IH.
Qed.

Lemma inline_in_block_finish_fixed (c : BoxClass) (e : Element)
    (new line : list Box) :
  is_BlockContainerBox c = true ->
  map inline_in_block new = new -> forallb is_block_level new = true ->
  map inline_in_block line = line ->
  inline_in_block (Node c e (inline_in_block_finish e (new, line))) =
  Node c e (inline_in_block_finish e (new, line)).
Proof.
  intros Hc Hn Hb Hl. rewrite inline_in_block_node, Hc. cbn [negb].
  f_equal. unfold inline_in_block_finish at 2 3.
  destruct line as [| l0 line]; cbn [truthy_list].
  - rewrite Hn, (inline_in_block_fold_blocks e new Hb). reflexivity.
  - pose proof (inline_in_block_wrap_line e (l0 :: line) Hl eq_refl) as Hw.
    destruct new as [| n0 new]; cbn [truthy_list].
    + cbn [app map]. rewrite inline_in_block_node.
      cbn [is_BlockContainerBox negb]. rewrite Hl. reflexivity.
    + rewrite map_app, Hn. cbn [map]. rewrite Hw.
      rewrite inline_in_block_fold_blocks.
      * reflexivity.
      * rewrite forallb_app, Hb. reflexivity.
Qed.

(** X8: running [inline_in_block] a second time changes nothing. *)
Theorem inline_in_block_idempotent (b : Box) :
  inline_in_block (inline_in_block b) = inline_in_block b.
Proof.
  induction b as [c e kids IH | e t] using Box_ind2; [| reflexivity].
  assert (Hk : map inline_in_block (map inline_in_block kids) =
               map inline_in_block kids).
  { induction IH as [| k r Hk HF IHr]; [reflexivity |]. simpl.
    now rewrite Hk, IHr. }
  rewrite (inline_in_block_node c e kids).
  destruct (is_BlockContainerBox c) eqn:Ec; cbn [negb].
  - destruct (inline_in_block_fold_fixed e (map inline_in_block kids) Hk
                [] [] eq_refl eq_refl eq_refl) as (H1 & H2 & H3).
    destruct (fold_left (inline_in_block_step e) (map inline_in_block kids)
                ([], [])) as [new line].
    now apply inline_in_block_finish_fixed.
  - rewrite inline_in_block_node, Ec. cbn [negb]. now rewrite Hk.
Qed.

(** ** What [dom_to_box] builds *)

Lemma dom_children_loop_boxes (element : Element) (cs : list Element) :
  Forall (fun ch => forall b, dom_to_box ch = Ok b ->
                              element_boxes_only b = true) cs ->
  forall acc kids,
    forallb element_boxes_only acc = true ->
    dom_children_loop element cs acc = Ok kids ->
    forallb element_boxes_only kids = true.
Proof.
  induction 1 as [| ch cs Hch HF IH]; intros acc kids Hacc H; simpl in H.
  - now injection H as <-.
  - assert (Htail : forall acc1,
              forallb element_boxes_only acc1 = true ->
              forallb element_boxes_only
                (if truthy (e_tail ch)
                 then acc1 ++ [Text element (e_tail ch)] else acc1) = true).
    { intros acc1 H1. destruct (truthy (e_tail ch)) eqn:Et; [| exact H1].
      rewrite forallb_app, H1. simpl. now rewrite Et. }
    destruct (String.eqb (display (e_style ch)) "none"); simpl in H.
    + apply (IH _ _ (Htail acc Hacc) H).
    + destruct (dom_to_box ch) as [b | |] eqn:Eb; try discriminate.
      refine (IH _ _ (Htail (acc ++ [b]) _) H).
      rewrite forallb_app, Hacc. simpl. now rewrite (Hch b eq_refl).
Qed.

Lemma dom_to_box_boxes_aux (e : Element) (b : Box) :
  dom_to_box e = Ok b ->
  box_element b = e /\
  box_class b =
    (if in2 (display (e_style e)) "block" "list-item" then BlockBox
     else if String.eqb (display (e_style e)) "inline" then InlineBox
     else InlineBlockBox) /\
  element_boxes_only b = true.
Proof.
  revert b. induction e as [tg s t cs tl IH] using Element_ind2.
  intros b H. pose proof H as H0.
  apply dom_to_box_unfold in H as (c & kids & -> & Hl).
  assert (Hk : forallb element_boxes_only kids = true).
  { assert (IH' : Forall (fun ch => forall b, dom_to_box ch = Ok b ->
                                      element_boxes_only b = true) cs).
    { clear - IH. induction IH as [| ch cs Hch HF IHF]; constructor; auto.
      intros b Hb. now apply Hch. }
    refine (dom_children_loop_boxes _ _ IH' _ _ _ Hl).
    unfold text_box_if. simpl. destruct (truthy t) eqn:Et; simpl;
      now rewrite ?Et. }
  split; [reflexivity |]. simpl in H0 |- *.
  destruct (String.eqb (display s) "none"); [discriminate |].
  destruct (in2 (display s) "block" "list-item").
  - fold (dom_children_loop (mkElement tg s t cs tl)) in H0.
    unfold text_box_if in Hl. simpl in Hl. rewrite Hl in H0.
    injection H0 as <-. split; [reflexivity | exact Hk].
  - destruct (String.eqb (display s) "inline").
    + fold (dom_children_loop (mkElement tg s t cs tl)) in H0.
      unfold text_box_if in Hl. simpl in Hl. rewrite Hl in H0.
      injection H0 as <-. split; [reflexivity | exact Hk].
    + destruct (String.eqb (display s) "inline-block"); [| discriminate].
      fold (dom_children_loop (mkElement tg s t cs tl)) in H0.
      unfold text_box_if in Hl. simpl in Hl. rewrite Hl in H0.
      injection H0 as <-. split; [reflexivity | exact Hk].
Qed.

(** X9: a box [dom_to_box] returns is a [BlockBox] for the displays
    [block] and [list-item], an [InlineBox] for [inline], an
    [InlineBlockBox] for [inline-block]; it references the element; below
    it there are only such boxes and text boxes with a non-empty text: no
    anonymous block box, no line box, no replaced box. *)
Theorem dom_to_box_boxes (e : Element) (b : Box) :
  dom_to_box e = Ok b ->
  box_element b = e /\
  box_class b =
    (if in2 (display (e_style e)) "block" "list-item" then BlockBox
     else if String.eqb (display (e_style e)) "inline" then InlineBox
     else InlineBlockBox) /\
  element_boxes_only b = true.
Proof. exact (dom_to_box_boxes_aux e b). Qed.

Lemma dom_to_box_boxes_witness :
  box_class (Node BlockBox p_element p_inline_content) = BlockBox /\
  element_boxes_only (Node BlockBox p_element p_inline_content) = true.
Proof.
  destruct (dom_to_box_boxes p_element
              (Node BlockBox p_element p_inline_content) eq_refl)
    as (_ & H1 & H2).
  split; [exact H1 | exact H2].
Defined.

Lemma element_boxes_lines_ok (b : Box) :
  element_boxes_only b = true -> lines_ok b = true.
Proof.
  induction b as [c e kids IH | e t] using Box_ind2; [| reflexivity].
  intros H. cbn [element_boxes_only] in H. cbn [lines_ok].
  assert (Hk : forallb element_boxes_only kids = true)
    by (destruct c; try discriminate; exact H).
  assert (Hc : is_LineBox c = false) by (destruct c; try discriminate; auto).
  rewrite Hc. simpl. clear H Hc.
  induction IH as [| k r Hk' HF IHr]; [reflexivity |]. simpl in *.
  apply andb_prop in Hk as [H1 H2]. now rewrite (Hk' H1), (IHr H2).
Qed.

Lemma erase_text_class (b : Box) : box_class (erase_text b) = box_class b.
Proof. destruct b; reflexivity. Qed.

Lemma lines_ok_erase_text (b : Box) : lines_ok (erase_text b) = lines_ok b.
Proof.
  induction b as [c e kids IH | e t] using Box_ind2; [| reflexivity].
  cbn [erase_text lines_ok]. f_equal.
  - destruct (is_LineBox c); [| reflexivity]. clear IH.
    induction kids as [| k r IHr]; [reflexivity |]. cbn [map forallb].
    rewrite IHr. unfold is_block_level. now rewrite erase_text_class.
  - induction IH as [| k r Hk HF IHr]; [reflexivity |]. cbn [map forallb].
    now rewrite Hk, IHr.
Qed.

(** X10: for every element [dom_to_box] builds a box for, after
    [process_whitespace] and [inline_in_block] every block container of
    the tree has children that are all block-level or are one line box,
    and no line box has a block-level child. *)
Theorem built_tree_well_nested (e : Element) (b : Box) :
  dom_to_box e = Ok b ->
  well_nested (inline_in_block (process_whitespace b)) = true.
Proof.
  intros H. apply inline_in_block_well_nested_aux.
  rewrite <- lines_ok_erase_text.
  rewrite (proj1 (process_whitespace_keeps_boxes_aux b)).
  rewrite lines_ok_erase_text. apply element_boxes_lines_ok.
  now apply (dom_to_box_boxes_aux e b).
Qed.

Lemma built_tree_well_nested_witness :
  well_nested
    (inline_in_block
       (process_whitespace (Node BlockBox p_element p_inline_content))) = true.
Proof. apply (built_tree_well_nested p_element). reflexivity. Defined.

(** ** The order in which [process_whitespace] goes through the texts *)

Lemma text_runs_descendants (b : Box) :
  text_runs b = flat_map text_run (descendants b).
Proof.
  induction b as [c e kids IH | e t] using Box_ind2; [| reflexivity].
  cbn [text_runs descendants flat_map text_run app].
  induction IH as [| k r Hk HF IHr]; [reflexivity |].
  cbn [map concat flat_map]. rewrite flat_map_app. now rewrite Hk, IHr.
Qed.

Lemma scan_runs_app (rs1 rs2 : list (string * ustring)) (f : bool) :
  scan_runs f (rs1 ++ rs2) =
    (fst (scan_runs f rs1) ++ fst (scan_runs (snd (scan_runs f rs1)) rs2),
     snd (scan_runs (snd (scan_runs f rs1)) rs2)).
Proof.
  revert f. induction rs1 as [| [h t] r IH]; intros f.
  - simpl. now destruct (scan_runs f rs2).
  - cbn [app scan_runs]. destruct (truthy t).
    + destruct (normalize_text h f t) as [t' f1]. rewrite IH.
      destruct (scan_runs f1 r) as [r' f2]. reflexivity.
    + rewrite IH. destruct (scan_runs f r) as [r' f2]. reflexivity.
Qed.

Lemma process_children_scan (kids : list Box) :
  Forall (fun k => forall f,
            text_runs (fst (process_whitespace_from f k)) =
              fst (scan_runs f (text_runs k)) /\
            snd (process_whitespace_from f k) =
              snd (scan_runs f (text_runs k))) kids ->
  forall f,
    concat (map text_runs (fst (process_children f kids))) =
      fst (scan_runs f (concat (map text_runs kids))) /\
    snd (process_children f kids) =
      snd (scan_runs f (concat (map text_runs kids))).
Proof.
  induction 1 as [| k r Hk HF IH]; intros f; [split; reflexivity |].
  rewrite process_children_cons. cbn [fst snd map concat].
  rewrite scan_runs_app. cbn [fst snd].
  destruct (Hk f) as [H1 H2]. rewrite H1, H2.
  destruct (IH (snd (scan_runs f (text_runs k)))) as [H3 H4].
  now rewrite H3, H4.
Qed.

(** X11: [process_whitespace] treats the text boxes in the order of
    [box.descendants()] as one sequence: what it does to the texts, and
    the flag it ends with, are those of a single left-to-right pass over
    that sequence; boxes without text and the nesting of the boxes play no
    part. *)
Theorem process_whitespace_in_traversal_order (b : Box) (following : bool) :
  text_runs b = flat_map text_run (descendants b) /\
  text_runs (fst (process_whitespace_from following b)) =
    fst (scan_runs following (text_runs b)) /\
  snd (process_whitespace_from following b) =
    snd (scan_runs following (text_runs b)).
Proof.
  split; [apply text_runs_descendants |].
  revert following.
  induction b as [c e kids IH | e t] using Box_ind2; intros f.
  - rewrite process_whitespace_from_node. cbn [fst snd text_runs].
    apply (process_children_scan kids IH f).
  - cbn [process_whitespace_from text_runs scan_runs].
    destruct (truthy t); [| split; reflexivity].
    destruct (normalize_text (white_space (box_style (Text e t))) f t)
      as [t' f1].
    split; reflexivity.
Qed.

(** ** Children lists: insert, index, remove *)




Lemma inserted_list (index : option Z) (x : nat) (l : list nat) :
  match index with
  | None => l ++ [x]
  | Some i => py_insert i x l
  end =
  take (insert_position index (length l)) l
    ++ x :: drop (insert_position index (length l)) l.
Proof.
  destruct index as [i |]; [reflexivity |].
  unfold insert_position. now rewrite firstn_all, drop_all.
Qed.




(** ** [block_in_inline]: when the ancestry is not as expected *)

Lemma find_ancestry_inline_chain (l : list ref) :
  forall h box acc fuel stop,
    parent_chain h box l ->
    Forall (fun r => exists c, class_of h r = Some c /\ is_InlineBox c = true)
      l ->
    boxes h !! List.last l box = Some stop ->
    length l < fuel ->
    find_ancestry fuel box acc h =
      match o_parent stop with
      | None => Ok ((acc ++ l, None), h)
      | Some q =>
          find_ancestry (fuel - length l) (List.last l box) (acc ++ l) h
      end.
Proof.
  induction l as [| q l IH]; intros h box acc fuel stop Hch HF Hstop Hfuel.
  - simpl in *. rewrite app_nil_r, Nat.sub_0_r.
    destruct fuel as [| fuel]; [lia |]. simpl. unfold bind, get_box.
    rewrite Hstop. destruct (o_parent stop); reflexivity.
  - destruct Hch as [Hp Hch]. inversion HF as [| ? ? (c & Hc & Hi) HF']; subst.
    destruct fuel as [| fuel]; [simpl in Hfuel; lia |].
    change (find_ancestry (S fuel) box acc h) with
      (bind (get_box box)
         (fun o =>
            match o_parent o with
            | None => ret (acc, None)
            | Some parent =>
                bind (get_box parent)
                  (fun po =>
                     if negb (is_InlineBox (o_cls po)) then
                       if is_LineBox (o_cls po)
                       then ret (acc ++ [parent], Some parent)
                       else raise AssertionError
                     else find_ancestry fuel parent (acc ++ [parent])) 
            end) h).
    unfold bind at 1. unfold get_box at 1. unfold parent_of in Hp.
    destruct (boxes h !! box) as [o |]; [| discriminate]. simpl in Hp.
    rewrite Hp. unfold bind, get_box. unfold class_of in Hc.
    destruct (boxes h !! q) as [qo |]; [| discriminate].
    injection Hc as <-. rewrite Hi. cbn [negb].
    assert (Hlast : List.last (q :: l) box = List.last l q).
    { clear. revert q. induction l as [| a l IHl]; intros q; [reflexivity |].
      change (List.last (a :: l) box = List.last (a :: l) q).
      apply last_cons_default. }
    rewrite Hlast in *.
    rewrite (IH h q (acc ++ [q]) fuel stop Hch HF' Hstop)
      by (simpl in Hfuel; lia).
    rewrite <- app_assoc. reflexivity.
Qed.

(** X13: when a box has only [InlineBox] ancestors, up to a root without
    parent, the body of [block_in_inline] finds no line box and, given
    fuel for the walk, stops with [UnboundLocalError]: the variable
    [parent_line_box] was never bound. *)
Theorem split_inline_without_line_box (h : Heap) (box : ref) (l : list ref)
    (root : BoxObj) (fuel : nat) :
  parent_chain h box l ->
  Forall (fun r => exists c, class_of h r = Some c /\ is_InlineBox c = true)
    l ->
  boxes h !! List.last l box = Some root ->
  o_parent root = None ->
  length l < fuel ->
  split_inline fuel box h = Raise UnboundLocalError.
Proof.
  intros Hch HF Hroot Hnone Hfuel.
  unfold split_inline, split_setup, bind.
  rewrite (find_ancestry_inline_chain l h box [] fuel root Hch HF Hroot Hfuel).
  rewrite Hnone. reflexivity.
Qed.

Lemma split_inline_without_line_box_witness :
  split_inline 3 1
    (mkHeap
       [mkObj InlineBox span_element None (Some 0) None;
        mkObj BlockBox div_element (Some 0) (Some 1) None]
       [[1]; []]) = Raise UnboundLocalError.
Proof.
  apply (split_inline_without_line_box _ 1 [0]
           (mkObj InlineBox span_element None (Some 0) None) 3).
  - repeat split.
  - repeat constructor. exists InlineBox. split; reflexivity.
  - reflexivity.
  - reflexivity.
  - simpl. lia.
Defined.

(** X14: when the first ancestor of a box that is not an [InlineBox] is
    not a [LineBox] either, the body of [block_in_inline] stops with
    [AssertionError]. *)
Theorem split_inline_asserts_line_box (h : Heap) (box : ref) (l : list ref)
    (stop : BoxObj) (q : ref) (qo : BoxObj) (fuel : nat) :
  parent_chain h box l ->
  Forall (fun r => exists c, class_of h r = Some c /\ is_InlineBox c = true)
    l ->
  boxes h !! List.last l box = Some stop ->
  o_parent stop = Some q ->
  boxes h !! q = Some qo ->
  is_InlineBox (o_cls qo) = false ->
  is_LineBox (o_cls qo) = false ->
  length l < fuel ->
  split_inline fuel box h = Raise AssertionError.
Proof.
  intros Hch HF Hstop Hq Hqo Hi Hl Hfuel.
  unfold split_inline, split_setup, bind.
  rewrite (find_ancestry_inline_chain l h box [] fuel stop Hch HF Hstop Hfuel).
  rewrite Hq. destruct (fuel - length l) as [| k] eqn:E; [lia |].
  simpl. unfold bind, get_box. rewrite Hstop, Hq, Hqo, Hi, Hl. reflexivity.
Qed.

Lemma split_inline_asserts_line_box_witness :
  split_inline 3 2
    (mkHeap
       [mkObj BlockBox p_element None (Some 0) None;
        mkObj InlineBox span_element (Some 0) (Some 1) None;
        mkObj BlockBox div_element (Some 1) (Some 2) None]
       [[1]; [2]; []]) = Raise AssertionError.
Proof.
  apply (split_inline_asserts_line_box _ 2 [1]
           (mkObj InlineBox span_element (Some 0) (Some 1) None) 0
           (mkObj BlockBox p_element None (Some 0) None) 3).
  - repeat split.
  - repeat constructor. exists InlineBox. split; reflexivity.
  - reflexivity.
  - reflexivity.
  - reflexivity.
  - reflexivity.
  - reflexivity.
  - simpl. lia.
Defined.

(** ** [block_in_inline] with nothing to split *)

Lemma block_in_inline_unfold (fuel : nat) (box : ref) :
  block_in_inline (S fuel) box =
    bind (get_box box)
      (fun o =>
         bind
           match o_children o with
           | None => ret tt
           | Some lr => for_each_live (block_in_inline fuel) lr fuel 0
           end
           (fun _ =>
              bind (block_in_inline_applies box)
                (fun applies =>
                   if applies then split_inline fuel box else ret tt))).
Proof. reflexivity. Qed.

Lemma nothing_to_splitb_sound (h : Heap) :
  nothing_to_splitb h = true -> nothing_to_split h.
Proof.
  unfold nothing_to_splitb. rewrite forallb_forall.
  intros H r o q qo Hr Hq Hqo.
  apply list_elem_of_lookup_2, list_elem_of_In in Hr. apply H in Hr.
  rewrite Hq, Hqo in Hr. now apply negb_true_iff in Hr.
Qed.

Lemma for_each_live_idle (visit : ref -> M unit) (lr : lref) (h : Heap) :
  (forall child, idle h tt (visit child h)) ->
  forall steps i, idle h tt (for_each_live visit lr steps i h).
Proof.
  intros Hv. induction steps as [| steps IH]; intros i.
  - right. left. reflexivity.
  - cbn [for_each_live]. unfold bind at 1. unfold get_list.
    destruct (lists h !! lr) as [l |]; [| right; right; reflexivity].
    destruct (l !! i) as [child |]; [| left; reflexivity].
    unfold bind. destruct (Hv child) as [-> | [-> | ->]].
    + apply IH.
    + right. left. reflexivity.
    + right. right. reflexivity.
Qed.

(** X15: in a store where no block-level box has an [InlineBox] as
    parent, [block_in_inline] changes nothing and raises no Python
    exception, from whichever box it starts: it returns with the store as
    it was (or, in the model, runs out of fuel or meets a dangling
    reference). *)
Theorem block_in_inline_nothing_to_split (h : Heap) :
  nothing_to_split h ->
  forall fuel box, idle h tt (block_in_inline fuel box h).
Proof.
  intros Hn. induction fuel as [| fuel IH]; intros box.
  - right. left. reflexivity.
  - rewrite block_in_inline_unfold. unfold bind at 1. unfold get_box at 1.
    destruct (boxes h !! box) as [o |] eqn:Eo; [| right; right; reflexivity].
    unfold bind at 1.
    assert (Hloop : idle h tt
              (match o_children o with
               | None => ret tt
               | Some lr => for_each_live (block_in_inline fuel) lr fuel 0
               end h)).
    { destruct (o_children o) as [lr |]; [| left; reflexivity].
      apply for_each_live_idle. intros child. apply IH. }
    destruct Hloop as [-> | [-> | ->]];
      [| right; left; reflexivity | right; right; reflexivity].
    unfold bind, block_in_inline_applies, bind, get_box. rewrite Eo.
    destruct (o_parent o) as [q |] eqn:Eq; [| left; reflexivity].
    destruct (boxes h !! q) as [qo |] eqn:Eqo; [| right; right; reflexivity].
    unfold ret. rewrite (Hn box o q qo Eo Eq Eqo). left. reflexivity.
Qed.

Lemma block_in_inline_nothing_to_split_witness :
  block_in_inline 6 0 paragraph_heap = Ok (tt, paragraph_heap).
Proof.
  destruct (block_in_inline_nothing_to_split paragraph_heap
              (nothing_to_splitb_sound paragraph_heap eq_refl) 6 0)
    as [H | [H | H]].
  - exact H.
  - vm_compute in H. discriminate H.
  - vm_compute in H. discriminate H.
Defined.

(** ** A second run under [pre-wrap] *)

Lemma mark_runs_head_is (p : uchar -> bool) (l : ustring) :
  head_is p (mark_runs l) = head_is p l.
Proof.
  destruct l as [| c r]; [reflexivity |]. rewrite mark_runs_cons.
  now destruct ((c =? NBSP)%N && negb (startswith NBSP r)).
Qed.

Lemma mark_runs_nl_stable (l : ustring) :
  nl_stable l = true -> nl_stable (mark_runs l) = true.
Proof.
  induction l as [| c r IH]; [reflexivity |].
  rewrite nl_stable_cons, mark_runs_cons. intros H.
  apply andb_prop in H as [H Hr]. apply andb_prop in H as [H1 H2].
  specialize (IH Hr).
  destruct ((c =? NBSP)%N && negb (startswith NBSP r)) eqn:Et.
  - apply andb_prop in Et as [Ec _]. apply N.eqb_eq in Ec. subst c.
    rewrite nl_stable_cons. cbn [head_is].
    rewrite (nl_stable_cons ZWSP), !mark_runs_head_is, IH.
    reflexivity.
  - rewrite nl_stable_cons, !mark_runs_head_is, H1, H2, IH. reflexivity.
Qed.

Lemma mark_runs_longer (l : ustring) :
  length l <= length (mark_runs l) /\
  (In NBSP l -> length l < length (mark_runs l)).
Proof.
  induction l as [| c r [IH1 IH2]]; [split; [reflexivity | intros []] |].
  rewrite mark_runs_cons.
  destruct ((c =? NBSP)%N && negb (startswith NBSP r)) eqn:Et;
    cbn [length].
  - split; [lia | intros _; lia].
  - split; [lia |]. intros [Hc | Hin].
    + subst c. destruct r as [| d r']; [discriminate |].
      cbn [startswith] in Et. change (NBSP =? NBSP)%N with true in Et.
      cbn [andb] in Et. apply negb_false_iff, N.eqb_eq in Et. subst d.
      assert (length (NBSP :: r') < length (mark_runs (NBSP :: r')))
        by (apply IH2; now left).
      lia.
    + specialize (IH2 Hin). lia.
Qed.

Lemma pre_wrap_break_markers_eq (text : ustring) (f : bool) :
  normalize_text "pre-wrap" f text =
    (mark_runs (replace_char SPACE NBSP (re_sub m_newline text)), false) /\
  (no_char SPACE
     (mark_runs (replace_char SPACE NBSP (re_sub m_newline text))) = true /\
   nl_stable
     (mark_runs (replace_char SPACE NBSP (re_sub m_newline text))) = true).
Proof.
  split.
  - unfold normalize_text. simpl. now rewrite re_sub_nbsp_mark_runs.
  - split.
    + apply mark_runs_no_char; [reflexivity |].
      now apply replace_char_no_char.
    + apply mark_runs_nl_stable.
      apply replace_char_nl_stable;
        [reflexivity | reflexivity | discriminate |].
      apply (re_sub_newline_stable_le _ _ (Nat.le_refl _)).
Qed.

(** X16: under [pre-wrap] a second run is not harmless: if the text that
    came out of [process_whitespace] has a non-breaking space, running the
    same step on it again gives its runs a second marker each, so a
    longer text; the result is the text with [mark_runs] applied once
    more. *)
Theorem normalize_text_pre_wrap_again (text : ustring) (f f' : bool) :
  In NBSP (fst (normalize_text "pre-wrap" f text)) ->
  fst (normalize_text "pre-wrap" f'
         (fst (normalize_text "pre-wrap" f text))) =
    mark_runs (fst (normalize_text "pre-wrap" f text)) /\
  length (fst (normalize_text "pre-wrap" f text)) <
  length (fst (normalize_text "pre-wrap" f'
                 (fst (normalize_text "pre-wrap" f text)))).
Proof.
  intros Hin.
  destruct (pre_wrap_break_markers_eq text f) as [E Hns].
  rewrite E in *. cbn [fst] in *.
  set (out := mark_runs (replace_char SPACE NBSP (re_sub m_newline text))) in *.
  destruct (pre_wrap_break_markers_eq out f') as [E' _]. rewrite E'.
  cbn [fst]. destruct Hns as [Hsp Hst].
  rewrite (re_sub_newline_id out Hst), (replace_char_id SPACE NBSP out Hsp).
  split; [reflexivity |]. now apply mark_runs_longer.
Qed.

Lemma normalize_text_pre_wrap_again_witness :
  fst (normalize_text "pre-wrap" false [97; NBSP; ZWSP]%N) =
    [97; NBSP; ZWSP; ZWSP]%N.
Proof.
  assert (Hin : In NBSP (fst (normalize_text "pre-wrap" false (utext "a "))))
    by (right; left; reflexivity).
  destruct (normalize_text_pre_wrap_again (utext "a ") false false Hin)
    as [H _].
  exact H.
Defined.

(** ** The two pure cases of [inline_in_block] *)

Lemma inline_in_block_fold_inlines (e : Element) (l : list Box) :
  forallb goes_in_line l = true ->
  forall new line,
    fold_left (inline_in_block_step e) l (new, line) = (new, line ++ l).
Proof.
  induction l as [| k r IH]; intros H new line; simpl.
  - now rewrite app_nil_r.
  - simpl in H. apply andb_prop in H as [Hk Hr].
    unfold goes_in_line, is_block_level in Hk.
    apply andb_prop in Hk as [H1 H2].
    apply negb_true_iff in H1. apply negb_true_iff in H2.
    rewrite H1, H2, (IH Hr). now rewrite <- app_assoc.
Qed.

Lemma forallb_map_inline_in_block (p : BoxClass -> bool) (kids : list Box) :
  forallb (fun k => p (box_class k)) (map inline_in_block kids) =
  forallb (fun k => p (box_class k)) kids.
Proof.
  induction kids as [| k r IH]; [reflexivity |]. cbn [map forallb].
  now rewrite IH, inline_in_block_class.
Qed.

(** X17: for a block container, [inline_in_block] puts children that are
    all inline-level (and no line box) into one line box, which it adds
    directly, without an anonymous block box; it adds nothing to a
    container without children; and it wraps nothing when all the
    children are block-level.  In each case the children themselves are
    processed first. *)
Theorem inline_in_block_pure_cases (c : BoxClass) (e : Element)
    (kids : list Box) :
  is_BlockContainerBox c = true ->
  (forallb goes_in_line kids = true ->
   inline_in_block (Node c e kids) =
     Node c e
       (if truthy_list kids then [Node LineBox e (map inline_in_block kids)]
        else [])) /\
  (forallb is_block_level kids = true ->
   inline_in_block (Node c e kids) = Node c e (map inline_in_block kids)).
Proof.
  intros Hc. rewrite inline_in_block_node, Hc. cbn [negb]. split; intros H.
  - assert (H' : forallb goes_in_line (map inline_in_block kids) = true).
    { rewrite <- H. unfold goes_in_line, is_block_level.
      apply (forallb_map_inline_in_block
               (fun c => negb (is_BlockLevelBox c) && negb (is_LineBox c))). }
    rewrite (inline_in_block_fold_inlines e _ H'). cbn [app].
    unfold inline_in_block_finish.
    destruct kids as [| k r]; reflexivity.
  - assert (H' : forallb is_block_level (map inline_in_block kids) = true).
    { rewrite <- H. unfold is_block_level.
      apply (forallb_map_inline_in_block is_BlockLevelBox). }
    rewrite (inline_in_block_fold_blocks e _ H'). reflexivity.
Qed.

Lemma inline_in_block_pure_cases_witness :
  inline_in_block (Node BlockBox p_element p_inline_content) =
    Node BlockBox p_element [Node LineBox p_element p_inline_content].
Proof.
  destruct (inline_in_block_pure_cases BlockBox p_element p_inline_content
              eq_refl) as [H _].
  rewrite (H eq_refl). reflexivity.
Defined.

(** ** The texts of the tree [dom_to_box] builds *)

Lemma text_runs_text_box_if (element : Element) (t : ustring) :
  concat (map text_runs (text_box_if element t)) =
    if truthy t then [(white_space (e_style element), t)] else [].
Proof. unfold text_box_if. now destruct (truthy t). Qed.

Lemma contribution_runs (element ch : Element) (part : list Box) :
  (forall b, dom_to_box ch = Ok b -> text_runs b = document_runs ch) ->
  contribution element ch = Ok part ->
  concat (map text_runs part) =
    (if String.eqb (display (e_style ch)) "none" then []
     else document_runs ch)
    ++ (if truthy (e_tail ch)
        then [(white_space (e_style element), e_tail ch)] else []).
Proof.
  intros IH. unfold contribution.
  destruct (String.eqb (display (e_style ch)) "none").
  - intros [= <-]. apply text_runs_text_box_if.
  - destruct (dom_to_box ch) as [b | |] eqn:Eb; try discriminate.
    intros [= <-]. cbn [map concat]. rewrite (IH b eq_refl).
    now rewrite text_runs_text_box_if.
Qed.

(** X18: the text boxes of the tree [dom_to_box] builds, in the order of
    [descendants()], are the texts of the element in document order: each
    element's text, then for each child the texts of its subtree (none
    for a child of display [none]) followed by its tail; the white-space
    mode of each is that of the element whose text, or whose child's
    tail, it is. *)
Theorem dom_to_box_texts (e : Element) (b : Box) :
  dom_to_box e = Ok b -> text_runs b = document_runs e.
Proof.
  revert b. induction e as [tg s t cs tl IH] using Element_ind2.
  intros b H. apply dom_to_box_children_parts in H as Hparts.
  destruct Hparts as (parts & HF & Hkids).
  apply dom_to_box_unfold in H as (c & kids & -> & _).
  cbn [box_children e_children e_text] in *. subst kids.
  cbn [text_runs document_runs]. rewrite map_app, concat_app.
  rewrite text_runs_text_box_if. cbn [e_style]. f_equal.
  clear - IH HF. revert IH.
  induction HF as [| ch part chs parts Hc HF IHF]; intros IH.
  - reflexivity.
  - apply Forall_cons_iff in IH as [Hch IH].
    cbn [concat flat_map]. rewrite map_app, concat_app, (IHF IH).
    now rewrite (contribution_runs _ ch part Hch Hc).
Qed.

Lemma dom_to_box_texts_witness :
  text_runs (Node BlockBox p_hidden
               [Text p_hidden (utext "a "); Text p_hidden (utext " b")]) =
    [("normal", utext "a "); ("normal", utext " b")].
Proof.
  rewrite (dom_to_box_texts p_hidden
             (Node BlockBox p_hidden
                [Text p_hidden (utext "a "); Text p_hidden (utext " b")])
             eq_refl).
  reflexivity.
Defined.

(** ** The store operations on a well-formed store *)

Lemma same_boxes_refl h : same_boxes h h.
Proof. repeat split. Qed.

Lemma same_boxes_trans h1 h2 h3 :
  same_boxes h1 h2 -> same_boxes h2 h3 -> same_boxes h1 h3.
Proof.
  intros (A & B & C) (A' & B' & C'). repeat split.
  - congruence.
  - intros x. now rewrite B'.
  - intros x. now rewrite C'.
Qed.

Lemma class_of_insert_same h r c o' :
  boxes h !! r = Some c -> o_cls o' = o_cls c ->
  forall x, o_cls <$> (<[r := o']> (boxes h)) !! x = o_cls <$> boxes h !! x.
Proof.
  intros Hc E x. destruct (decide (r = x)) as [<- | Hne].
  - rewrite list_lookup_insert_eq by (now apply lookup_lt_Some in Hc).
    rewrite Hc. simpl. now rewrite E.
  - now rewrite list_lookup_insert_ne.
Qed.

Lemma element_of_insert_same h r c o' :
  boxes h !! r = Some c -> o_element o' = o_element c ->
  forall x,
    o_element <$> (<[r := o']> (boxes h)) !! x = o_element <$> boxes h !! x.
Proof.
  intros Hc E x. destruct (decide (r = x)) as [<- | Hne].
  - rewrite list_lookup_insert_eq by (now apply lookup_lt_Some in Hc).
    rewrite Hc. simpl. now rewrite E.
  - now rewrite list_lookup_insert_ne.
Qed.

Lemma add_child_effect (h h' : Heap) (self child : ref) (idx : option Z) u :
  sane h ->
  add_child self child idx h = Ok (u, h') ->
  sane h' /\ same_boxes h h' /\
  parent_of h' child = Some self /\
  (forall x, x <> child -> parent_of h' x = parent_of h x) /\
  exists l,
    children_of h self = Some l /\
    children_of h' self = Some (inserted idx child l) /\
    (forall q, q <> self -> children_of h' q = children_of h q).
Proof.
  intros [Hcl Hns] H. destruct u.
  pose proof (add_child_closed _ _ _ _ _ _ Hcl H) as (Hcl' & _).
  pose proof H as H0.
  apply add_child_ok in H0 as (c & lr & l & Hc & Hlr & Hl & Eh).
  assert (Hcr : forall q, children_ref h' q = children_ref h q).
  { intros q. subst h'.
    apply (children_ref_insert_parent h child c (Some self) q Hc). }
  split; [split; [exact Hcl' |] |].
  { intros q q' lr0. rewrite !Hcr. apply Hns. }
  split.
  { subst h'. repeat split; cbn [boxes].
    - apply length_insert.
    - intros x. unfold class_of. cbn [boxes].
      eapply class_of_insert_same; [exact Hc | reflexivity].
    - intros x. unfold element_of. cbn [boxes].
      eapply element_of_insert_same; [exact Hc | reflexivity]. }
  split.
  { subst h'. unfold parent_of. cbn [boxes].
    rewrite list_lookup_insert_eq by (now apply lookup_lt_Some in Hc).
    reflexivity. }
  split.
  { intros x Hx. subst h'. unfold parent_of. cbn [boxes].
    now rewrite list_lookup_insert_ne by auto. }
  exists l. split; [| split].
  - unfold children_of. now rewrite Hlr.
  - unfold children_of. rewrite Hcr, Hlr. subst h'. cbn [lists mbind option_bind].
    unfold inserted. apply list_lookup_insert_eq.
    now apply lookup_lt_Some in Hl.
  - intros q Hq. unfold children_of. rewrite Hcr.
    destruct (children_ref h q) as [lq |] eqn:Eq; [| reflexivity].
    subst h'. cbn [lists mbind option_bind].
    apply list_lookup_insert_ne. intros <-. apply Hq.
    now apply (Hns q self lr).
Qed.

Lemma remove_from_parent_effect (h h' : Heap) (x : ref) u :
  sane h ->
  remove_from_parent x h = Ok (u, h') ->
  sane h' /\ same_boxes h h' /\
  (forall y, parent_of h' y = parent_of h y) /\
  exists q l l',
    parent_of h x = Some q /\ children_of h q = Some l /\
    list_remove x l = Some l' /\
    children_of h' q = Some l' /\
    (forall q', q' <> q -> children_of h' q' = children_of h q').
Proof.
  intros [Hcl Hns] H.
  pose proof (remove_from_parent_closed _ _ _ _ Hcl H) as (Hcl' & _).
  unfold remove_from_parent in H.
  apply bind_ok in H as (o & h1 & H1 & H).
  apply get_box_ok in H1 as [-> H1].
  destruct (o_parent o) as [q |] eqn:Eq; [| discriminate].
  apply bind_ok in H as (lr & h1 & H2 & H).
  apply children_list_ok in H2 as [-> H2].
  apply bind_ok in H as (l & h1 & H3 & H).
  apply get_list_ok in H3 as [-> H3].
  destruct (list_remove x l) as [l' |] eqn:El; [| discriminate].
  unfold put_list in H. injection H as _ <-.
  split; [split; [exact Hcl' |] |].
  { intros a b lr0. unfold children_ref. cbn [boxes]. apply Hns. }
  split; [repeat split |].
  split; [reflexivity |].
  exists q, l, l'. split; [| split; [| split; [exact El | split]]].
  - unfold parent_of. now rewrite H1.
  - unfold children_of. now rewrite H2.
  - unfold children_of, children_ref in *. cbn [boxes lists].
    destruct (boxes h !! q) as [qo |]; [| discriminate]. simpl in *.
    rewrite H2. simpl. apply list_lookup_insert_eq.
    now apply lookup_lt_Some in H3.
  - intros q' Hq'. unfold children_of. 
    change (children_ref (mkHeap (boxes h) (<[lr:=l']> (lists h))) q')
      with (children_ref h q').
    destruct (children_ref h q') as [lq |] eqn:Eq'; [| reflexivity].
    cbn [lists mbind option_bind].
    apply list_lookup_insert_ne. intros <-. apply Hq'.
    now apply (Hns q' q lr).
Qed.

Lemma new_box_effect (h : Heap) (c : BoxClass) (e : Element) :
  sane h ->
  exists h',
    new_box c e h = Ok (length (boxes h), h') /\
    sane h' /\
    length (boxes h') = S (length (boxes h)) /\
    class_of h' (length (boxes h)) = Some c /\
    element_of h' (length (boxes h)) = Some e /\
    parent_of h' (length (boxes h)) = None /\
    children_of h' (length (boxes h)) = Some [] /\
    (forall x, x <> length (boxes h) ->
       class_of h' x = class_of h x /\ element_of h' x = element_of h x /\
       parent_of h' x = parent_of h x /\
       children_of h' x = children_of h x).
Proof.
  intros [Hcl Hns]. eexists. split; [apply new_box_eq |].
  set (new := mkObj c e None (Some (length (lists h))) None).
  set (h' := mkHeap (boxes h ++ [new]) (lists h ++ [[]])).
  destruct (new_box_closed c e h Hcl) as [Hcl' _]. fold new h' in Hcl'.
  assert (Hnew : boxes h' !! length (boxes h) = Some new).
  { unfold h'. cbn [boxes]. now rewrite list_lookup_middle. }
  assert (Hold : forall x, x <> length (boxes h) ->
                           boxes h' !! x = boxes h !! x).
  { intros x Hx. unfold h'. cbn [boxes].
    destruct (decide (x < length (boxes h))) as [Hlt | Hge].
    - now rewrite lookup_app_l.
    - rewrite lookup_ge_None_2 by (rewrite length_app; simpl; lia).
      symmetry. apply lookup_ge_None_2. lia. }
  assert (Hcr : forall x, x <> length (boxes h) ->
                          children_ref h' x = children_ref h x).
  { intros x Hx. unfold children_ref. now rewrite (Hold x Hx). }
  assert (Hcrn : children_ref h' (length (boxes h)) =
                 Some (length (lists h))).
  { unfold children_ref. now rewrite Hnew. }
  assert (Hlt : forall x lr, x <> length (boxes h) ->
                  children_ref h x = Some lr -> lr < length (lists h)).
  { intros x lr Hx Hr. unfold children_ref in Hr.
    destruct (boxes h !! x) as [o |] eqn:Eo; [| discriminate].
    destruct Hcl as [_ Hc2]. exact (Hc2 x o lr Eo Hr). }
  split; [split; [exact Hcl' |] |].
  { intros q q' lr Hq Hq'.
    destruct (decide (q = length (boxes h))) as [-> | Hn1];
      destruct (decide (q' = length (boxes h))) as [-> | Hn2]; auto.
    - rewrite Hcrn in Hq. injection Hq as <-. rewrite (Hcr q' Hn2) in Hq'.
      apply (Hlt q' _ Hn2) in Hq'. lia.
    - rewrite Hcrn in Hq'. injection Hq' as <-. rewrite (Hcr q Hn1) in Hq.
      apply (Hlt q _ Hn1) in Hq. lia.
    - rewrite (Hcr q Hn1) in Hq. rewrite (Hcr q' Hn2) in Hq'.
      now apply (Hns q q' lr). }
  split; [unfold h'; cbn [boxes]; rewrite length_app; simpl; lia |].
  split; [unfold class_of; now rewrite Hnew |].
  split; [unfold element_of; now rewrite Hnew |].
  split; [unfold parent_of; now rewrite Hnew |].
  split.
  { unfold children_of. rewrite Hcrn. cbn [mbind option_bind].
    unfold h'. cbn [lists]. now rewrite list_lookup_middle. }
  intros x Hx. unfold class_of, element_of, parent_of, children_of.
  rewrite (Hcr x Hx), (Hold x Hx). repeat split.
  destruct (children_ref h x) as [lr |] eqn:Er; [| reflexivity].
  cbn [mbind option_bind]. unfold h'. cbn [lists].
  apply lookup_app_l. now apply (Hlt x lr Hx).
Qed.

(** *** Lists of children *)

Lemma in_inserted (idx : option Z) (c x : ref) (l : list ref) :
  In x (inserted idx c l) <-> x = c \/ In x l.
Proof.
  unfold inserted. rewrite inserted_list.
  set (p := insert_position idx (length l)).
  assert (E : In x l <-> In x (take p l) \/ In x (drop p l)).
  { rewrite <- (take_drop p l) at 1. apply in_app_iff. }
  rewrite in_app_iff. simpl. rewrite E. intuition.
Qed.

Lemma NoDup_inserted (idx : option Z) (c : ref) (l : list ref) :
  ~ In c l -> NoDup l -> NoDup (inserted idx c l).
Proof.
  intros Hn Hd. unfold inserted. rewrite inserted_list.
  rewrite <- (take_drop (insert_position idx (length l)) l) in Hn, Hd.
  set (l1 := take _ l) in *. set (l2 := drop _ l) in *.
  apply NoDup_app in Hd as (H1 & H12 & H2).
  apply NoDup_app. split; [exact H1 |]. split.
  - intros x Hx [-> | Hx2]%list_elem_of_In.
    + apply Hn. apply in_or_app. left. now apply list_elem_of_In.
    + apply (H12 x Hx). now apply list_elem_of_In.
  - apply NoDup_cons. split; [| exact H2].
    intros Hc%list_elem_of_In. apply Hn. apply in_or_app. now right.
Qed.

Lemma list_remove_split (x : ref) (l l' : list ref) :
  list_remove x l = Some l' ->
  exists l1 l2, l = l1 ++ x :: l2 /\ l' = l1 ++ l2 /\ ~ In x l1.
Proof.
  revert l'. induction l as [| y l IH]; intros l'; [discriminate |].
  simpl. destruct (Nat.eqb y x) eqn:E.
  - apply Nat.eqb_eq in E. subst y. intros [= <-].
    exists [], l. repeat split. intros [].
  - destruct (list_remove x l) as [r |]; [| discriminate].
    intros [= <-]. destruct (IH r eq_refl) as (l1 & l2 & -> & -> & Hn).
    exists (y :: l1), l2. repeat split. intros [-> | Hin]; [| auto].
    now rewrite Nat.eqb_refl in E.
Qed.

Lemma list_index_split (x : ref) (l : list ref) (i : nat) :
  list_index x l = Some i ->
  exists l2, l = take i l ++ x :: l2 /\ drop (S i) l = l2 /\
             ~ In x (take i l) /\ i < length l.
Proof.
  revert i. induction l as [| y l IH]; intros i; [discriminate |].
  simpl. destruct (Nat.eqb y x) eqn:E.
  - apply Nat.eqb_eq in E. subst y. intros [= <-].
    exists l. repeat split; simpl; [intros [] | lia].
  - destruct (list_index x l) as [j |]; [| discriminate].
    intros [= <-]. destruct (IH j eq_refl) as (l2 & E1 & E2 & Hn & Hlt).
    exists l2. repeat split.
    + simpl. now rewrite <- E1.
    + exact E2.
    + simpl. intros [-> | Hin]; [| auto]. now rewrite Nat.eqb_refl in E.
    + simpl. lia.
Qed.

(** *** The forest is kept *)

Lemma forest_sane h : forest h -> sane h.
Proof. now intros [H _]. Qed.

Lemma add_child_forest (h h' : Heap) (self child : ref) (idx : option Z) u :
  forest h -> orphan h child ->
  add_child self child idx h = Ok (u, h') ->
  forest h'.
Proof.
  intros (Hs & HK & HD) Ho H.
  destruct (add_child_effect _ _ _ _ _ _ Hs H)
    as (Hs' & _ & Hpc & Hpo & l & Hl & Hl' & Hfr).
  split; [exact Hs' |]. split.
  - intros q lq x Hq Hx.
    destruct (decide (q = self)) as [-> | Hne].
    + rewrite Hl' in Hq. injection Hq as <-.
      apply in_inserted in Hx as [-> | Hx]; [exact Hpc |].
      rewrite Hpo; [now apply (HK self l) |].
      intros ->. now apply (Ho self l).
    + rewrite (Hfr q Hne) in Hq.
      rewrite Hpo; [now apply (HK q lq) |].
      intros ->. now apply (Ho q lq).
  - intros q lq Hq. destruct (decide (q = self)) as [-> | Hne].
    + rewrite Hl' in Hq. injection Hq as <-.
      apply NoDup_inserted; [now apply (Ho self) | now apply (HD self)].
    + rewrite (Hfr q Hne) in Hq. now apply (HD q).
Qed.

Lemma remove_from_parent_forest (h h' : Heap) (x : ref) u :
  forest h ->
  remove_from_parent x h = Ok (u, h') ->
  forest h' /\ orphan h' x.
Proof.
  intros (Hs & HK & HD) H.
  destruct (remove_from_parent_effect _ _ _ _ Hs H)
    as (Hs' & _ & Hp & q & l & l' & Hq & Hl & Hr & Hl' & Hfr).
  apply list_remove_split in Hr as (l1 & l2 & -> & -> & Hn1).
  pose proof (HD q _ Hl) as Hnd.
  assert (Hsub : forall y, In y (l1 ++ l2) -> In y (l1 ++ x :: l2)).
  { intros y Hy. apply in_app_or in Hy as [Hy | Hy]; apply in_or_app;
      [now left | right; now right]. }
  split; [split; [exact Hs' |]; split |].
  - intros q' lq y Hq' Hy. rewrite Hp.
    destruct (decide (q' = q)) as [-> | Hne].
    + rewrite Hl' in Hq'. injection Hq' as <-.
      apply (HK q _ y Hl). now apply Hsub.
    + rewrite (Hfr q' Hne) in Hq'. now apply (HK q' lq).
  - intros q' lq Hq'. destruct (decide (q' = q)) as [-> | Hne].
    + rewrite Hl' in Hq'. injection Hq' as <-.
      apply NoDup_app in Hnd as (H1 & H12 & H2).
      apply NoDup_cons in H2 as [_ H2].
      apply NoDup_app. repeat split; auto.
      intros y Hy Hy2. apply (H12 y Hy). now right.
    + rewrite (Hfr q' Hne) in Hq'. now apply (HD q').
  - intros q' lq Hq' Hx. destruct (decide (q' = q)) as [-> | Hne].
    + rewrite Hl' in Hq'. injection Hq' as <-.
      apply NoDup_app in Hnd as (H1 & H12 & H2).
      apply NoDup_cons in H2 as [Hx2 _].
      apply in_app_or in Hx as [Hx | Hx]; [now apply Hn1 |].
      apply Hx2. now apply list_elem_of_In.
    + rewrite (Hfr q' Hne) in Hq'.
      pose proof (HK q' lq x Hq' Hx) as Hpx. congruence.
Qed.

Lemma new_box_forest (h : Heap) (c : BoxClass) (e : Element) :
  forest h ->
  exists h',
    new_box c e h = Ok (length (boxes h), h') /\
    forest h' /\ orphan h' (length (boxes h)) /\
    length (boxes h') = S (length (boxes h)) /\
    class_of h' (length (boxes h)) = Some c /\
    element_of h' (length (boxes h)) = Some e /\
    parent_of h' (length (boxes h)) = None /\
    children_of h' (length (boxes h)) = Some [] /\
    (forall x, x <> length (boxes h) ->
       class_of h' x = class_of h x /\ element_of h' x = element_of h x /\
       parent_of h' x = parent_of h x /\
       children_of h' x = children_of h x).
Proof.
  intros (Hs & HK & HD).
  destruct (new_box_effect h c e Hs)
    as (h' & Hrun & Hs' & Hlen & Hc & He & Hp & Hl & Hold).
  exists h'. split; [exact Hrun |].
  assert (Hnone : parent_of h (length (boxes h)) = None).
  { unfold parent_of. now rewrite lookup_ge_None_2. }
  assert (Hor : orphan h' (length (boxes h))).
  { intros q l Hq Hin. destruct (decide (q = length (boxes h))) as [-> | Hne].
    - rewrite Hl in Hq. injection Hq as <-. destruct Hin.
    - destruct (Hold q Hne) as (_ & _ & _ & Hcq). rewrite Hcq in Hq.
      pose proof (HK q l _ Hq Hin). congruence. }
  split; [| repeat split; auto; apply Hold; auto].
  split; [exact Hs' |]. split.
  - intros q l x Hq Hx.
    destruct (decide (q = length (boxes h))) as [-> | Hne].
    + rewrite Hl in Hq. injection Hq as <-. destruct Hx.
    + destruct (Hold q Hne) as (_ & _ & _ & Hcq). rewrite Hcq in Hq.
      assert (Hxn : x <> length (boxes h)).
      { intros ->. pose proof (HK q l _ Hq Hx). congruence. }
      destruct (Hold x Hxn) as (_ & _ & Hpx & _). rewrite Hpx.
      now apply (HK q l).
  - intros q l Hq. destruct (decide (q = length (boxes h))) as [-> | Hne].
    + rewrite Hl in Hq. injection Hq as <-. constructor.
    + destruct (Hold q Hne) as (_ & _ & _ & Hcq). rewrite Hcq in Hq.
      now apply (HD q).
Qed.

(** *** Block containers stay unmixed *)

Lemma grows_refl h : grows h h.
Proof. intros x c H. exact H. Qed.

Lemma grows_trans h1 h2 h3 : grows h1 h2 -> grows h2 h3 -> grows h1 h3.
Proof. intros H1 H2 x c H. apply H2, H1, H. Qed.

Lemma same_boxes_grows h h' : same_boxes h h' -> grows h h'.
Proof. intros (_ & Hc & _) x c H. now rewrite Hc. Qed.

Lemma block_level_at_grows h h' x :
  grows h h' -> block_level_at h x -> block_level_at h' x.
Proof. intros Hg (c & Hc & Hb). exists c. split; [now apply Hg | exact Hb]. Qed.

Lemma ok_children_grows h h' l :
  grows h h' -> ok_children h l -> ok_children h' l.
Proof.
  intros Hg [H | (x & -> & Hx)].
  - left. eapply List.Forall_impl; [| exact H].
    intros x. now apply block_level_at_grows.
  - right. exists x. split; [reflexivity | now apply Hg].
Qed.

Lemma unmixed_frame (h h' : Heap) :
  unmixed h -> grows h h' ->
  (forall q c l,
      class_of h' q = Some c -> is_BlockContainerBox c = true ->
      children_of h' q = Some l ->
      (class_of h q = Some c /\ children_of h q = Some l) \/
      ok_children h' l) ->
  unmixed h'.
Proof.
  intros Hu Hg H q c l Hc Hb Hl.
  destruct (H q c l Hc Hb Hl) as [[Hc0 Hl0] | Hok]; [| exact Hok].
  apply (ok_children_grows h h' l Hg). now apply (Hu q c l).
Qed.

Lemma inserted_nil (idx : option Z) (c : ref) : inserted idx c [] = [c].
Proof.
  destruct idx as [i |]; [| reflexivity]. unfold inserted, py_insert.
  now rewrite take_nil, drop_nil.
Qed.

Lemma index_ok (x : ref) (h h' : Heap) (r : option nat) :
  index x h = Ok (r, h') ->
  h' = h /\
  ((r = None /\ parent_of h x = None) \/
   exists q l i, r = Some i /\ parent_of h x = Some q /\
                 children_of h q = Some l /\ list_index x l = Some i).
Proof.
  intros H. pose proof (read_only_index x _ _ _ H) as ->.
  split; [reflexivity |]. unfold index in H.
  apply bind_ok in H as (o & h1 & H1 & H).
  apply get_box_ok in H1 as [-> H1].
  destruct (o_parent o) as [q |] eqn:Eq.
  - right. apply bind_ok in H as (lr & h1 & H2 & H).
    apply children_list_ok in H2 as [-> H2].
    apply bind_ok in H as (l & h1 & H3 & H).
    apply get_list_ok in H3 as [-> H3].
    destruct (list_index x l) as [i |] eqn:Ei; [| discriminate].
    injection H as <-. exists q, l, i. repeat split; auto.
    + unfold parent_of. now rewrite H1.
    + unfold children_of. now rewrite H2.
  - left. injection H as <-. split; [reflexivity |].
    unfold parent_of. now rewrite H1.
Qed.

Lemma index_plus_1_ok (x : ref) (h h' : Heap) (n : nat) :
  index_plus_1 x h = Ok (n, h') ->
  h' = h /\
  exists q l i, n = i + 1 /\ parent_of h x = Some q /\
                children_of h q = Some l /\ list_index x l = Some i.
Proof.
  intros H. unfold index_plus_1 in H.
  apply bind_ok in H as (r & h1 & H1 & H).
  apply index_ok in H1 as [-> H1].
  destruct r as [i |]; [| discriminate]. injection H as <- <-.
  split; [reflexivity |].
  destruct H1 as [[H1 _] | (q & l & j & [= <-] & Hq & Hl & Hi)];
    [discriminate |].
  exists q, l, i. auto.
Qed.

Lemma parent_add_child_ok (box child : ref) (idx : M (option Z)) h u h' :
  read_only idx ->
  parent_add_child box child idx h = Ok (u, h') ->
  exists q i,
    parent_of h box = Some q /\ idx h = Ok (i, h) /\
    add_child q child i h = Ok (u, h').
Proof.
  intros Hro H. unfold parent_add_child in H.
  apply bind_ok in H as (o & h1 & H1 & H).
  apply get_box_ok in H1 as [-> H1].
  destruct (o_parent o) as [q |] eqn:Eq; [| discriminate].
  apply bind_ok in H as (i & h1 & H2 & H).
  pose proof (Hro _ _ _ H2) as ->.
  exists q, i. repeat split; auto. unfold parent_of. now rewrite H1.
Qed.

Lemma list_index_in (x : ref) (l : list ref) (i : nat) :
  list_index x l = Some i -> In x l.
Proof.
  intros H. apply list_index_split in H as (l2 & E & _).
  rewrite E. apply in_or_app. right. now left.
Qed.

Lemma add_child_good (h h' : Heap) (self child : ref) (idx : option Z) u :
  good h -> orphan h child ->
  add_child self child idx h = Ok (u, h') ->
  (forall c l, class_of h self = Some c -> is_BlockContainerBox c = true ->
               children_of h self = Some l ->
               (block_level_at h child /\ Forall (block_level_at h) l) \/
               (l = [] /\ class_of h child = Some LineBox)) ->
  good h' /\ same_boxes h h'.
Proof.
  intros [Hf Hu] Ho H Hside.
  pose proof (add_child_forest _ _ _ _ _ _ Hf Ho H) as Hf'.
  destruct (add_child_effect _ _ _ _ _ _ (forest_sane _ Hf) H)
    as (_ & Hsb & _ & _ & l & Hl & Hl' & Hfr).
  pose proof (same_boxes_grows _ _ Hsb) as Hg.
  split; [| exact Hsb]. split; [exact Hf' |].
  apply (unmixed_frame h h' Hu Hg). intros q c lq Hc Hb Hq.
  destruct Hsb as (_ & Hcls & _).
  destruct (decide (q = self)) as [-> | Hne].
  - right. rewrite Hl' in Hq. injection Hq as <-. rewrite Hcls in Hc.
    destruct (Hside c l Hc Hb Hl) as [[Hcb Hall] | [-> Hcl]].
    + left. apply Forall_forall. intros x Hx.
      apply list_elem_of_In, in_inserted in Hx as [-> | Hx];
        [now apply (block_level_at_grows h) |].
      apply (block_level_at_grows h h' x Hg).
      rewrite Forall_forall in Hall. apply Hall. now apply list_elem_of_In.
    + right. exists child. rewrite inserted_nil. split; [reflexivity |].
      now apply Hg.
  - left. rewrite (Hfr q Hne) in Hq. rewrite Hcls in Hc. auto.
Qed.

Lemma class_is_anonymous (c : BoxClass) :
  is_AnonymousBlockBox c = true -> c = AnonymousBlockBox.
Proof. destruct c; try discriminate; reflexivity. Qed.

Lemma forest_parent_exists h x q :
  forest h -> parent_of h x = Some q -> q < length (boxes h).
Proof.
  intros ([[Hp _] _] & _) H. unfold parent_of in H.
  destruct (boxes h !! x) as [o |] eqn:E; [| discriminate].
  exact (Hp x o q E H).
Qed.

Lemma class_of_exists h x c : class_of h x = Some c -> x < length (boxes h).
Proof.
  unfold class_of. destruct (boxes h !! x) as [o |] eqn:E; [| discriminate].
  intros _. now apply lookup_lt_Some in E.
Qed.

Lemma previous_anonymous_good (plb : ref) (h : Heap) (prev : ref) (h' : Heap) :
  good h -> class_of h plb = Some LineBox ->
  previous_anonymous plb h = Ok (prev, h') ->
  good h' /\ grows h h' /\
  class_of h' prev = Some AnonymousBlockBox /\
  (forall x, x <> plb -> x < length (boxes h) ->
             parent_of h' x = parent_of h x).
Proof.
  intros [Hf Hu] Hplb H. unfold previous_anonymous in H.
  apply bind_ok in H as (lo & h1 & H1 & H).
  apply get_box_ok in H1 as [-> H1].
  apply bind_ok in H as (is_anon & h1 & H2 & H).
  assert (Hanon : h1 = h /\
            (is_anon = true ->
             exists q, o_parent lo = Some q /\
                       class_of h q = Some AnonymousBlockBox)).
  { destruct (o_parent lo) as [q |].
    - apply bind_ok in H2 as (qo & h2 & H2 & H3).
      apply get_box_ok in H2 as [-> H2]. injection H3 as <- <-.
      split; [reflexivity |]. intros Ha. exists q. split; [reflexivity |].
      unfold class_of. rewrite H2. simpl. f_equal.
      now apply class_is_anonymous.
    - injection H2 as <- <-. split; [reflexivity | discriminate]. }
  destruct Hanon as [-> Hanon]. clear H2.
  assert (Hnew :
    bind (new_box AnonymousBlockBox (o_element lo))
      (fun previous_anonymous_box =>
         bind (parent_add_child plb previous_anonymous_box
                 (bind (index plb) (fun i => ret (Z.of_nat <$> i))))
           (fun _ =>
              bind (remove_from_parent plb)
                (fun _ =>
                   bind (add_child previous_anonymous_box plb None)
                     (fun _ => ret previous_anonymous_box)))) h =
      Ok (prev, h') ->
    good h' /\ grows h h' /\
    class_of h' prev = Some AnonymousBlockBox /\
    (forall x, x <> plb -> x < length (boxes h) ->
               parent_of h' x = parent_of h x)).
  { clear H Hanon. intros H.
    apply bind_ok in H as (pa & hA & HA & H).
    destruct (new_box_forest h AnonymousBlockBox (o_element lo) Hf)
      as (hA' & HA' & HfA & HoA & HlenA & HcA & _ & HpA & HlA & HoldA).
    rewrite HA' in HA. injection HA as <- <-.
    set (pv := length (boxes h)) in *.
    assert (Hplb_old : plb <> pv).
    { apply class_of_exists in Hplb. unfold pv. lia. }
    apply bind_ok in H as (u1 & hB & HB & H).
    apply (parent_add_child_ok _ _ _ _ _ _ (read_only_index_arg plb)) in HB
      as (P & i & HP & Hidx & HB).
    apply bind_ok in Hidx as (r & h2 & Hidx & Hr).
    apply index_ok in Hidx as [-> Hidx]. injection Hr as <-.
    destruct Hidx as [[_ Hnone] | (P' & l & j & -> & HP' & Hl & Hj)];
      [congruence |].
    rewrite HP in HP'. injection HP' as <-.
    assert (HPold : P <> pv).
    { destruct (HoldA plb Hplb_old) as (_ & _ & Hpp & _).
      rewrite Hpp in HP. apply (forest_parent_exists h plb P Hf) in HP.
      unfold pv. lia. }
    pose proof (add_child_forest _ _ _ _ _ _ HfA HoA HB) as HfB.
    destruct (add_child_effect _ _ _ _ _ _ (forest_sane _ HfA) HB)
      as (_ & HsbB & HpvB & HpoB & l0 & Hl0 & HlB & HfrB).
    rewrite Hl in Hl0. injection Hl0 as <-.
    apply bind_ok in H as (u2 & hC & HC & H).
    destruct (remove_from_parent_forest _ _ _ _ HfB HC) as [HfC HoC].
    destruct (remove_from_parent_effect _ _ _ _ (forest_sane _ HfB) HC)
      as (_ & HsbC & HpC & P2 & l2 & l2' & HP2 & Hl2 & Hrem & HlC & HfrC).
    rewrite (HpoB plb Hplb_old), HP in HP2. injection HP2 as <-.
    rewrite HlB in Hl2. injection Hl2 as <-.
    apply bind_ok in H as (u3 & hD & HD & H). injection H as <- <-.
    pose proof (add_child_forest _ _ _ _ _ _ HfC HoC HD) as HfD.
    destruct (add_child_effect _ _ _ _ _ _ (forest_sane _ HfC) HD)
      as (_ & HsbD & HplbD & HpoD & l3 & Hl3 & HlD & HfrD).
    assert (Hl3' : l3 = []).
    { rewrite (HfrC pv) in Hl3 by auto. rewrite (HfrB pv) in Hl3 by auto.
      rewrite HlA in Hl3. now injection Hl3. }
    subst l3.
    assert (Hcls : forall x, class_of hD x = class_of hA' x).
    { intros x. destruct HsbB as (_ & Hb & _). destruct HsbC as (_ & Hc & _).
      destruct HsbD as (_ & Hd & _). now rewrite Hd, Hc, Hb. }
    assert (Hg : grows h hD).
    { intros x c Hx. rewrite Hcls.
      destruct (HoldA x) as (Hc' & _); [| now rewrite Hc'].
      apply class_of_exists in Hx. unfold pv. lia. }
    split; [split; [exact HfD |] |].
    - apply (unmixed_frame h hD Hu Hg). intros q c lq Hc Hb Hq.
      destruct (decide (q = pv)) as [-> | Hq1].
      + right. right. exists plb. rewrite HlD in Hq. injection Hq as <-.
        split; [reflexivity | now apply Hg].
      + rewrite Hcls in Hc. destruct (HoldA q Hq1) as (HcA' & _ & _ & HlqA).
        rewrite HcA' in Hc.
        rewrite (HfrD q Hq1) in Hq.
        destruct (decide (q = P)) as [-> | Hq2].
        * right. rewrite HlC in Hq. injection Hq as <-.
          rewrite (proj2 (proj2 (proj2 (HoldA P HPold)))) in Hl.
          destruct (Hu P c l Hc Hb Hl) as [Hall | (x & -> & Hx)].
          -- exfalso. rewrite Forall_forall in Hall.
             destruct (Hall plb) as (c' & Hc' & Hb').
             { apply list_elem_of_In. now apply (list_index_in _ _ j). }
             rewrite Hplb in Hc'. injection Hc' as <-. discriminate.
          -- pose proof (list_index_in _ _ _ Hj) as [-> | []].
             simpl in Hj. rewrite Nat.eqb_refl in Hj. injection Hj as <-.
             assert (Epv : Nat.eqb pv plb = false)
               by (apply Nat.eqb_neq; auto).
             change (py_insert (Z.of_nat 0) pv [plb]) with [pv; plb] in Hrem.
             cbn [list_remove] in Hrem.
             rewrite Epv, Nat.eqb_refl in Hrem. injection Hrem as <-.
             left. constructor; [| constructor].
             exists AnonymousBlockBox. split; [| reflexivity].
             now rewrite Hcls.
        * left. rewrite (HfrC q Hq2), (HfrB q Hq2), HlqA in Hq. auto.
    - split; [exact Hg |]. split; [now rewrite Hcls |].
      intros x Hx Hlt. rewrite (HpoD x Hx), HpC.
      assert (Hxpv : x <> pv) by (unfold pv; lia).
      rewrite (HpoB x Hxpv). now destruct (HoldA x Hxpv) as (_ & _ & -> & _). }
  destruct is_anon; [| exact (Hnew H)].
  destruct (Hanon eq_refl) as (q & Eq & Hq). rewrite Eq in H.
  injection H as <- <-.
  split; [split; assumption |]. split; [apply grows_refl |].
  split; [exact Hq | reflexivity].
Qed.

Lemma new_box_good (h : Heap) (c : BoxClass) (e : Element) :
  good h ->
  exists h',
    new_box c e h = Ok (length (boxes h), h') /\
    good h' /\ grows h h' /\ orphan h' (length (boxes h)) /\
    length (boxes h') = S (length (boxes h)) /\
    class_of h' (length (boxes h)) = Some c /\
    parent_of h' (length (boxes h)) = None /\
    children_of h' (length (boxes h)) = Some [] /\
    (forall x, x <> length (boxes h) ->
       class_of h' x = class_of h x /\ element_of h' x = element_of h x /\
       parent_of h' x = parent_of h x /\
       children_of h' x = children_of h x).
Proof.
  intros [Hf Hu].
  destruct (new_box_forest h c e Hf)
    as (h' & Hrun & Hf' & Ho & Hlen & Hc & _ & Hp & Hl & Hold).
  exists h'. split; [exact Hrun |].
  assert (Hg : grows h h').
  { intros x cx Hx. destruct (Hold x) as (-> & _); [| exact Hx].
    apply class_of_exists in Hx. lia. }
  split; [split; [exact Hf' |] |]; [| repeat split; auto; apply Hold; auto].
  apply (unmixed_frame h h' Hu Hg). intros q cq lq Hcq Hb Hq.
  destruct (decide (q = length (boxes h))) as [-> | Hne].
  - right. left. rewrite Hl in Hq. injection Hq as <-. constructor.
  - left. destruct (Hold q Hne) as (Hc' & _ & _ & Hl').
    now rewrite <- Hc', <- Hl'.
Qed.

Lemma not_line_box_block_level h x :
  block_level_at h x -> class_of h x <> Some LineBox.
Proof. intros (c & Hc & Hb) E. rewrite E in Hc. injection Hc as <-. discriminate. Qed.

(** A block container that has a block-level child has only block-level
    children. *)
Lemma unmixed_all_block_level h q c l x :
  unmixed h -> class_of h q = Some c -> is_BlockContainerBox c = true ->
  children_of h q = Some l -> In x l -> block_level_at h x ->
  Forall (block_level_at h) l.
Proof.
  intros Hu Hc Hb Hl Hx Hbx.
  destruct (Hu q c l Hc Hb Hl) as [Hall | (y & -> & Hy)]; [exact Hall |].
  destruct Hx as [-> | []]. now apply not_line_box_block_level in Hbx.
Qed.

(** Adding a block-level orphan next to a block-level sibling. *)
Lemma add_sibling_good (h h' : Heap) (sibling child : ref) u :
  good h -> orphan h child -> block_level_at h child ->
  block_level_at h sibling ->
  parent_add_child sibling child
    (bind (index_plus_1 sibling) (fun i => ret (Some (Z.of_nat i)))) h =
    Ok (u, h') ->
  good h' /\ same_boxes h h' /\
  (forall x, x <> child -> parent_of h' x = parent_of h x) /\
  (forall q, parent_of h sibling <> Some q ->
             children_of h' q = children_of h q).
Proof.
  intros Hgood Ho Hbc Hbs H.
  apply (parent_add_child_ok _ _ _ _ _ _ (read_only_index_plus_1_arg sibling))
    in H as (PP & i & HPP & Hidx & H).
  apply bind_ok in Hidx as (n & h1 & Hidx & Hr).
  apply index_plus_1_ok in Hidx as (-> & PP' & l & j & -> & HPP' & Hl & Hj).
  rewrite HPP in HPP'. injection HPP' as <-. injection Hr as <-.
  destruct (add_child_effect _ _ _ _ _ _ (forest_sane _ (proj1 Hgood)) H)
    as (_ & _ & _ & Hpo & _ & _ & _ & Hfr).
  destruct (add_child_good _ _ _ _ _ _ Hgood Ho H) as [Hg' Hsb].
  { intros c l' Hc Hb Hl'. left. split; [exact Hbc |].
    rewrite Hl in Hl'. injection Hl' as <-.
    apply (unmixed_all_block_level h PP c l sibling (proj2 Hgood) Hc Hb Hl);
      [now apply (list_index_in _ _ j) | exact Hbs]. }
  split; [exact Hg' |]. split; [exact Hsb |]. split; [exact Hpo |].
  intros q Hq. apply Hfr. congruence.
Qed.

(** *** Chains of parents *)

Lemma parent_chain_app h x l1 y l2 :
  parent_chain h x (l1 ++ y :: l2) -> parent_chain h y l2.
Proof.
  revert x. induction l1 as [| a l1 IH]; intros x; simpl.
  - now intros [_ H].
  - intros [_ H]. now apply (IH a).
Qed.

Lemma parent_chain_prefix h x l1 l2 :
  parent_chain h x l1 -> parent_chain h x l2 ->
  length l1 <= length l2 -> l1 = take (length l1) l2.
Proof.
  revert x l2. induction l1 as [| a l1 IH]; intros x l2 H1 H2 Hlen;
    [reflexivity |].
  destruct l2 as [| b l2]; [simpl in Hlen; lia |].
  destruct H1 as [Ha H1], H2 as [Hb H2]. rewrite Ha in Hb. injection Hb as <-.
  simpl. f_equal. apply (IH a); [exact H1 | exact H2 | simpl in Hlen; lia].
Qed.

(** A chain of parents that ends at the first occurrence of a box goes
    through no box twice. *)
Lemma parent_chain_NoDup h (l : list ref) (x z : ref) :
  parent_chain h x (l ++ [z]) -> ~ In z l -> NoDup (l ++ [z]).
Proof.
  revert x. induction l as [| a l IH]; intros x H Hz.
  - apply NoDup_singleton.
  - destruct H as [_ H]. simpl. apply NoDup_cons. split.
    + intros Ha%list_elem_of_In. apply in_app_or in Ha as [Ha | [<- | []]];
        [| apply Hz; now left].
      apply in_split in Ha as (u & v & ->).
      rewrite <- app_assoc in H. simpl in H.
      pose proof (parent_chain_app _ _ _ _ _ H) as Hv.
      assert (E : v ++ [z] = take (length (v ++ [z])) (u ++ a :: v ++ [z])).
      { apply (parent_chain_prefix h a); [exact Hv | exact H |].
        rewrite !length_app. simpl. rewrite length_app. lia. }
      apply Hz. right.
      assert (Hin : In z (take (length (v ++ [z])) (u ++ a :: v ++ [z]))).
      { rewrite <- E. apply in_or_app. right. now left. }
      replace (u ++ a :: v ++ [z]) with ((u ++ a :: v) ++ [z]) in Hin
        by (rewrite <- app_assoc; reflexivity).
      rewrite take_app_le in Hin
        by (rewrite !length_app; simpl; lia).
      rewrite <- (take_drop (length (v ++ [z])) (u ++ a :: v)).
      apply in_or_app. now left.
    + apply (IH a H). intros Hin. apply Hz. now right.
Qed.

Lemma parent_chain_frame h h' (l : list ref) (x z : ref) :
  parent_chain h x (l ++ [z]) ->
  (forall y, In y (x :: l) -> parent_of h' y = parent_of h y) ->
  parent_chain h' x (l ++ [z]).
Proof.
  revert x. induction l as [| a l IH]; intros x H Hfr.
  - destruct H as [H _]. split; [| exact I]. rewrite Hfr; [exact H | now left].
  - destruct H as [Ha H]. split.
    + rewrite Hfr; [exact Ha | now left].
    + apply IH; [exact H |]. intros y Hy. apply Hfr. now right.
Qed.

Lemma clones_for_frame h h2 n0 n cl :
  clones_for h n0 n cl -> grows h h2 ->
  (forall x c', parent_of h x = Some c' -> n0 <= c' ->
                parent_of h2 x = Some c') ->
  clones_for h2 n0 n cl.
Proof.
  intros H Hg Hp. revert cl H. induction n as [| n IH]; intros cl H;
    [exact I |].
  destruct H as (c & c' & -> & (k & Hk & Hb) & Hc & Hn & H).
  exists c, c'. split; [reflexivity |].
  split; [exists k; split; [now apply Hg | exact Hb] |].
  split; [now apply Hp |]. split; [exact Hn |]. now apply IH.
Qed.

Lemma clones_for_shorter h n0 n cl :
  clones_for h n0 (S n) cl -> clones_for h n0 n cl.
Proof.
  revert cl. induction n as [| n IH]; intros cl H; [exact I |].
  destruct H as (c & c' & -> & Hc & Hp & Hn & H).
  exists c, c'. repeat split; auto.
Qed.

(** *** Rebinding [children] to a shorter list *)

Lemma rebind_effect (h : Heap) (p : ref) (l' : list ref) lr' h1 u h' :
  sane h ->
  new_list l' h = Ok (lr', h1) -> set_children p lr' h1 = Ok (u, h') ->
  sane h' /\ same_boxes h h' /\
  (forall y, parent_of h' y = parent_of h y) /\
  children_of h' p = Some l' /\
  (forall q, q <> p -> children_of h' q = children_of h q).
Proof.
  intros [[Hc1 Hc2] Hns] Hn Hs.
  unfold new_list in Hn. injection Hn as <- <-.
  unfold set_children in Hs. apply bind_ok in Hs as (o & h2 & Ho & Hs).
  apply get_box_ok in Ho as [-> Ho]. cbn [boxes] in Ho.
  unfold put_box in Hs. injection Hs as _ <-. cbn [boxes lists].
  set (o' := mkObj (o_cls o) (o_element o) (o_parent o)
                   (Some (length (lists h))) (o_text o)).
  set (h' := mkHeap (<[p := o']> (boxes h)) (lists h ++ [l'])).
  assert (Hp : p < length (boxes h)) by (now apply lookup_lt_Some in Ho).
  assert (Hnew : boxes h' !! p = Some o').
  { unfold h'. cbn [boxes]. now apply list_lookup_insert_eq. }
  assert (Hold : forall q, q <> p -> boxes h' !! q = boxes h !! q).
  { intros q Hq. unfold h'. cbn [boxes]. now apply list_lookup_insert_ne. }
  assert (Hcrp : children_ref h' p = Some (length (lists h))).
  { unfold children_ref. now rewrite Hnew. }
  assert (Hcr : forall q, q <> p -> children_ref h' q = children_ref h q).
  { intros q Hq. unfold children_ref. now rewrite (Hold q Hq). }
  assert (Hlt : forall q lr, children_ref h q = Some lr ->
                             lr < length (lists h)).
  { intros q lr Hr. unfold children_ref in Hr.
    destruct (boxes h !! q) as [oq |] eqn:Eo; [| discriminate].
    exact (Hc2 q oq lr Eo Hr). }
  split; [split; [split |] |].
  - intros r ob q Hr Hq. unfold h'. cbn [boxes]. rewrite length_insert.
    destruct (decide (r = p)) as [-> | Hne].
    + rewrite Hnew in Hr. injection Hr as <-. exact (Hc1 p o q Ho Hq).
    + rewrite (Hold r Hne) in Hr. exact (Hc1 r ob q Hr Hq).
  - intros r ob lr Hr Hq. unfold h'. cbn [lists]. rewrite length_app.
    destruct (decide (r = p)) as [-> | Hne].
    + rewrite Hnew in Hr. injection Hr as <-. simpl in Hq.
      injection Hq as <-. simpl. lia.
    + rewrite (Hold r Hne) in Hr. pose proof (Hc2 r ob lr Hr Hq). simpl. lia.
  - intros q q' lr Hq Hq'.
    destruct (decide (q = p)) as [-> | Hn1];
      destruct (decide (q' = p)) as [-> | Hn2]; auto.
    + rewrite Hcrp in Hq. injection Hq as <-. rewrite (Hcr q' Hn2) in Hq'.
      apply Hlt in Hq'. lia.
    + rewrite Hcrp in Hq'. injection Hq' as <-. rewrite (Hcr q Hn1) in Hq.
      apply Hlt in Hq. lia.
    + rewrite (Hcr q Hn1) in Hq. rewrite (Hcr q' Hn2) in Hq'.
      now apply (Hns q q' lr).
  - split; [repeat split |].
    + unfold h'. cbn [boxes]. apply length_insert.
    + intros x. unfold class_of, h'. cbn [boxes].
      eapply class_of_insert_same; [exact Ho | reflexivity].
    + intros x. unfold element_of, h'. cbn [boxes].
      eapply element_of_insert_same; [exact Ho | reflexivity].
    + split; [| split].
      * intros y. unfold parent_of. destruct (decide (y = p)) as [-> | Hne].
        -- now rewrite Hnew, Ho.
        -- now rewrite (Hold y Hne).
      * unfold children_of. rewrite Hcrp. cbn [mbind option_bind].
        unfold h'. cbn [lists]. now rewrite list_lookup_middle.
      * intros q Hq. unfold children_of. rewrite (Hcr q Hq).
        destruct (children_ref h q) as [lr |] eqn:Er; [| reflexivity].
        cbn [mbind option_bind]. unfold h'. cbn [lists].
        apply lookup_app_l. now apply (Hlt q lr).
Qed.

Lemma ok_children_take h (i : nat) (l : list ref) :
  ok_children h l -> ok_children h (take i l).
Proof.
  intros [H | (x & -> & Hx)].
  - left. rewrite <- (take_drop i l) in H.
    apply List.Forall_app in H as [H _]. exact H.
  - destruct i as [| i].
    + left. constructor.
    + right. exists x. split; [| exact Hx]. simpl. now rewrite take_nil.
Qed.

Lemma truncate_good (h : Heap) (p : ref) (l : list ref) (i : nat)
    lr' h1 u h' :
  good h -> children_of h p = Some l ->
  new_list (take i l) h = Ok (lr', h1) ->
  set_children p lr' h1 = Ok (u, h') ->
  good h' /\ same_boxes h h' /\
  (forall y, parent_of h' y = parent_of h y) /\
  (forall q, q <> p -> children_of h' q = children_of h q) /\
  children_of h' p = Some (take i l) /\
  (forall x, In x (drop i l) -> orphan h' x) /\ NoDup (drop i l).
Proof.
  intros [(Hs & HK & HD) Hu] Hl Hn Hset.
  destruct (rebind_effect _ _ _ _ _ _ _ Hs Hn Hset)
    as (Hs' & Hsb & Hp & Hl' & Hfr).
  pose proof (HD p l Hl) as Hnd.
  rewrite <- (take_drop i l) in Hnd.
  apply NoDup_app in Hnd as (Hnd1 & Hnd12 & Hnd2).
  assert (Htake : forall x, In x (take i l) -> In x l).
  { intros x Hx. rewrite <- (take_drop i l). apply in_or_app. now left. }
  assert (Hdrop : forall x, In x (drop i l) -> In x l).
  { intros x Hx. rewrite <- (take_drop i l). apply in_or_app. now right. }
  split; [split; [split; [exact Hs' | split] |] |].
  - intros q lq x Hq Hx. rewrite Hp.
    destruct (decide (q = p)) as [-> | Hne].
    + rewrite Hl' in Hq. injection Hq as <-. apply (HK p l x Hl).
      now apply Htake.
    + rewrite (Hfr q Hne) in Hq. now apply (HK q lq).
  - intros q lq Hq. destruct (decide (q = p)) as [-> | Hne].
    + rewrite Hl' in Hq. now injection Hq as <-.
    + rewrite (Hfr q Hne) in Hq. now apply (HD q).
  - apply (unmixed_frame h h' Hu (same_boxes_grows _ _ Hsb)).
    intros q c lq Hc Hb Hq. destruct Hsb as (_ & Hcls & _).
    rewrite Hcls in Hc. destruct (decide (q = p)) as [-> | Hne].
    + right. rewrite Hl' in Hq. injection Hq as <-.
      apply ok_children_take.
      apply (ok_children_grows h h' l).
      * intros x cx Hx. now rewrite Hcls.
      * now apply (Hu p c l).
    + left. rewrite (Hfr q Hne) in Hq. auto.
  - split; [exact Hsb |]. split; [exact Hp |]. split; [exact Hfr |].
    split; [exact Hl' |]. split; [| exact Hnd2].
    intros x Hx q lq Hq Hin. destruct (decide (q = p)) as [-> | Hne].
    + rewrite Hl' in Hq. injection Hq as <-.
      apply (Hnd12 x); now apply list_elem_of_In.
    + rewrite (Hfr q Hne) in Hq.
      pose proof (HK q lq x Hq Hin) as H1.
      pose proof (HK p l x Hl (Hdrop x Hx)) as H2. congruence.
Qed.

Lemma not_container_at_grows h h' x :
  grows h h' -> not_container_at h x -> not_container_at h' x.
Proof. intros Hg (c & Hc & Hb). exists c. split; [now apply Hg | exact Hb]. Qed.

(** Moving orphans under a box that is no block container. *)
Lemma add_children_good (xs : list ref) :
  forall (h h' : Heap) (c : ref) u,
    good h -> NoDup xs -> (forall x, In x xs -> orphan h x) ->
    not_container_at h c ->
    add_children (Some c) xs h = Ok (u, h') ->
    good h' /\ same_boxes h h' /\
    (forall y, ~ In y xs -> parent_of h' y = parent_of h y) /\
    (forall q, q <> c -> children_of h' q = children_of h q).
Proof.
  induction xs as [| x xs IH]; intros h h' c u Hg Hnd Ho Hc H.
  - injection H as _ <-. split; [exact Hg |].
    split; [apply same_boxes_refl |]. auto.
  - simpl in H. apply bind_ok in H as (u1 & h1 & H1 & H).
    apply NoDup_cons in Hnd as [Hx Hnd].
    assert (Hox : orphan h x) by (apply Ho; now left).
    destruct (add_child_good _ _ _ _ _ _ Hg Hox H1) as [Hg1 Hsb1].
    { intros k l Hk Hb _. destruct Hc as (k' & Hk' & Hb').
      rewrite Hk in Hk'. injection Hk' as <-. congruence. }
    destruct (add_child_effect _ _ _ _ _ _ (forest_sane _ (proj1 Hg)) H1)
      as (_ & _ & _ & Hpo & l & Hl & Hl' & Hfr).
    destruct (IH h1 h' c u Hg1 Hnd) as (Hg' & Hsb' & Hp' & Hfr'); auto.
    + intros y Hy q lq Hq Hin. destruct (decide (q = c)) as [-> | Hne].
      * rewrite Hl' in Hq. injection Hq as <-.
        apply (in_inserted None) in Hin as [-> | Hin].
        -- apply Hx. now apply list_elem_of_In.
        -- apply (Ho y (or_intror Hy) c l Hl Hin).
      * rewrite (Hfr q Hne) in Hq. apply (Ho y (or_intror Hy) q lq Hq Hin).
    + apply (not_container_at_grows h h1); [| exact Hc].
      now apply same_boxes_grows.
    + split; [exact Hg' |].
      split; [eapply same_boxes_trans; eauto |]. split.
      * intros y Hy. rewrite Hp' by (intros Hin; apply Hy; now right).
        apply Hpo. intros ->. apply Hy. now left.
      * intros q Hq. rewrite (Hfr' q Hq). now apply Hfr.
Qed.

Lemma parent_chain_succ h (l : list ref) (x z y : ref) :
  parent_chain h x (l ++ [z]) -> In y (x :: l) ->
  exists y', parent_of h y = Some y' /\ In y' (l ++ [z]).
Proof.
  revert x. induction l as [| a l IH]; intros x H Hy.
  - destruct Hy as [<- | []]. destruct H as [H _]. exists z. split; [exact H |].
    now left.
  - destruct H as [Ha H]. destruct Hy as [<- | Hy].
    + exists a. split; [exact Ha | now left].
    + destruct (IH a H Hy) as (y' & Hp & Hin). exists y'.
      split; [exact Hp | now right].
Qed.

Lemma children_of_parts h p lr l :
  children_ref h p = Some lr -> lists h !! lr = Some l ->
  children_of h p = Some l.
Proof. intros H1 H2. unfold children_of. now rewrite H1. Qed.

(** *** The second loop of [block_in_inline] *)

Lemma move_tails_good (n0 : nat) (plb : ref) (chain : list ref) :
  forall (fuel : nat) (s : ref) (clone : option ref) (h h' : Heap) u,
    good h -> parent_chain h s (chain ++ [plb]) ->
    NoDup (chain ++ [plb]) -> Forall (fun p => p < n0) chain ->
    clones_for h n0 (length chain) clone ->
    move_tails fuel plb s clone h = Ok (u, h') ->
    good h' /\ same_boxes h h'.
Proof.
  induction chain as [| p rest IH];
    intros fuel s clone h h' u Hg Hch Hnd Hlt Hcl H;
    (destruct fuel as [| fuel]; [discriminate |]);
    cbn [move_tails] in H;
    apply bind_ok in H as (o & h0 & Ho & H);
    apply get_box_ok in Ho as [-> Ho];
    destruct Hch as [Hs Hch];
    pose proof Hs as Hs'; unfold parent_of in Hs'; rewrite Ho in Hs';
    cbn [mbind option_bind] in Hs'; rewrite Hs' in H.
  - rewrite Nat.eqb_refl in H. injection H as _ <-.
    split; [exact Hg | apply same_boxes_refl].
  - simpl in Hnd. apply NoDup_cons in Hnd as [Hp Hnd].
    assert (Hne : Nat.eqb p plb = false).
    { apply Nat.eqb_neq. intros ->. apply Hp. apply list_elem_of_In.
      apply in_or_app. right. now left. }
    rewrite Hne in H.
    apply bind_ok in H as (i & h0 & Hi & H).
    apply index_plus_1_ok in Hi as (-> & q & l & j & -> & Hq & Hl & Hj).
    rewrite Hs in Hq. injection Hq as <-.
    apply bind_ok in H as (lr & h0 & Hlr & H).
    apply children_list_ok in Hlr as [-> Hlr].
    apply bind_ok in H as (l0 & h0 & Hl0 & H).
    apply get_list_ok in Hl0 as [-> Hl0].
    rewrite (children_of_parts _ _ _ _ Hlr Hl0) in Hl. injection Hl as ->.
    assert (Hl : children_of h p = Some l)
      by (now apply (children_of_parts _ _ lr)).
    apply bind_ok in H as (lr' & h1 & Hn & H).
    apply bind_ok in H as (u1 & h2 & Hset & H).
    destruct (truncate_good _ _ _ _ _ _ _ _ Hg Hl Hn Hset)
      as (Hg2 & Hsb2 & Hp2 & Hfr2 & Hl2 & Hor2 & Hnd2).
    apply bind_ok in H as (u2 & h3 & Hadd & H).
    destruct Hcl as (c & c' & -> & Hnc & Hpc & Hn0 & Hcl).
    destruct (add_children_good _ _ _ _ _ Hg2 Hnd2 Hor2
                (not_container_at_grows _ _ _ (same_boxes_grows _ _ Hsb2) Hnc)
                Hadd) as (Hg3 & Hsb3 & Hp3 & Hfr3).
    pose proof (same_boxes_trans _ _ _ Hsb2 Hsb3) as Hsb.
    inversion Hlt as [| ? ? Hpn Hlt']; subst.
    assert (Hmoved : forall x, In x (drop (j + 1) l) ->
                               parent_of h x = Some p).
    { intros x Hx. destruct Hg as [(_ & HK & _) _]. apply (HK p l x Hl).
      rewrite <- (take_drop (j + 1) l). apply in_or_app. now right. }
    assert (Hkeep : forall x k, parent_of h x = Some k -> k <> p ->
                                parent_of h3 x = Some k).
    { intros x k Hx Hk. rewrite Hp3, Hp2; [exact Hx |].
      intros Hin. apply Hmoved in Hin. congruence. }
    apply bind_ok in H as (co & h0 & Hco & H).
    apply get_box_ok in Hco as [-> Hco].
    assert (Hc3 : parent_of h3 c = Some c') by (apply Hkeep; [auto | lia]).
    unfold parent_of in Hc3. rewrite Hco in Hc3.
    cbn [mbind option_bind] in Hc3. rewrite Hc3 in H.
    destruct (IH fuel p (Some c') h3 h' u Hg3) as [Hg' Hsb']; auto.
    + apply (parent_chain_frame h); [exact Hch |].
      intros y Hy.
      destruct (parent_chain_succ _ _ _ _ _ Hch Hy) as (y' & Hy' & Hin).
      rewrite Hy'. apply Hkeep; [exact Hy' |].
      intros ->. apply Hp. now apply list_elem_of_In.
    + apply (clones_for_frame h); [exact Hcl | now apply same_boxes_grows |].
      intros x k Hx Hk. apply Hkeep; [exact Hx | lia].
    + split; [exact Hg' | eapply same_boxes_trans; eauto].
Qed.

Lemma children_of_exists h x l :
  children_of h x = Some l -> x < length (boxes h).
Proof.
  unfold children_of, children_ref.
  destruct (boxes h !! x) as [o |] eqn:E; [| discriminate].
  intros _. now apply lookup_lt_Some in E.
Qed.

Lemma parent_of_exists h x q :
  parent_of h x = Some q -> x < length (boxes h).
Proof.
  unfold parent_of. destruct (boxes h !! x) as [o |] eqn:E; [| discriminate].
  intros _. now apply lookup_lt_Some in E.
Qed.

(** *** The clones *)

Lemma clone_chain_good (n0 : nat) (popped : list ref) :
  forall (h h' : Heap) (cb last : ref) (n : nat),
    good h -> n0 <= cb -> n0 <= length (boxes h) ->
    Forall (not_container_at h) popped ->
    (not_container_at h cb \/
     (children_of h cb = Some [] /\
      exists p rest, popped = p :: rest /\ class_of h p = Some LineBox)) ->
    clones_for h n0 n (Some cb) ->
    clone_chain popped cb h = Ok (last, h') ->
    good h' /\ grows h h' /\
    (forall x, x < n0 -> parent_of h' x = parent_of h x) /\
    clones_for h' n0 (length popped + n) (Some last).
Proof.
  induction popped as [| p rest IH];
    intros h h' cb last n Hg Hcb Hn0 Hall Hside Hcl H.
  - injection H as <- <-. split; [exact Hg |].
    split; [apply grows_refl |]. split; [reflexivity | exact Hcl].
  - cbn [clone_chain] in H.
    apply bind_ok in H as (po & h0 & Hpo & H).
    apply get_box_ok in Hpo as [-> Hpo].
    apply bind_ok in H as (c & h1 & Hnl & H).
    assert (Hnt : o_cls po <> TextBox).
    { intros E. unfold new_like in Hnl. rewrite E in Hnl. discriminate. }
    rewrite (new_like_eq po h Hnt) in Hnl.
    destruct (new_box_good h (o_cls po) (o_element po) Hg)
      as (h1' & Hrun & Hg1 & Hgr1 & Hor1 & Hlen1 & Hc1 & Hp1 & Hl1 & Hold1).
    rewrite Hrun in Hnl. injection Hnl as <- <-.
    set (c := length (boxes h)) in *.
    apply bind_ok in H as (u & h2 & Hadd & H).
    inversion Hall as [| ? ? Hp Hrest]; subst.
    assert (Hclsp : class_of h p = Some (o_cls po)).
    { unfold class_of. now rewrite Hpo. }
    assert (Hncp : is_BlockContainerBox (o_cls po) = false).
    { destruct Hp as (k & Hk & Hb). rewrite Hclsp in Hk.
      now injection Hk as ->. }
    assert (Hcbx : cb < c).
    { destruct Hside as [(k & Hk & _) | [Hl _]];
        [now apply class_of_exists in Hk | now apply children_of_exists in Hl]. }
    assert (Hcbne : cb <> c) by lia.
    destruct (Hold1 cb Hcbne) as (Hcb1 & _ & _ & Hcbl1).
    destruct (add_child_good _ _ _ _ _ _ Hg1 Hor1 Hadd) as [Hg2 Hsb2].
    { intros k l Hk Hb Hl. right. rewrite Hcb1 in Hk. rewrite Hcbl1 in Hl.
      destruct Hside as [(k' & Hk' & Hb') | [Hl0 (p0 & r0 & E & Hlb)]].
      - rewrite Hk in Hk'. injection Hk' as <-. congruence.
      - rewrite Hl in Hl0. injection Hl0 as ->. split; [reflexivity |].
        injection E as <- <-. rewrite Hclsp in Hlb. now rewrite Hc1. }
    destruct (add_child_effect _ _ _ _ _ _ (forest_sane _ (proj1 Hg1)) Hadd)
      as (_ & _ & Hpc2 & Hpo2 & _).
    pose proof (grows_trans _ _ _ Hgr1 (same_boxes_grows _ _ Hsb2)) as Hgr2.
    assert (Hkeep : forall x k, parent_of h x = Some k ->
                                parent_of h2 x = Some k).
    { intros x k Hx. assert (Hxc : x <> c).
      { apply parent_of_exists in Hx. unfold c. lia. }
      rewrite (Hpo2 x Hxc). destruct (Hold1 x Hxc) as (_ & _ & -> & _).
      exact Hx. }
    destruct (IH h2 h' c last (S n) Hg2) as (Hg' & Hgr' & Hp' & Hcl'); auto.
    + destruct Hsb2 as (-> & _). lia.
    + eapply List.Forall_impl; [| exact Hrest].
      intros x. now apply not_container_at_grows.
    + left. exists (o_cls po). split; [| exact Hncp].
      destruct Hsb2 as (_ & -> & _). exact Hc1.
    + exists c, cb. split; [reflexivity |].
      split; [exists (o_cls po); split; [| exact Hncp];
              destruct Hsb2 as (_ & -> & _); exact Hc1 |].
      split; [exact Hpc2 |]. split; [exact Hcb |].
      apply (clones_for_frame h); [exact Hcl | exact Hgr2 |].
      intros x k Hx _. now apply Hkeep.
    + split; [exact Hg' |]. split; [eapply grows_trans; eauto |]. split.
      * intros x Hx. rewrite (Hp' x Hx).
        assert (Hxc : x <> c) by (unfold c; lia).
        rewrite (Hpo2 x Hxc). now destruct (Hold1 x Hxc) as (_ & _ & -> & _).
      * cbn [length]. now rewrite Nat.add_succ_r in Hcl'.
Qed.

Lemma ok_children_remove h (l1 l2 : list ref) (x : ref) :
  ok_children h (l1 ++ x :: l2) -> ok_children h (l1 ++ l2).
Proof.
  intros [H | (y & E & Hy)]; left.
  - apply List.Forall_app in H as [H1 H2]. apply List.Forall_app.
    split; [exact H1 |]. now inversion H2.
  - destruct l1 as [| a l1].
    + injection E as _ ->. constructor.
    + injection E as _ E. now destruct l1.
Qed.

Lemma remove_from_parent_good (h h' : Heap) (x : ref) u :
  good h -> remove_from_parent x h = Ok (u, h') ->
  good h' /\ orphan h' x /\ same_boxes h h'.
Proof.
  intros [Hf Hu] H.
  destruct (remove_from_parent_forest _ _ _ _ Hf H) as [Hf' Ho].
  destruct (remove_from_parent_effect _ _ _ _ (forest_sane _ Hf) H)
    as (_ & Hsb & _ & q & l & l' & _ & Hl & Hr & Hl' & Hfr).
  split; [| split; [exact Ho | exact Hsb]]. split; [exact Hf' |].
  pose proof (same_boxes_grows _ _ Hsb) as Hg.
  apply (unmixed_frame h h' Hu Hg). intros q' c lq Hc Hb Hq.
  destruct Hsb as (_ & Hcls & _). rewrite Hcls in Hc.
  destruct (decide (q' = q)) as [-> | Hne].
  - right. rewrite Hl' in Hq. injection Hq as <-.
    apply list_remove_split in Hr as (l1 & l2 & -> & -> & _).
    apply (ok_children_remove h' l1 l2 x).
    apply (ok_children_grows h h' _ Hg). now apply (Hu q c).
  - left. rewrite (Hfr q' Hne) in Hq. auto.
Qed.

Lemma inline_not_container (c : BoxClass) :
  is_InlineBox c = true -> is_BlockContainerBox c = false.
Proof. now destruct c. Qed.

Lemma block_level_not_line_box (c : BoxClass) :
  is_BlockLevelBox c = true -> c <> LineBox.
Proof. now destruct c. Qed.

(** *** One split *)

Lemma split_inline_good (fuel : nat) (box : ref) (h h' : Heap) u :
  good h -> block_level_at h box ->
  split_inline fuel box h = Ok (u, h') ->
  good h' /\ grows h h'.
Proof.
  intros Hg Hbox H. unfold split_inline in H.
  apply bind_ok in H as ([[[ips plb] prev] next] & hc & Hset & H).
  unfold split_setup in Hset.
  apply bind_ok in Hset as ([ips' bound] & h0 & Hf & Hset).
  destruct bound as [plb' |]; [| discriminate].
  apply find_ancestry_spec in Hf as (-> & inl & Eips & Hch & Hinl & Hplb).
  simpl in Eips. subst ips'.
  apply bind_ok in Hset as (prev' & ha & Ha & Hset).
  destruct (previous_anonymous_good _ _ _ _ Hg Hplb Ha)
    as (Hga & Hgra & Hprev & Hpa).
  apply bind_ok in Hset as (lo & h0 & Hlo & Hset).
  apply get_box_ok in Hlo as [-> Hlo].
  apply bind_ok in Hset as (nx & hb & Hb & Hset).
  destruct (new_box_good ha AnonymousBlockBox (o_element lo) Hga)
    as (hb' & Hrun & Hgb & Hgrb & Horb & Hlenb & Hcb & Hpb & Hlb & Holdb).
  rewrite Hrun in Hb. injection Hb as <- <-.
  set (nx := length (boxes ha)) in *.
  apply bind_ok in Hset as (u1 & hc' & Hc & Hset).
  injection Hset as <- <- <- <- <-.
  assert (Hblnx : block_level_at hb' nx).
  { exists AnonymousBlockBox. now split. }
  assert (Hblprev_a : block_level_at ha prev').
  { exists AnonymousBlockBox. now split. }
  destruct (add_sibling_good _ _ _ _ _ Hgb Horb Hblnx
              (block_level_at_grows _ _ _ Hgrb Hblprev_a) Hc)
    as (Hgc & Hsbc & Hpc & Hfrc).
  pose proof (same_boxes_grows _ _ Hsbc) as Hgrc.
  assert (Hprevx : prev' < nx) by (now apply class_of_exists in Hprev).
  assert (Hprevne : prev' <> nx) by lia.
  assert (Hlc : children_of hc' nx = Some []).
  { rewrite Hfrc; [exact Hlb |].
    destruct (Holdb prev' Hprevne) as (_ & _ & -> & _). intros Hq.
    apply (forest_parent_exists _ _ _ (proj1 Hga)) in Hq. unfold nx in Hq. lia. }
  pose proof (grows_trans _ _ _ Hgra (grows_trans _ _ _ Hgrb Hgrc)) as Hgr_c.
  (* the chain of ancestors *)
  assert (Hplbinl : ~ In plb' inl).
  { intros Hin. rewrite Forall_forall in Hinl.
    destruct (Hinl plb') as (k & Hk & Hi); [now apply list_elem_of_In |].
    rewrite Hplb in Hk. now injection Hk as <-. }
  pose proof (parent_chain_NoDup _ _ _ _ Hch Hplbinl) as Hnd.
  assert (Hinl_nc : Forall (not_container_at h) inl).
  { eapply List.Forall_impl; [| exact Hinl].
    intros x (k & Hk & Hi). exists k. split; [exact Hk |].
    now apply inline_not_container. }
  assert (Hplb_nc : not_container_at h plb').
  { exists LineBox. now split. }
  assert (Hold : forall x k, class_of h x = Some k -> x < nx).
  { intros x k Hx. apply Hgra in Hx. now apply class_of_exists in Hx. }
  (* the clones *)
  apply bind_ok in H as (last & hd & Hcl & H).
  rewrite rev_unit in Hcl.
  assert (Hnxc : nx <= length (boxes hc')).
  { destruct Hsbc as (-> & _). lia. }
  assert (Hpopped : Forall (not_container_at hc') (plb' :: rev inl)).
  { constructor.
    - now apply (not_container_at_grows h).
    - apply List.Forall_rev. eapply List.Forall_impl; [| exact Hinl_nc].
      intros x. now apply not_container_at_grows. }
  assert (Hside : not_container_at hc' nx \/
            (children_of hc' nx = Some [] /\
             exists p rest, plb' :: rev inl = p :: rest /\
                            class_of hc' p = Some LineBox)).
  { right. split; [exact Hlc |]. exists plb', (rev inl).
    split; [reflexivity | now apply Hgr_c]. }
  destruct (clone_chain_good nx _ _ _ _ _ 0 Hgc (Nat.le_refl nx) Hnxc
              Hpopped Hside I Hcl) as (Hgd & Hgrd & Hpd & Hcld).
  (* the rest of the lines moves over *)
  apply bind_ok in H as (u2 & he & Hmv & H).
  assert (Hpar : forall y, In y (box :: inl) ->
                           parent_of hd y = parent_of h y).
  { intros y Hy.
    assert (Hcy : exists k, class_of h y = Some k /\ k <> LineBox).
    { destruct Hy as [<- | Hy].
      - destruct Hbox as (k & Hk & Hb). exists k. split; [exact Hk |].
        now apply block_level_not_line_box.
      - rewrite Forall_forall in Hinl.
        destruct (Hinl y) as (k & Hk & Hi); [now apply list_elem_of_In |].
        exists k. split; [exact Hk |]. intros ->. discriminate. }
    destruct Hcy as (k & Hk & Hkl).
    assert (Hyx : y < nx) by (now apply (Hold y k)).
    assert (Hyne : y <> nx) by lia.
    rewrite (Hpd y Hyx), (Hpc y Hyne).
    destruct (Holdb y Hyne) as (_ & _ & -> & _).
    apply Hpa; [| now apply class_of_exists in Hk].
    intros ->. rewrite Hplb in Hk. injection Hk as <-. now apply Hkl. }
  destruct (move_tails_good nx plb' inl fuel box (Some last) hd he u2 Hgd)
    as [Hge Hsbe]; auto.
  { now apply (parent_chain_frame h). }
  { rewrite Forall_forall in Hinl. apply Forall_forall. intros y Hy.
    destruct (Hinl y Hy) as (k & Hk & _). now apply (Hold y k). }
  { apply clones_for_shorter. cbn [length] in Hcld.
    now rewrite length_rev, Nat.add_0_r in Hcld. }
  pose proof (same_boxes_grows _ _ Hsbe) as Hgre.
  (* the block box moves between the two anonymous boxes *)
  apply bind_ok in H as (u3 & hf & Hrm & H).
  destruct (remove_from_parent_good _ _ _ _ Hge Hrm) as (Hgf & Horf & Hsbf).
  pose proof (same_boxes_grows _ _ Hsbf) as Hgrf.
  pose proof (grows_trans _ _ _ Hgr_c
                (grows_trans _ _ _ Hgrd (grows_trans _ _ _ Hgre Hgrf)))
    as Hgr_f.
  destruct (add_sibling_good hf h' prev' box u Hgf Horf) as (Hg' & Hsb' & _);
    auto.
  { now apply (block_level_at_grows h). }
  { apply (block_level_at_grows ha); [| exact Hblprev_a].
    exact (grows_trans _ _ _ Hgrb
             (grows_trans _ _ _ Hgrc
                (grows_trans _ _ _ Hgrd (grows_trans _ _ _ Hgre Hgrf)))). }
  split; [exact Hg' |].
  exact (grows_trans _ _ _ Hgr_f (same_boxes_grows _ _ Hsb')).
Qed.

(** *** The whole of [block_in_inline] *)

Lemma block_in_inline_applies_ok (box : ref) (h h' : Heap) :
  block_in_inline_applies box h = Ok (true, h') ->
  h' = h /\ block_level_at h box.
Proof.
  intros H. unfold block_in_inline_applies in H.
  apply bind_ok in H as (o & h0 & Ho & H).
  apply get_box_ok in Ho as [-> Ho].
  destruct (o_parent o) as [q |]; [| discriminate].
  apply bind_ok in H as (qo & h0 & Hq & H).
  apply get_box_ok in Hq as [-> Hq].
  injection H as Hb <-. split; [reflexivity |].
  apply andb_true_iff in Hb as [Hb _].
  exists (o_cls o). split; [| exact Hb]. unfold class_of. now rewrite Ho.
Qed.

Lemma block_in_inline_applies_read_only (box : ref) :
  read_only (block_in_inline_applies box).
Proof.
  intros h a h' H. unfold block_in_inline_applies in H.
  apply bind_ok in H as (o & h0 & Ho & H).
  apply get_box_ok in Ho as [-> Ho].
  destruct (o_parent o) as [q |]; [| now injection H as _ <-].
  apply bind_ok in H as (qo & h0 & Hq & H).
  apply get_box_ok in Hq as [-> Hq]. now injection H as _ <-.
Qed.

Lemma for_each_live_good (visit : ref -> M unit) (lr : lref) :
  (forall child h h' u, good h -> visit child h = Ok (u, h') ->
                        good h' /\ grows h h') ->
  forall steps i h h' u,
    good h -> for_each_live visit lr steps i h = Ok (u, h') ->
    good h' /\ grows h h'.
Proof.
  intros Hv. induction steps as [| steps IH]; intros i h h' u Hg H;
    [discriminate |].
  cbn [for_each_live] in H.
  apply bind_ok in H as (l & h0 & Hl & H).
  apply get_list_ok in Hl as [-> Hl].
  destruct (l !! i) as [child |].
  - apply bind_ok in H as (u1 & h1 & H1 & H).
    destruct (Hv _ _ _ _ Hg H1) as [Hg1 Hgr1].
    destruct (IH _ _ _ _ Hg1 H) as [Hg' Hgr'].
    split; [exact Hg' | eapply grows_trans; eauto].
  - injection H as _ <-. split; [exact Hg | apply grows_refl].
Qed.

Lemma block_in_inline_good (fuel : nat) :
  forall (box : ref) (h h' : Heap) u,
    good h -> block_in_inline fuel box h = Ok (u, h') ->
    good h' /\ grows h h'.
Proof.
  induction fuel as [| fuel IH]; intros box h h' u Hg H; [discriminate |].
  rewrite block_in_inline_unfold in H.
  apply bind_ok in H as (o & h0 & Ho & H).
  apply get_box_ok in Ho as [-> Ho].
  apply bind_ok in H as (u1 & h1 & Hloop & H).
  assert (H1 : good h1 /\ grows h h1).
  { destruct (o_children o) as [lr |].
    - apply (for_each_live_good (block_in_inline fuel) lr IH _ _ _ _ _ Hg
               Hloop).
    - injection Hloop as _ <-. split; [exact Hg | apply grows_refl]. }
  destruct H1 as [Hg1 Hgr1].
  apply bind_ok in H as (applies & h2 & Ha & H).
  pose proof (block_in_inline_applies_read_only _ _ _ _ Ha) as ->.
  destruct applies.
  - apply block_in_inline_applies_ok in Ha as [_ Hb].
    destruct (split_inline_good _ _ _ _ _ Hg1 Hb H) as [Hg' Hgr'].
    split; [exact Hg' | eapply grows_trans; eauto].
  - injection H as _ <-. now split.
Qed.

(** *** Loading a tree *)

Lemma load_unfold (c : BoxClass) (e : Element) (kids : list Box) :
  load (Node c e kids) =
    bind (new_box c e)
      (fun r => bind (load_children load r kids) (fun _ => ret r)).
Proof. reflexivity. Qed.

Lemma good_empty : good empty_heap.
Proof.
  split; [split; [split; [split |] | split] |].
  - intros r o q H. discriminate.
  - intros r o lr H. discriminate.
  - intros q q' lr H. discriminate.
  - intros q l x H. discriminate.
  - intros q l H. discriminate.
  - intros q c l H. discriminate.
Qed.

Lemma parentless_orphan h x :
  forest h -> parent_of h x = None -> orphan h x.
Proof.
  intros (_ & HK & _) Hp q l Hq Hin. pose proof (HK q l x Hq Hin). congruence.
Qed.

Lemma new_text_box_good (h : Heap) (e : Element) (t : ustring) :
  good h ->
  exists h',
    new_text_box e t h = Ok (length (boxes h), h') /\
    good h' /\ grows h h' /\
    length (boxes h') = S (length (boxes h)) /\
    class_of h' (length (boxes h)) = Some TextBox /\
    (forall x, parent_of h' x = parent_of h x) /\
    (forall x, children_of h' x = children_of h x).
Proof.
  intros [([[Hc1 Hc2] Hns] & HK & HD) Hu].
  set (new := mkObj TextBox e None None (Some t)).
  set (h' := mkHeap (boxes h ++ [new]) (lists h)).
  exists h'. split; [reflexivity |].
  assert (Hnew : boxes h' !! length (boxes h) = Some new).
  { unfold h'. cbn [boxes]. now rewrite list_lookup_middle. }
  assert (Hnone : boxes h !! length (boxes h) = None)
    by (now apply lookup_ge_None_2).
  assert (Hold : forall x, x <> length (boxes h) ->
                           boxes h' !! x = boxes h !! x).
  { intros x Hx. unfold h'. cbn [boxes].
    destruct (decide (x < length (boxes h))) as [Hlt | Hge].
    - now rewrite lookup_app_l.
    - rewrite lookup_ge_None_2 by (rewrite length_app; simpl; lia).
      symmetry. apply lookup_ge_None_2. lia. }
  assert (Hlen : length (boxes h') = S (length (boxes h))).
  { unfold h'. cbn [boxes]. rewrite length_app. simpl. lia. }
  assert (Hcr : forall x, children_ref h' x = children_ref h x).
  { intros x. unfold children_ref.
    destruct (decide (x = length (boxes h))) as [-> | Hne].
    - now rewrite Hnew, Hnone.
    - now rewrite (Hold x Hne). }
  assert (Hp : forall x, parent_of h' x = parent_of h x).
  { intros x. unfold parent_of.
    destruct (decide (x = length (boxes h))) as [-> | Hne].
    - now rewrite Hnew, Hnone.
    - now rewrite (Hold x Hne). }
  assert (Hl : forall x, children_of h' x = children_of h x).
  { intros x. unfold children_of. now rewrite Hcr. }
  assert (Hg : grows h h').
  { intros x c Hx. unfold class_of in *.
    rewrite Hold; [exact Hx |]. intros ->. now rewrite Hnone in Hx. }
  assert (Hcn : class_of h' (length (boxes h)) = Some TextBox).
  { unfold class_of. now rewrite Hnew. }
  split; [| repeat split; auto].
  split; [split; [split; [split |] | split] |].
  - intros r o q Hr Hq. rewrite Hlen.
    destruct (decide (r = length (boxes h))) as [-> | Hne].
    + rewrite Hnew in Hr. injection Hr as <-. discriminate.
    + rewrite (Hold r Hne) in Hr. pose proof (Hc1 r o q Hr Hq). lia.
  - intros r o lr Hr Hq. unfold h'. cbn [lists].
    destruct (decide (r = length (boxes h))) as [-> | Hne].
    + rewrite Hnew in Hr. injection Hr as <-. discriminate.
    + rewrite (Hold r Hne) in Hr. exact (Hc2 r o lr Hr Hq).
  - intros q q' lr. rewrite !Hcr. apply Hns.
  - intros q l x. rewrite Hl, Hp. apply HK.
  - intros q l. rewrite Hl. apply HD.
  - apply (unmixed_frame h h' Hu Hg). intros q c l Hc Hb Hq. left.
    rewrite Hl in Hq. split; [| exact Hq].
    destruct (decide (q = length (boxes h))) as [-> | Hne].
    + rewrite Hcn in Hc. injection Hc as <-. discriminate.
    + unfold class_of in *. now rewrite (Hold q Hne) in Hc.
Qed.

Lemma is_LineBox_eq (c : BoxClass) : is_LineBox c = true -> c = LineBox.
Proof. now destruct c. Qed.

Lemma load_children_good (r : ref) (c : BoxClass) (n0 : nat) (ks : list Box) :
  Forall (fun k => forall h kr h',
            good h -> containers_ok k = true -> load k h = Ok (kr, h') ->
            loaded k h kr h') ks ->
  forallb containers_ok ks = true ->
  forall (h h' : Heap) u (l : list ref),
    good h -> n0 <= r -> class_of h r = Some c -> parent_of h r = None ->
    children_of h r = Some l ->
    (is_BlockContainerBox c = true ->
     ks = [] \/
     (Forall (block_level_at h) l /\ forallb is_block_level ks = true) \/
     (l = [] /\ exists k, ks = [k] /\ box_class k = LineBox)) ->
    load_children load r ks h = Ok (u, h') ->
    good h' /\ grows h h' /\ length (boxes h) <= length (boxes h') /\
    parent_of h' r = None /\
    (forall x, x < n0 ->
       parent_of h' x = parent_of h x /\ children_of h' x = children_of h x).
Proof.
  induction ks as [| k rest IH]; intros HF Hok h h' u l Hg Hn0 Hc Hp Hl Hinv H.
  - injection H as _ <-. split; [exact Hg |]. split; [apply grows_refl |].
    split; [lia |]. split; [exact Hp |]. auto.
  - inversion HF as [| ? ? Hk HFrest]; subst.
    cbn [forallb] in Hok. apply andb_true_iff in Hok as [Hokk Hokrest].
    cbn [load_children] in H.
    apply bind_ok in H as (kr & h1 & Hload & H).
    apply bind_ok in H as (u1 & h2 & Hadd & H).
    destruct (Hk h kr h1 Hg Hokk Hload)
      as (Hg1 & Hgr1 & -> & Hlen1 & Hckr & Hpkr & Hfr1).
    assert (Hrx : r < length (boxes h)) by (now apply class_of_exists in Hc).
    destruct (Hfr1 r Hrx) as [Hp1 Hl1]. rewrite Hp in Hp1. rewrite Hl in Hl1.
    pose proof (Hgr1 _ _ Hc) as Hc1.
    pose proof (parentless_orphan _ _ (proj1 Hg1) Hpkr) as Hor.
    destruct (add_child_good _ _ _ _ _ _ Hg1 Hor Hadd) as [Hg2 Hsb2].
    { intros c' l' Hc' Hb Hl'. rewrite Hc1 in Hc'. injection Hc' as <-.
      rewrite Hl1 in Hl'. injection Hl' as <-.
      destruct (Hinv Hb) as [E | [[Hall Hbl] | [-> (k0 & E & Hlb)]]];
        [discriminate | left | right].
      - cbn [forallb] in Hbl. apply andb_true_iff in Hbl as [Hbk _].
        split; [exists (box_class k); now split |].
        eapply List.Forall_impl; [| exact Hall].
        intros x. now apply block_level_at_grows.
      - injection E as <- _. split; [reflexivity |]. congruence. }
    destruct (add_child_effect _ _ _ _ _ _ (forest_sane _ (proj1 Hg1)) Hadd)
      as (_ & _ & _ & Hpo2 & l1 & Hl1' & Hl2 & Hfr2).
    rewrite Hl1 in Hl1'. injection Hl1' as <-.
    pose proof (same_boxes_grows _ _ Hsb2) as Hgr2.
    assert (Hrne : r <> length (boxes h)) by lia.
    destruct (IH HFrest Hokrest h2 h' u (l ++ [length (boxes h)]) Hg2 Hn0)
      as (Hg' & Hgr' & Hlen' & Hp' & Hfr'); auto.
    + rewrite (Hpo2 r Hrne). exact Hp1.
    + intros Hb.
      destruct (Hinv Hb) as [E | [[Hall Hbl] | [-> (k0 & E & Hlb)]]];
        [discriminate | right; left | left].
      * cbn [forallb] in Hbl. apply andb_true_iff in Hbl as [Hbk Hbr].
        split; [| exact Hbr]. apply List.Forall_app. split.
        -- eapply List.Forall_impl; [| exact Hall].
           intros x Hx. apply (block_level_at_grows h1 h2 x Hgr2).
           now apply (block_level_at_grows h h1).
        -- constructor; [| constructor]. exists (box_class k).
           split; [now apply Hgr2 | exact Hbk].
      * now injection E as _ <-.
    + split; [exact Hg' |].
      split; [exact (grows_trans _ _ _ Hgr1 (grows_trans _ _ _ Hgr2 Hgr')) |].
      split; [destruct Hsb2 as (E & _); lia |]. split; [exact Hp' |].
      intros x Hx. destruct (Hfr' x Hx) as [-> ->].
      assert (Hxh : x < length (boxes h)) by lia.
      destruct (Hfr1 x Hxh) as [<- <-]. split.
      * apply Hpo2. lia.
      * apply Hfr2. lia.
Qed.

Lemma load_good (b : Box) :
  forall h r h',
    good h -> containers_ok b = true -> load b h = Ok (r, h') ->
    loaded b h r h'.
Proof.
  induction b as [c e kids IH | e t] using Box_ind2; intros h r h' Hg Hok H.
  - rewrite load_unfold in H.
    apply bind_ok in H as (r0 & h1 & Hnew & H).
    apply bind_ok in H as (u & h2 & Hkids & H).
    injection H as <- <-.
    destruct (new_box_good h c e Hg)
      as (h1' & Hrun & Hg1 & Hgr1 & _ & Hlen1 & Hc1 & Hp1 & Hl1 & Hold1).
    rewrite Hrun in Hnew. injection Hnew as <- <-.
    cbn [containers_ok] in Hok. apply andb_true_iff in Hok as [Hcont Hok].
    destruct (load_children_good (length (boxes h)) c (length (boxes h))
                kids IH Hok h1' h2 u [] Hg1 (Nat.le_refl _) Hc1 Hp1 Hl1)
      as (Hg2 & Hgr2 & Hlen2 & Hp2 & Hfr2); auto.
    { intros Hb. rewrite Hb in Hcont. unfold container_children_ok in Hcont.
      apply orb_true_iff in Hcont as [Hall | Hone].
      - right. left. split; [constructor | exact Hall].
      - right. right. split; [reflexivity |].
        destruct kids as [| k [| k2 rest]]; try discriminate.
        exists k. split; [reflexivity | now apply is_LineBox_eq]. }
    split; [exact Hg2 |]. split; [eapply grows_trans; eauto |].
    split; [reflexivity |]. split; [lia |].
    split; [now apply Hgr2 |]. split; [exact Hp2 |].
    intros x Hx. destruct (Hfr2 x Hx) as [-> ->].
    assert (Hne : x <> length (boxes h)) by lia.
    destruct (Hold1 x Hne) as (_ & _ & -> & ->). now split.
  - cbn [load] in H.
    destruct (new_text_box_good h e t Hg)
      as (h1 & Hrun & Hg1 & Hgr1 & Hlen1 & Hc1 & Hp1 & Hl1).
    rewrite Hrun in H. injection H as <- <-.
    split; [exact Hg1 |]. split; [exact Hgr1 |]. split; [reflexivity |].
    split; [lia |]. split; [exact Hc1 |]. split.
    + rewrite Hp1. unfold parent_of. now rewrite lookup_ge_None_2.
    + intros x _. now split.
Qed.

(** *** Only text boxes are without a list of children *)

Lemma keeps_leafy_ret {A} (a : A) : keeps_leafy (ret a).
Proof. intros h a' h' H. now injection H as _ <-. Qed.

Lemma keeps_leafy_raise {A} (e : exn) : keeps_leafy (raise (A:=A) e).
Proof. intros h a h' H. discriminate. Qed.

Lemma keeps_leafy_out_of_fuel {A} : keeps_leafy (out_of_fuel (A:=A)).
Proof. intros h a h' H. discriminate. Qed.

Lemma keeps_leafy_bind {A B} (m : M A) (f : A -> M B) :
  keeps_leafy m -> (forall a, keeps_leafy (f a)) -> keeps_leafy (bind m f).
Proof.
  intros Hm Hf h b h' H Hl. apply bind_ok in H as (a & h1 & H1 & H2).
  apply (Hf a h1 b h' H2). now apply (Hm h a h1).
Qed.

Lemma keeps_leafy_read_only {A} (m : M A) : read_only m -> keeps_leafy m.
Proof. intros Hro h a h' H Hl. now rewrite (Hro h a h' H). Qed.

Lemma keeps_leafy_get_box r : keeps_leafy (get_box r).
Proof. apply keeps_leafy_read_only, read_only_get_box. Qed.

Lemma keeps_leafy_get_list lr : keeps_leafy (get_list lr).
Proof. apply keeps_leafy_read_only, read_only_get_list. Qed.

Lemma keeps_leafy_children_list r : keeps_leafy (children_list r).
Proof. apply keeps_leafy_read_only, read_only_children_list. Qed.

Lemma keeps_leafy_index r : keeps_leafy (index r).
Proof. apply keeps_leafy_read_only, read_only_index. Qed.

Lemma keeps_leafy_index_plus_1 r : keeps_leafy (index_plus_1 r).
Proof. apply keeps_leafy_read_only, read_only_index_plus_1. Qed.

Lemma keeps_leafy_put_list lr l : keeps_leafy (put_list lr l).
Proof. intros h a h' H Hl. injection H as _ <-. exact Hl. Qed.

Lemma keeps_leafy_new_list l : keeps_leafy (new_list l).
Proof. intros h a h' H Hl. injection H as _ <-. exact Hl. Qed.

Lemma leafy_app (h : Heap) (o : BoxObj) (ls : list (list ref)) :
  leafy h -> (o_children o = None -> o_cls o = TextBox) ->
  leafy (mkHeap (boxes h ++ [o]) ls).
Proof.
  intros Hl Ho r o' Hr Hn. cbn [boxes] in Hr.
  apply lookup_app_Some in Hr as [Hr | [_ Hr]]; [now apply (Hl r) |].
  apply list_lookup_singleton_Some in Hr as [_ <-]. now apply Ho.
Qed.

Lemma leafy_insert (h : Heap) (r : ref) (o o' : BoxObj)
    (ls : list (list ref)) :
  leafy h -> boxes h !! r = Some o -> o_cls o' = o_cls o ->
  (o_children o' = None -> o_children o = None) ->
  leafy (mkHeap (<[r := o']> (boxes h)) ls).
Proof.
  intros Hl Ho Hc Hn x ox Hx Hnone. cbn [boxes] in Hx.
  destruct (decide (r = x)) as [<- | Hne].
  - rewrite list_lookup_insert_eq in Hx by (now apply lookup_lt_Some in Ho).
    injection Hx as <-. rewrite Hc. apply (Hl r o Ho). now apply Hn.
  - rewrite list_lookup_insert_ne in Hx by exact Hne. now apply (Hl x).
Qed.

Lemma keeps_leafy_new_box c e : keeps_leafy (new_box c e).
Proof.
  intros h a h' H Hl. rewrite new_box_eq in H. injection H as _ <-.
  apply leafy_app; [exact Hl | discriminate].
Qed.

Lemma keeps_leafy_new_text_box e t : keeps_leafy (new_text_box e t).
Proof.
  intros h a h' H Hl. injection H as _ <-. now apply leafy_app.
Qed.

Lemma keeps_leafy_new_like o : keeps_leafy (new_like o).
Proof.
  unfold new_like.
  destruct (o_cls o); try apply keeps_leafy_new_box. apply keeps_leafy_raise.
Qed.

Lemma keeps_leafy_set_children r lr : keeps_leafy (set_children r lr).
Proof.
  intros h a h' H Hl. unfold set_children in H.
  apply bind_ok in H as (o & h0 & Ho & H). apply get_box_ok in Ho as [-> Ho].
  injection H as _ <-.
  apply (leafy_insert h r o); [exact Hl | exact Ho | reflexivity | discriminate].
Qed.

Create HintDb leafy.
#[local] Hint Resolve keeps_leafy_ret keeps_leafy_raise keeps_leafy_out_of_fuel
  keeps_leafy_get_box keeps_leafy_get_list keeps_leafy_children_list
  keeps_leafy_index keeps_leafy_index_plus_1 keeps_leafy_put_list
  keeps_leafy_new_list keeps_leafy_new_box keeps_leafy_new_text_box
  keeps_leafy_new_like keeps_leafy_set_children : leafy.

Ltac keeps_leafy_step :=
  first
    [ solve [auto with leafy]
    | apply keeps_leafy_bind; [| intros ?]
    | match goal with
      | |- keeps_leafy (match ?x with _ => _ end) => destruct x
      end ].

Lemma keeps_leafy_add_child self child idx :
  keeps_leafy (add_child self child idx).
Proof.
  intros h a h' H Hl. unfold add_child in H.
  apply bind_ok in H as (c & h0 & Hc & H). apply get_box_ok in Hc as [-> Hc].
  apply bind_ok in H as (u & h1 & Hput & H).
  injection Hput as _ <-.
  match type of H with
  | ?m _ = _ => assert (Hrest : keeps_leafy m) by (repeat keeps_leafy_step)
  end.
  apply (Hrest _ _ _ H). apply (leafy_insert h child c); auto.
Qed.
#[local] Hint Resolve keeps_leafy_add_child : leafy.

Lemma keeps_leafy_remove_from_parent box :
  keeps_leafy (remove_from_parent box).
Proof. unfold remove_from_parent. repeat keeps_leafy_step. Qed.

Lemma keeps_leafy_parent_add_child box child idx :
  keeps_leafy idx -> keeps_leafy (parent_add_child box child idx).
Proof. intros Hi. unfold parent_add_child. repeat keeps_leafy_step. Qed.
#[local] Hint Resolve keeps_leafy_remove_from_parent
  keeps_leafy_parent_add_child : leafy.

Lemma keeps_leafy_find_ancestry fuel :
  forall cur acc, keeps_leafy (find_ancestry fuel cur acc).
Proof.
  induction fuel as [| fuel IH]; intros cur acc; cbn [find_ancestry];
    repeat keeps_leafy_step; try apply IH.
Qed.

Lemma keeps_leafy_previous_anonymous plb :
  keeps_leafy (previous_anonymous plb).
Proof. unfold previous_anonymous. repeat keeps_leafy_step. Qed.

Lemma keeps_leafy_clone_chain popped :
  forall cb, keeps_leafy (clone_chain popped cb).
Proof.
  induction popped as [| p rest IH]; intros cb; cbn [clone_chain];
    repeat keeps_leafy_step; try apply IH.
Qed.

Lemma keeps_leafy_add_children clone xs :
  keeps_leafy (add_children clone xs).
Proof.
  induction xs as [| x xs IH]; cbn [add_children];
    repeat keeps_leafy_step; try exact IH.
Qed.
#[local] Hint Resolve keeps_leafy_find_ancestry keeps_leafy_previous_anonymous
  keeps_leafy_clone_chain keeps_leafy_add_children : leafy.

Lemma keeps_leafy_move_tails fuel plb :
  forall s clone, keeps_leafy (move_tails fuel plb s clone).
Proof.
  induction fuel as [| fuel IH]; intros s clone; cbn [move_tails];
    repeat keeps_leafy_step; try apply IH.
Qed.
#[local] Hint Resolve keeps_leafy_move_tails : leafy.

Lemma keeps_leafy_split_inline fuel box : keeps_leafy (split_inline fuel box).
Proof.
  unfold split_inline, split_setup. repeat keeps_leafy_step.
Qed.

Lemma keeps_leafy_for_each_live (visit : ref -> M unit) (lr : lref) :
  (forall child, keeps_leafy (visit child)) ->
  forall steps i, keeps_leafy (for_each_live visit lr steps i).
Proof.
  intros Hv. induction steps as [| steps IH]; intros i; cbn [for_each_live];
    repeat keeps_leafy_step; try apply Hv; try apply IH.
Qed.

Lemma keeps_leafy_block_in_inline fuel :
  forall box, keeps_leafy (block_in_inline fuel box).
Proof.
  induction fuel as [| fuel IH]; intros box;
    [apply keeps_leafy_out_of_fuel |].
  rewrite block_in_inline_unfold.
  apply keeps_leafy_bind; [auto with leafy | intros o].
  apply keeps_leafy_bind.
  - destruct (o_children o); [| auto with leafy].
    now apply keeps_leafy_for_each_live.
  - intros _. apply keeps_leafy_bind.
    + apply keeps_leafy_read_only, block_in_inline_applies_read_only.
    + intros [|]; [apply keeps_leafy_split_inline | auto with leafy].
Qed.

Lemma keeps_leafy_load (b : Box) : keeps_leafy (load b).
Proof.
  induction b as [c e kids IH | e t] using Box_ind2; [| cbn [load]; auto with leafy].
  rewrite load_unfold.
  apply keeps_leafy_bind; [auto with leafy | intros r].
  apply keeps_leafy_bind; [| auto with leafy].
  induction IH as [| k rest Hk _ IHrest]; cbn [load_children];
    repeat keeps_leafy_step; try exact Hk; try exact IHrest.
Qed.

Lemma leafy_empty : leafy empty_heap.
Proof. intros r o H. discriminate. Qed.

(** *** Back to trees *)

Lemma extracted_block_level (h : Heap) (l : list ref) (kids : list Box) :
  Forall2 (fun x k => containers_ok k = true /\
                      class_of h x = Some (box_class k)) l kids ->
  Forall (block_level_at h) l -> forallb is_block_level kids = true.
Proof.
  induction 1 as [| x k l kids [_ Hk] _ IHF]; intros Hall; [reflexivity |].
  inversion Hall as [| ? ? (c & Hcx & Hbl) Hall']; subst.
  cbn [forallb]. apply andb_true_iff. split; [| now apply IHF].
  unfold is_block_level. rewrite Hk in Hcx. now injection Hcx as ->.
Qed.

Lemma extracted_containers_ok (h : Heap) (l : list ref) (kids : list Box) :
  Forall2 (fun x k => containers_ok k = true /\
                      class_of h x = Some (box_class k)) l kids ->
  forallb containers_ok kids = true.
Proof.
  induction 1 as [| x k l kids [Hk _] _ IHF]; [reflexivity |].
  cbn [forallb]. now rewrite Hk, IHF.
Qed.

Lemma extract_containers_ok (fuel : nat) :
  forall (h : Heap) (r : ref) (t : Box),
    leafy h -> unmixed h -> extract fuel h r = Some t ->
    containers_ok t = true /\ class_of h r = Some (box_class t).
Proof.
  induction fuel as [| fuel IH]; intros h r t Hl Hu H; [discriminate |].
  cbn [extract] in H.
  destruct (boxes h !! r) as [o |] eqn:Eo; [| discriminate].
  cbn [mbind option_bind] in H.
  destruct (o_children o) as [lr |] eqn:Elr.
  - destruct (lists h !! lr) as [l |] eqn:El; [| discriminate].
    cbn [mbind option_bind] in H.
    destruct (mapM (extract fuel h) l) as [kids |] eqn:Ek; [| discriminate].
    cbn [mbind option_bind] in H. injection H as <-.
    apply mapM_Some in Ek.
    assert (HF : Forall2 (fun x k => containers_ok k = true /\
                                     class_of h x = Some (box_class k))
                   l kids).
    { eapply Forall2_impl; [exact Ek |]. intros x k Hx. now apply IH. }
    assert (Hc : class_of h r = Some (o_cls o)).
    { unfold class_of. now rewrite Eo. }
    split; [| exact Hc].
    cbn [containers_ok]. apply andb_true_iff. split.
    + destruct (is_BlockContainerBox (o_cls o)) eqn:Hb; [| reflexivity].
      assert (Hok : ok_children h l).
      { apply (Hu r (o_cls o) l Hc Hb). unfold children_of, children_ref.
        rewrite Eo. cbn [mbind option_bind]. now rewrite Elr. }
      unfold container_children_ok. apply orb_true_iff.
      destruct Hok as [Hall | (x & -> & Hx)].
      * left. now apply (extracted_block_level h l kids).
      * right. inversion HF as [| ? k ? kids' [_ Hk] HF']; subst.
        inversion HF'; subst. rewrite Hx in Hk. injection Hk as <-.
        reflexivity.
    + now apply (extracted_containers_ok h l kids).
  - injection H as <-. split; [reflexivity |].
    unfold class_of. rewrite Eo. cbn. f_equal. exact (Hl r o Eo Elr).
Qed.

Lemma well_nested_containers_ok (b : Box) :
  well_nested b = true -> containers_ok b = true.
Proof.
  induction b as [c e kids IH | e t] using Box_ind2; [| reflexivity].
  cbn [well_nested containers_ok]. intros H.
  apply andb_true_iff in H as [H Hk]. apply andb_true_iff in H as [H _].
  rewrite H. cbn [andb]. clear H.
  induction IH as [| k rest Hkk _ IHrest]; [reflexivity |].
  cbn [forallb] in *. apply andb_true_iff in Hk as [H1 H2].
  now rewrite (Hkk H1), (IHrest H2).
Qed.

Lemma run_block_in_inline_containers_ok (fuel : nat) (b t : Box) :
  containers_ok b = true -> run_block_in_inline fuel b = Ok t ->
  containers_ok t = true.
Proof.
  intros Hok H. unfold run_block_in_inline in H.
  destruct (bind (load b) (fun r => bind (block_in_inline fuel r)
                                      (fun _ => ret r)) empty_heap)
    as [[r h] | |] eqn:E; try discriminate.
  destruct (extract fuel h r) as [t' |] eqn:Ex; [| discriminate].
  injection H as ->.
  apply bind_ok in E as (r0 & h1 & Hload & E).
  apply bind_ok in E as (u & h2 & Hrun & E). injection E as <- <-.
  destruct (load_good b _ _ _ good_empty Hok Hload) as (Hg1 & _).
  destruct (block_in_inline_good fuel _ _ _ _ Hg1 Hrun) as [[_ Hu] _].
  assert (Hl : leafy h2).
  { apply (keeps_leafy_block_in_inline fuel _ _ _ _ Hrun).
    apply (keeps_leafy_load b _ _ _ Hload). apply leafy_empty. }
  now apply (extract_containers_ok fuel h2 r0 t Hl Hu).
Qed.



(** X20: in the tree the pipeline returns ([dom_to_box],
    [process_whitespace], [inline_in_block] and [block_in_inline] on the
    root), the children of every block container are all block-level
    boxes or are one line box: inline-level and block-level boxes are
    never side by side in a block container. *)
Theorem pipeline_containers_ok (fuel : nat) (e : Element) (t : Box) :
  pipeline fuel e = Ok t -> containers_ok t = true.
Proof.
  unfold pipeline. destruct (dom_to_box e) as [b | |] eqn:E; try discriminate.
  apply run_block_in_inline_containers_ok.
  apply well_nested_containers_ok, inline_in_block_well_nested_aux.
  rewrite <- lines_ok_erase_text.
  rewrite (proj1 (process_whitespace_keeps_boxes_aux b)).
  rewrite lines_ok_erase_text. apply element_boxes_lines_ok.
  now apply (dom_to_box_boxes_aux e b).
Qed.

Lemma pipeline_containers_ok_witness :
  exists t,
    pipeline 20 p_span_div = Ok t /\
    shape t =
      S_ BlockBox
        [S_ AnonymousBlockBox
           [S_ LineBox [S_ InlineBox [T_ (utext "a")]]];
         S_ BlockBox [];
         S_ AnonymousBlockBox [S_ LineBox [S_ InlineBox []]]] /\
    containers_ok t = true.
Proof.
  eexists. split; [vm_compute; reflexivity |].
  split; [vm_compute; reflexivity |].
  apply (pipeline_containers_ok 20 p_span_div). vm_compute; reflexivity.
Defined.

(** ** What [block_in_inline] leaves alone *)

Lemma links_only_boxes (h h' : Heap) : boxes h' = boxes h -> links_only h h'.
Proof.
  intros E. split.
  - intros r o Hr. exists o. rewrite E. auto.
  - intros r o' Hr Ho. rewrite E in Ho. apply lookup_lt_Some in Ho. lia.
Qed.

Lemma links_only_trans (h1 h2 h3 : Heap) :
  links_only h1 h2 -> links_only h2 h3 -> links_only h1 h3.
Proof.
  intros [A1 B1] [A2 B2]. split.
  - intros r o Hr. destruct (A1 r o Hr) as (o2 & Hr2 & Hc2 & He2 & Ht2).
    destruct (A2 r o2 Hr2) as (o3 & Hr3 & Hc3 & He3 & Ht3).
    exists o3. repeat split; congruence.
  - intros r o3 Hr Ho3.
    destruct (boxes h2 !! r) as [o2 |] eqn:E2.
    + destruct (B1 r o2 Hr E2) as [Hc Ht].
      destruct (A2 r o2 E2) as (o3' & Hr3 & Hc3 & _ & Ht3).
      rewrite Ho3 in Hr3. injection Hr3 as <-. split; congruence.
    + apply lookup_ge_None in E2. apply (B2 r o3); [exact E2 | exact Ho3].
Qed.

Lemma links_only_insert (h : Heap) (r : ref) (o o' : BoxObj)
    (ls : list (list ref)) :
  boxes h !! r = Some o -> o_cls o' = o_cls o ->
  o_element o' = o_element o -> o_text o' = o_text o ->
  links_only h (mkHeap (<[r := o']> (boxes h)) ls).
Proof.
  intros Ho Hc He Ht. split; cbn [boxes].
  - intros x ox Hx. destruct (decide (r = x)) as [<- | Hne].
    + exists o'. rewrite list_lookup_insert_eq
        by (now apply lookup_lt_Some in Ho).
      rewrite Ho in Hx. injection Hx as <-. auto.
    + exists ox. rewrite list_lookup_insert_ne by exact Hne. auto.
  - intros x ox Hx Hox. apply lookup_lt_Some in Hox.
    rewrite length_insert in Hox. lia.
Qed.

Lemma links_only_app (h : Heap) (o : BoxObj) (ls : list (list ref)) :
  o_cls o <> TextBox -> o_text o = None ->
  links_only h (mkHeap (boxes h ++ [o]) ls).
Proof.
  intros Hc Ht. split; cbn [boxes].
  - intros x ox Hx. exists ox. split; [| auto].
    rewrite lookup_app_l by (now apply lookup_lt_Some in Hx). exact Hx.
  - intros x ox Hx Hox.
    apply lookup_app_Some in Hox as [Hox | [_ Hox]].
    + apply lookup_lt_Some in Hox. lia.
    + apply list_lookup_singleton_Some in Hox as [_ <-]. now split.
Qed.

Lemma changes_links_only_ret {A} (a : A) : changes_links_only (ret a).
Proof. intros h a' h' H. injection H as _ <-. now apply links_only_boxes. Qed.

Lemma changes_links_only_raise {A} (e : exn) :
  changes_links_only (raise (A:=A) e).
Proof. intros h a h' H. discriminate. Qed.

Lemma changes_links_only_out_of_fuel {A} :
  changes_links_only (out_of_fuel (A:=A)).
Proof. intros h a h' H. discriminate. Qed.

Lemma changes_links_only_bind {A B} (m : M A) (f : A -> M B) :
  changes_links_only m -> (forall a, changes_links_only (f a)) ->
  changes_links_only (bind m f).
Proof.
  intros Hm Hf h b h' H. apply bind_ok in H as (a & h1 & H1 & H2).
  apply (links_only_trans h h1 h'); [now apply (Hm h a) | now apply (Hf a h1 b)].
Qed.

Lemma changes_links_only_read_only {A} (m : M A) :
  read_only m -> changes_links_only m.
Proof.
  intros Hro h a h' H. rewrite (Hro h a h' H). now apply links_only_boxes.
Qed.

Lemma changes_links_only_get_box r : changes_links_only (get_box r).
Proof. apply changes_links_only_read_only, read_only_get_box. Qed.

Lemma changes_links_only_get_list lr : changes_links_only (get_list lr).
Proof. apply changes_links_only_read_only, read_only_get_list. Qed.

Lemma changes_links_only_children_list r :
  changes_links_only (children_list r).
Proof. apply changes_links_only_read_only, read_only_children_list. Qed.

Lemma changes_links_only_index r : changes_links_only (index r).
Proof. apply changes_links_only_read_only, read_only_index. Qed.

Lemma changes_links_only_index_plus_1 r : changes_links_only (index_plus_1 r).
Proof. apply changes_links_only_read_only, read_only_index_plus_1. Qed.

Lemma changes_links_only_put_list lr l : changes_links_only (put_list lr l).
Proof. intros h a h' H. injection H as _ <-. now apply links_only_boxes. Qed.

Lemma changes_links_only_new_list l : changes_links_only (new_list l).
Proof. intros h a h' H. injection H as _ <-. now apply links_only_boxes. Qed.

Lemma changes_links_only_new_box c e :
  c <> TextBox -> changes_links_only (new_box c e).
Proof.
  intros Hc h a h' H. rewrite new_box_eq in H. injection H as _ <-.
  now apply links_only_app.
Qed.

Lemma changes_links_only_new_like o : changes_links_only (new_like o).
Proof.
  unfold new_like.
  destruct (o_cls o); try (apply changes_links_only_new_box; discriminate).
  apply changes_links_only_raise.
Qed.

Lemma changes_links_only_set_children r lr :
  changes_links_only (set_children r lr).
Proof.
  intros h a h' H. unfold set_children in H.
  apply bind_ok in H as (o & h0 & Ho & H). apply get_box_ok in Ho as [-> Ho].
  injection H as _ <-. now apply (links_only_insert h r o).
Qed.

Create HintDb links.
#[local] Hint Resolve changes_links_only_ret changes_links_only_raise
  changes_links_only_out_of_fuel changes_links_only_get_box
  changes_links_only_get_list changes_links_only_children_list
  changes_links_only_index changes_links_only_index_plus_1
  changes_links_only_put_list changes_links_only_new_list
  changes_links_only_new_like changes_links_only_set_children : links.

Ltac links_only_step :=
  first
    [ solve [auto with links]
    | apply changes_links_only_new_box; discriminate
    | apply changes_links_only_bind; [| intros ?]
    | match goal with
      | |- changes_links_only (match ?x with _ => _ end) => destruct x
      end ].

Lemma changes_links_only_add_child self child idx :
  changes_links_only (add_child self child idx).
Proof.
  intros h a h' H. unfold add_child in H.
  apply bind_ok in H as (c & h0 & Hc & H). apply get_box_ok in Hc as [-> Hc].
  apply bind_ok in H as (u & h1 & Hput & H).
  injection Hput as _ <-.
  match type of H with
  | ?m _ = _ =>
      assert (Hrest : changes_links_only m) by (repeat links_only_step)
  end.
  eapply links_only_trans; [| apply (Hrest _ _ _ H)].
  now apply (links_only_insert h child c).
Qed.
#[local] Hint Resolve changes_links_only_add_child : links.

Lemma changes_links_only_remove_from_parent box :
  changes_links_only (remove_from_parent box).
Proof. unfold remove_from_parent. repeat links_only_step. Qed.

Lemma changes_links_only_parent_add_child box child idx :
  changes_links_only idx ->
  changes_links_only (parent_add_child box child idx).
Proof. intros Hi. unfold parent_add_child. repeat links_only_step. Qed.
#[local] Hint Resolve changes_links_only_remove_from_parent
  changes_links_only_parent_add_child : links.

Lemma changes_links_only_find_ancestry fuel :
  forall cur acc, changes_links_only (find_ancestry fuel cur acc).
Proof.
  induction fuel as [| fuel IH]; intros cur acc; cbn [find_ancestry];
    repeat links_only_step; try apply IH.
Qed.

Lemma changes_links_only_previous_anonymous plb :
  changes_links_only (previous_anonymous plb).
Proof. unfold previous_anonymous. repeat links_only_step. Qed.

Lemma changes_links_only_clone_chain popped :
  forall cb, changes_links_only (clone_chain popped cb).
Proof.
  induction popped as [| p rest IH]; intros cb; cbn [clone_chain];
    repeat links_only_step; try apply IH.
Qed.

Lemma changes_links_only_add_children clone xs :
  changes_links_only (add_children clone xs).
Proof.
  induction xs as [| x xs IH]; cbn [add_children];
    repeat links_only_step; try exact IH.
Qed.
#[local] Hint Resolve changes_links_only_find_ancestry
  changes_links_only_previous_anonymous changes_links_only_clone_chain
  changes_links_only_add_children : links.

Lemma changes_links_only_move_tails fuel plb :
  forall s clone, changes_links_only (move_tails fuel plb s clone).
Proof.
  induction fuel as [| fuel IH]; intros s clone; cbn [move_tails];
    repeat links_only_step; try apply IH.
Qed.
#[local] Hint Resolve changes_links_only_move_tails : links.

Lemma changes_links_only_split_inline fuel box :
  changes_links_only (split_inline fuel box).
Proof. unfold split_inline, split_setup. repeat links_only_step. Qed.

Lemma changes_links_only_for_each_live (visit : ref -> M unit) (lr : lref) :
  (forall child, changes_links_only (visit child)) ->
  forall steps i, changes_links_only (for_each_live visit lr steps i).
Proof.
  intros Hv. induction steps as [| steps IH]; intros i; cbn [for_each_live];
    repeat links_only_step; try apply Hv; try apply IH.
Qed.

Lemma changes_links_only_block_in_inline fuel :
  forall box, changes_links_only (block_in_inline fuel box).
Proof.
  induction fuel as [| fuel IH]; intros box;
    [apply changes_links_only_out_of_fuel |].
  rewrite block_in_inline_unfold.
  apply changes_links_only_bind; [auto with links | intros o].
  apply changes_links_only_bind.
  - destruct (o_children o); [| auto with links].
    now apply changes_links_only_for_each_live.
  - intros _. apply changes_links_only_bind.
    + apply changes_links_only_read_only, block_in_inline_applies_read_only.
    + intros [|]; [apply changes_links_only_split_inline | auto with links].
Qed.

(** X21: [block_in_inline] changes links only.  When it returns, every
    box of the store is still there with its class, its element and its
    text: only [parent] and [children] may differ.  The boxes it has
    added (the anonymous block boxes and the clones of the split boxes)
    are no text boxes and have no text. *)
Theorem block_in_inline_changes_links_only (fuel : nat) (box : ref)
    (h h' : Heap) :
  block_in_inline fuel box h = Ok (tt, h') -> links_only h h'.
Proof. apply changes_links_only_block_in_inline. Qed.

Lemma block_in_inline_changes_links_only_witness :
  exists h',
    block_in_inline 10 0 block_in_span_heap = Ok (tt, h') /\
    length (boxes block_in_span_heap) = 5 /\ length (boxes h') = 9 /\
    links_only block_in_span_heap h'.
Proof.
  eexists. split; [vm_compute; reflexivity |].
  split; [reflexivity |]. split; [reflexivity |].
  apply (block_in_inline_changes_links_only 10 0 block_in_span_heap).
  vm_compute; reflexivity.
Defined.
